(** * Ant Lion Optimizer (mealpy/swarm_based/ALO.py): a shallow embedding

    The definitions follow the source file top to bottom:
    - the numeric values the code computes with (module [Numpy]);
    - computations on [self] that may raise (the monad [ST]);
    - the optimizer object and its store of agents;
    - [random_walk_antlion__] of both classes;
    - what [evolve] calls in the surrounding [Optimizer] class;
    - [__init__] and [evolve] of both classes;
    - one concrete problem on which the definitions are run (module [Demo]).
    The properties come after the definitions.

    Numbers come in two layers.  The definitions that follow the control
    flow of the source ([evolve], the store of agents, the shape and the
    columns of the walk matrices, the draws) compute with exact rationals,
    beside the three special values that numpy produces when it divides by
    zero.  What depends on the value of a float (finiteness, membership in
    an interval, the size of a step) is stated on module [Binary64], which
    repeats the numeric part of [random_walk_antlion__] with every
    operation rounded to the nearest binary64 value and overflowing to an
    infinity, as numpy's [float64] does. *)

From Stdlib Require Import ZArith QArith Qminmax Qround Qabs Qpower Lqa Lia.
From Stdlib Require PrimFloat FloatOps.
From stdpp Require Import base option list gmap.

Local Open Scope Z_scope.

(* ===================================================================== *)
(** ** Numeric values *)
(* ===================================================================== *)

Module Numpy.

(** A numpy float: a finite value, one of the two infinities, or
    not-a-number. *)
Inductive num : Type :=
  | Fin (q : Q)
  | PInf
  | NInf
  | NaN.

Definition is_finite (x : num) : bool :=
  match x with Fin _ => true | _ => false end.

(** Sign of a rational, read off its numerator. *)
Definition Qsign (q : Q) : comparison := (Qnum q ?= 0)%Z.

Definition fneg (x : num) : num :=
  match x with
  | Fin q => Fin (- q)
  | PInf => NInf
  | NInf => PInf
  | NaN => NaN
  end.

Definition fadd (x y : num) : num :=
  match x, y with
  | NaN, _ | _, NaN => NaN
  | Fin p, Fin q => Fin (p + q)
  | PInf, NInf | NInf, PInf => NaN
  | PInf, _ | _, PInf => PInf
  | NInf, _ | _, NInf => NInf
  end.

Definition fsub (x y : num) : num := fadd x (fneg y).

(** An infinity with the sign of [s]; zero times infinity is not a number. *)
Definition signed_inf (s : comparison) (positive : bool) : num :=
  match s with
  | Eq => NaN
  | Gt => if positive then PInf else NInf
  | Lt => if positive then NInf else PInf
  end.

Definition fmul (x y : num) : num :=
  match x, y with
  | NaN, _ | _, NaN => NaN
  | Fin p, Fin q => Fin (p * q)
  | Fin p, PInf | PInf, Fin p => signed_inf (Qsign p) true
  | Fin p, NInf | NInf, Fin p => signed_inf (Qsign p) false
  | PInf, PInf | NInf, NInf => PInf
  | PInf, NInf | NInf, PInf => NInf
  end.

(** numpy's true division.  The only zero divisors that occur in the source
    come from an integer array ([b - a]), so a zero divisor is the positive
    zero: [x / 0] is an infinity with the sign of [x], and [0 / 0] is not a
    number. *)
Definition fdiv (x y : num) : num :=
  match x, y with
  | NaN, _ | _, NaN => NaN
  | Fin p, Fin q =>
      match Qsign q with
      | Eq => signed_inf (Qsign p) true
      | _ => Fin (p / q)
      end
  | Fin _, (PInf | NInf) => Fin 0
  | PInf, Fin q => match Qsign q with Lt => NInf | _ => PInf end
  | NInf, Fin q => match Qsign q with Lt => PInf | _ => NInf end
  | (PInf | NInf), (PInf | NInf) => NaN
  end.

(** [x > y] on finite values, as a boolean. *)
Definition Qgtb (x y : Q) : bool := negb (Qle_bool x y).
(** [x < y] on finite values, as a boolean. *)
Definition Qltb (x y : Q) : bool := negb (Qle_bool y x).

(** Python's [int / int]: true division, [ZeroDivisionError] on zero. *)
Definition true_div (x y : Z) : option Q :=
  if decide (y = 0) then None else Some (inject_Z x / inject_Z y)%Q.

(** [np.cumsum] on an integer array. *)
Fixpoint cumsum_from (acc : Z) (xs : list Z) : list Z :=
  match xs with
  | [] => []
  | x :: xs' => (acc + x) :: cumsum_from (acc + x) xs'
  end.

Definition cumsum (xs : list Z) : list Z := cumsum_from 0 xs.

(** [np.min] and [np.max]: [ValueError] on an empty array. *)
Definition np_min (xs : list Z) : option Z :=
  match xs with
  | [] => None
  | x :: xs' => Some (foldr Z.min x xs')
  end.

Definition np_max (xs : list Z) : option Z :=
  match xs with
  | [] => None
  | x :: xs' => Some (foldr Z.max x xs')
  end.

(** Indexing an axis of length [n] with a Python integer: negative indices
    count from the end, anything else out of range is an [IndexError]. *)
Definition np_index (n : nat) (j : Z) : option nat :=
  if decide (0 <= j < Z.of_nat n) then Some (Z.to_nat j)
  else if decide (- Z.of_nat n <= j < 0) then Some (Z.to_nat (Z.of_nat n + j))
  else None.

(** A matrix is the list of its rows. *)
Definition matrix : Type := list (list num).

(** [M[:, j]]: entry [j] of every row.  An array built from an empty list
    of rows is one-dimensional and cannot be indexed along a second axis. *)
Definition column (M : matrix) (j : Z) : option (list num) :=
  match M with
  | [] => None
  | _ => mapM (fun row : list num => i ← np_index (length row) j; row !! i) M
  end.

End Numpy.

(* ===================================================================== *)
(** ** State and exceptions *)
(* ===================================================================== *)

(** A computation that reads and writes a state of type [S] and may raise:
    [None] stands for any Python exception, which aborts the call. *)
Definition ST (S A : Type) : Type := S → option (A * S).

#[export] Instance ST_ret {S} : MRet (ST S) := λ A (a : A) s, Some (a, s).
#[export] Instance ST_bind {S} : MBind (ST S) :=
  λ A B (f : A → ST S B) (m : ST S A) s,
    match m s with
    | Some (a, s') => f a s'
    | None => None
    end.

(** Raise when a partial operation has no result. *)
Definition try {S A} (o : option A) : ST S A :=
  λ s, match o with Some a => Some (a, s) | None => None end.

Definition get {S} : ST S S := λ s, Some (s, s).
Definition modify {S} (f : S → S) : ST S unit := λ s, Some (tt, f s).

(** [for x in xs: acc = body x acc]. *)
Fixpoint for_each {S A B} (xs : list A) (body : A → B → ST S B) (acc : B) : ST S B :=
  match xs with
  | [] => mret acc
  | x :: xs' => acc' ← body x acc; for_each xs' body acc'
  end.

(** [range(0, n)] for a Python integer [n]: empty when [n] is not positive. *)
Definition range (n : Z) : list Z := Z.of_nat <$> seq 0 (Z.to_nat n).

(** [assert cond], raising when the condition fails. *)
Definition require {S} (P : Prop) `{Decision P} : ST S unit :=
  try (if decide P then Some tt else None).

(* ===================================================================== *)
(** ** The optimizer object *)
(* ===================================================================== *)

Export Numpy.

Inductive variant : Type := OriginalALO | DevALO.

Inductive direction : Type := Min | Max.

(** [self.problem]: the box bounds and the optimisation direction. *)
Record Problem : Type := {
  lb : list Q;
  ub : list Q;
  minmax : direction;
}.

Definition n_dims (p : Problem) : nat := length (lb p).

(** [self.mode]: the modes in [AVAILABLE_MODES] evaluate a whole batch at
    once; every other mode evaluates each candidate as it is made. *)
Inductive Mode : Type := Single | Swarm | Thread | Process.

Definition in_AVAILABLE_MODES (m : Mode) : bool :=
  match m with Single => false | _ => true end.

Record Target : Type := { fitness : num }.

(** An agent object: its position and, once evaluated, its target. *)
Record Agent : Type := {
  solution : list num;
  target : option Target;
}.

(** Python objects live in a store and are named by their address, so that
    two slots holding the same object can be told from two slots holding
    equal objects. *)
Definition loc : Type := nat.

(** [self].  [G] is the state of the pseudorandom generator. *)
Record Optimizer {G : Type} : Type := {
  epoch : Z;
  pop_size : Z;
  sort_flag : bool;
  problem : Problem;
  mode : Mode;
  heap : gmap loc Agent;
  pop : list loc;
  g_best : loc;
  generator : G;
}.
Arguments Optimizer : clear implicits.

Definition set_epoch {G} (v : Z) (self : Optimizer G) : Optimizer G :=
  {| epoch := v; pop_size := pop_size self; sort_flag := sort_flag self;
     problem := problem self; mode := mode self; heap := heap self;
     pop := pop self; g_best := g_best self; generator := generator self |}.

Definition set_pop_size {G} (v : Z) (self : Optimizer G) : Optimizer G :=
  {| epoch := epoch self; pop_size := v; sort_flag := sort_flag self;
     problem := problem self; mode := mode self; heap := heap self;
     pop := pop self; g_best := g_best self; generator := generator self |}.

Definition set_sort_flag {G} (v : bool) (self : Optimizer G) : Optimizer G :=
  {| epoch := epoch self; pop_size := pop_size self; sort_flag := v;
     problem := problem self; mode := mode self; heap := heap self;
     pop := pop self; g_best := g_best self; generator := generator self |}.

Definition set_heap {G} (v : gmap loc Agent) (self : Optimizer G) : Optimizer G :=
  {| epoch := epoch self; pop_size := pop_size self; sort_flag := sort_flag self;
     problem := problem self; mode := mode self; heap := v;
     pop := pop self; g_best := g_best self; generator := generator self |}.

Definition set_pop {G} (v : list loc) (self : Optimizer G) : Optimizer G :=
  {| epoch := epoch self; pop_size := pop_size self; sort_flag := sort_flag self;
     problem := problem self; mode := mode self; heap := heap self;
     pop := v; g_best := g_best self; generator := generator self |}.

Definition set_g_best {G} (v : loc) (self : Optimizer G) : Optimizer G :=
  {| epoch := epoch self; pop_size := pop_size self; sort_flag := sort_flag self;
     problem := problem self; mode := mode self; heap := heap self;
     pop := pop self; g_best := v; generator := generator self |}.

Definition set_generator {G} (v : G) (self : Optimizer G) : Optimizer G :=
  {| epoch := epoch self; pop_size := pop_size self; sort_flag := sort_flag self;
     problem := problem self; mode := mode self; heap := heap self;
     pop := pop self; g_best := g_best self; generator := v |}.

(** Between the two states only the generator has moved. *)
Definition only_generator {G} (s s' : Optimizer G) : Prop :=
  ∃ g, s' = set_generator g s.

(** Between the two states only the object store and the generator have
    moved. *)
Definition touched {G} (s s' : Optimizer G) : Prop :=
  ∃ h g, s' = set_heap h (set_generator g s).

(** [self] with another object store, population and elite. *)
Definition with_store {G} (h : gmap loc Agent) (p : list loc) (gb : loc)
    (self : Optimizer G) : Optimizer G :=
  set_heap h (set_pop p (set_g_best gb self)).

(** A computation that neither reads nor writes what [φ] changes. *)
Definition commutes {S A} (φ : S → S) (m : ST S A) : Prop :=
  ∀ s, m (φ s) = prod_map id φ <$> m s.

(** [xs[j]] on a Python list. *)
Definition py_getitem {A} (xs : list A) (j : Z) : option A :=
  i ← np_index (length xs) j; xs !! i.

(** [xs[j] = x] on a Python list. *)
Definition py_setitem {A} (xs : list A) (j : Z) (x : A) : option (list A) :=
  i ← np_index (length xs) j; Some (<[i := x]> xs).

(** One-dimensional numpy broadcasting of a binary operation: equal lengths
    combine entry by entry, a length-one operand is stretched, and any other
    pair of shapes is a [ValueError]. *)
Definition broadcast2 (f : num → num → num) (xs ys : list num) : option (list num) :=
  if decide (length xs = length ys) then Some (zip_with f xs ys)
  else match xs, ys with
       | [x], _ => Some (f x <$> ys)
       | _, [y] => Some ((λ x, f x y) <$> xs)
       | _, _ => None
       end.

(* ===================================================================== *)
(** ** The random walk around an antlion *)
(* ===================================================================== *)

(** The ratio [I] of equations (2.10) and (2.11): lines 56-66, repeated
    word for word at lines 163-173.  [T] is [self.epoch].  The constants
    [0.9] and [0.95] are taken at their decimal value. *)
Definition shrink_ratio (T current_epoch : Z) : option Q :=
  let t := inject_Z current_epoch in
  let I := 1%Q in
  I ← (if Qgtb t (inject_Z T / 10) then
         r ← true_div current_epoch T; Some (1 + 100 * r)%Q
       else Some I);
  I ← (if Qgtb t (inject_Z T / 2) then
         r ← true_div current_epoch T; Some (1 + 1000 * r)%Q
       else Some I);
  I ← (if Qgtb t (inject_Z T * (3 / 4)) then
         r ← true_div current_epoch T; Some (1 + 10000 * r)%Q
       else Some I);
  I ← (if Qgtb t (inject_Z T * 0.9) then
         r ← true_div current_epoch T; Some (1 + 100000 * r)%Q
       else Some I);
  I ← (if Qgtb t (inject_Z T * 0.95) then
         r ← true_div current_epoch T; Some (1 + 1000000 * r)%Q
       else Some I);
  Some I.


(** One step of the walk: [2 * (r > 0.5) - 1]. *)
Definition step (r : Q) : Z := 2 * (if Qgtb r 0.5 then 1 else 0) - 1.

(** Equation (2.7) as the loop of [OriginalALO] writes it:
    [((X - a) * (d - c)) / (b - a) + c]. *)
Definition normalize_original (a b : Z) (c d : num) (x : Z) : num :=
  fadd (fdiv (fmul (Fin (inject_Z (x - a))) (fsub d c)) (Fin (inject_Z (b - a)))) c.

(** The same equation as the array code of [DevALO] writes it:
    [temp0 * temp1 + lb] with [temp0 = X - a], and [temp1] the ratio
    [(ub - lb) / (b - a)] computed beforehand. *)
Definition normalize_dev (a : Z) (temp1 lb_k : num) (x : Z) : num :=
  fadd (fmul (Fin (inject_Z (x - a))) temp1) lb_k.

Section Walk.
Context {G : Type}.
(** [self.generator.random()]: one draw, and the generator's next state. *)
Variable gen_random : G → Q * G.

Definition random : ST (Optimizer G) Q :=
  λ self, let '(r, g) := gen_random (generator self) in
          Some (r, set_generator g self).

Fixpoint random_n (n : nat) : ST (Optimizer G) (list Q) :=
  match n with
  | O => mret []
  | S n' => r ← random; rs ← random_n n'; mret (r :: rs)
  end.

(** [self.generator.random(n)]: [n] draws; a negative size is a
    [ValueError]. *)
Definition random_array (n : Z) : ST (Optimizer G) (list Q) :=
  require (0 <= n);; random_n (Z.to_nat n).

(** Lines 56-80 (and 163-179): the bounds divided by [I] and moved around
    [solution], each by its own draw.  Returns [(lb, ub)]. *)
Definition recentred_bounds (solution : list num) (current_epoch : Z)
    : ST (Optimizer G) (list num * list num) :=
  self ← get;
  I ← try (shrink_ratio (epoch self) current_epoch);
  let lb := (λ x, fdiv (Fin x) (Fin I)) <$> lb (problem self) in
  let ub := (λ x, fdiv (Fin x) (Fin I)) <$> ub (problem self) in
  r ← random;
  lb ← try (if Qltb r 0.5 then broadcast2 fadd lb solution
            else broadcast2 fadd (fneg <$> lb) solution);
  r ← random;
  ub ← try (if Qltb r 0.5 then broadcast2 fadd ub solution
            else broadcast2 fadd (fneg <$> ub) solution);
  mret (lb, ub).

(** [np.cumsum(2 * (self.generator.random(n) > 0.5) - 1)]. *)
Definition raw_walk (n : Z) : ST (Optimizer G) (list Z) :=
  rs ← random_array n; mret (cumsum (step <$> rs)).

(** [OriginalALO.random_walk_antlion__], lines 55-92. *)
Definition OriginalALO_random_walk_antlion__ (solution : list num) (current_epoch : Z)
    : ST (Optimizer G) matrix :=
  '(lb, ub) ← recentred_bounds solution current_epoch;
  self ← get;
  for_each (range (Z.of_nat (n_dims (problem self))))
    (λ k temp,
       X ← raw_walk (epoch self);
       a ← try (np_min X);
       b ← try (np_max X);
       c ← try (py_getitem lb k);
       d ← try (py_getitem ub k);
       let X_norm := normalize_original a b c d <$> X in
       mret (temp ++ [X_norm]))
    [].

(** [DevALO.random_walk_antlion__], lines 162-188. *)
Definition DevALO_random_walk_antlion__ (solution : list num) (current_epoch : Z)
    : ST (Optimizer G) matrix :=
  '(lb, ub) ← recentred_bounds solution current_epoch;
  self ← get;
  let n := n_dims (problem self) in
  X ← for_each (range (Z.of_nat n))
         (λ _ rows, row ← raw_walk (pop_size self); mret (rows ++ [row])) [];
  (* reducing along axis 1 needs a two-dimensional array *)
  require (n ≠ 0%nat);;
  a ← try (mapM np_min X);
  b ← try (mapM np_max X);
  width ← try (broadcast2 fsub ub lb);
  ratio ← try (broadcast2 fdiv width ((λ ba, Fin (inject_Z ba)) <$> zip_with Z.sub b a));
  (* np.reshape(_, (n_dims, 1)) *)
  require (length ratio = n);;
  let temp1 := ratio in
  require (length lb = n);;
  let X_norm :=
    zip_with (λ row '(a_k, t_k, lb_k), normalize_dev a_k t_k lb_k <$> row)
             X (zip (zip a temp1) lb) in
  mret X_norm.

(** Method lookup on the class of [self]. *)
Definition random_walk_antlion__ (v : variant) : list num → Z → ST (Optimizer G) matrix :=
  match v with
  | OriginalALO => OriginalALO_random_walk_antlion__
  | DevALO => DevALO_random_walk_antlion__
  end.

End Walk.

(* ===================================================================== *)
(** ** What [evolve] calls in the surrounding framework *)
(* ===================================================================== *)

(** Where [np.argsort] puts [x] relative to [y] in ascending order:
    not-a-number goes last. *)
Definition fleb (x y : num) : bool :=
  match x, y with
  | _, NaN => true
  | NaN, _ => false
  | NInf, _ => true
  | _, NInf => false
  | _, PInf => true
  | PInf, _ => false
  | Fin p, Fin q => Qle_bool p q
  end.

(** [x] may stand before [y] in a population sorted for direction [d]. *)
Definition ranks_before (d : direction) (x y : num) : bool :=
  match d with
  | Min => fleb x y
  | Max => fleb y x
  end.

Fixpoint insert_ranked {A} (d : direction) (x : num * A) (l : list (num * A))
    : list (num * A) :=
  match l with
  | [] => [x]
  | y :: l' => if ranks_before d x.1 y.1 then x :: y :: l'
               else y :: insert_ranked d x l'
  end.

(** A stable sort on the fitness key. *)
Definition sort_ranked {A} (d : direction) (l : list (num * A)) : list (num * A) :=
  foldr (insert_ranked d) [] l.

Section Framework.
Context {G : Type}.

Definition deref (l : loc) : ST (Optimizer G) Agent :=
  self ← get; try (heap self !! l).

(** A new object at an address that is not in use. *)
Definition alloc (a : Agent) : ST (Optimizer G) loc :=
  λ self, let l := fresh (dom (heap self)) in
          Some (l, set_heap (<[l := a]> (heap self)) self).

(** Overwrite the object at an address in use. *)
Definition store (l : loc) (a : Agent) : ST (Optimizer G) unit :=
  λ self, match heap self !! l with
          | Some _ => Some (tt, set_heap (<[l := a]> (heap self)) self)
          | None => None
          end.

(** [item.target.fitness]: raises on an agent that has no target yet. *)
Definition fitness_of (l : loc) : ST (Optimizer G) num :=
  a ← deref l; t ← try (target a); mret (fitness t).

(** Modelled from the spec: [generate_empty_agent] of the framework, which
    is not part of the source; section 4.3 step 2e packages the corrected
    vector as a new, unevaluated agent. *)
Definition generate_empty_agent (pos : list num) : ST (Optimizer G) loc :=
  alloc {| solution := pos; target := None |}.

(** Modelled from the spec: [Agent.copy] of the framework, which is not
    part of the source; sections 3 and 4.3 step 5 make it a deep,
    independent copy of the agent. *)
Definition Agent_copy (l : loc) : ST (Optimizer G) loc :=
  a ← deref l; alloc a.

(** Modelled from the spec: [get_sorted_and_trimmed_population] of the
    framework, which is not part of the source; section 4.3 step 4 sorts by
    fitness for the optimisation direction and keeps the best [n] agents.
    The sort is stable and the agents are the same objects as before. *)
Definition get_sorted_and_trimmed_population (agents : list loc) (n : Z) (d : direction)
    : ST (Optimizer G) (list loc) :=
  keys ← mapM fitness_of agents;
  mret (take (Z.to_nat n) ((sort_ranked d (zip keys agents)).*2)).

(** The objective function of the problem, wrapped as [self.get_target].
    It is a function of the position alone. *)
Variable get_target : list num → Target.

(** [agent.target = self.get_target(agent.solution)]. *)
Definition evaluate (l : loc) : ST (Optimizer G) unit :=
  a ← deref l;
  store l {| solution := solution a; target := Some (get_target (solution a)) |}.

(** Modelled from the spec: [update_target_for_population] of the
    framework, which is not part of the source; section 4.3 step 3 submits
    the batch for evaluation and gets back the same agents, evaluated.  In a
    mode outside [AVAILABLE_MODES] the agents were evaluated one by one
    already and the batch is returned as it is. *)
Definition update_target_for_population (agents : list loc) : ST (Optimizer G) (list loc) :=
  self ← get;
  (if in_AVAILABLE_MODES (mode self) then
     for_each agents (λ l _, evaluate l) tt
   else mret tt);;
  mret agents.

End Framework.

(* ===================================================================== *)
(** ** [__init__] and [evolve] *)
(* ===================================================================== *)

(** Modelled from the spec: [validator.check_int] of the framework, which
    is not part of the source; section 7 has a value outside its range
    fail with a parameter-range error, and section 6 gives the ranges as
    closed integer intervals. *)
Definition check_int (value lo hi : Z) : option Z :=
  if decide (lo <= value <= hi) then Some value else None.

Section Engine.
Context {G : Type}.
Variable gen_random : G → Q * G.
(** [get_index_roulette_wheel_selection] of the framework: it reads the
    fitness values and the direction, and draws from the generator. *)
Variable roulette : direction → list num → G → Z * G.
(** [correct_solution] of the framework, the bounds corrector. *)
Variable correct_solution : Problem → list num → list num.
Variable get_target : list num → Target.

(** [OriginalALO.__init__], lines 43-53, run on the object that the
    constructor of the base class has set up. *)
Definition OriginalALO__init__ (epoch pop_size : Z) : ST (Optimizer G) unit :=
  e ← try (check_int epoch 1 100000);
  modify (set_epoch e);;
  p ← try (check_int pop_size 5 10000);
  modify (set_pop_size p);;
  modify (set_sort_flag true).

(** [DevALO.__init__], lines 154-160. *)
Definition DevALO__init__ (epoch pop_size : Z) : ST (Optimizer G) unit :=
  OriginalALO__init__ epoch pop_size.

(** Construction of an optimizer of class [v]. *)
Definition ALO__init__ (v : variant) : Z → Z → ST (Optimizer G) unit :=
  match v with
  | OriginalALO => OriginalALO__init__
  | DevALO => DevALO__init__
  end.

Definition get_index_roulette_wheel_selection (list_fitness : list num)
    : ST (Optimizer G) Z :=
  λ self, let '(i, g) := roulette (minmax (problem self)) list_fitness (generator self) in
          Some (i, set_generator g self).

(** [pop_new[-1].target = self.get_target(pos_new)]. *)
Definition set_last_target (pop_new : list loc) (pos_new : list num)
    : ST (Optimizer G) unit :=
  l ← try (py_getitem pop_new (-1));
  a ← deref l;
  store l {| solution := solution a; target := Some (get_target pos_new) |}.

(** Lines 122-124 (and 217-219): merge, sort, trim, and put a copy of the
    elite in the last slot. *)
Definition merge_and_keep_elite (pop_new : list loc) : ST (Optimizer G) unit :=
  self ← get;
  merged ← get_sorted_and_trimmed_population
             (pop self ++ pop_new) (pop_size self) (minmax (problem self));
  modify (set_pop merged);;
  elite ← Agent_copy (g_best self);
  self ← get;
  pop' ← try (py_setitem (pop self) (-1) elite);
  modify (set_pop pop').

(** [OriginalALO.evolve], lines 94-124. *)
Definition OriginalALO_evolve (epoch : Z) : ST (Optimizer G) unit :=
  self ← get;
  list_fitness ← mapM fitness_of (pop self);
  pop_new ← for_each (range (pop_size self))
    (λ idx pop_new,
       rolette_index ← get_index_roulette_wheel_selection list_fitness;
       antlion ← try (py_getitem (pop self) rolette_index);
       antlion ← deref antlion;
       RA ← OriginalALO_random_walk_antlion__ gen_random (solution antlion) epoch;
       elite ← deref (g_best self);
       RE ← OriginalALO_random_walk_antlion__ gen_random (solution elite) epoch;
       ra ← try (column RA (epoch - 1));
       re ← try (column RE (epoch - 1));
       total ← try (broadcast2 fadd ra re);
       let temp := (λ x, fdiv x (Fin 2)) <$> total in
       let pos_new := correct_solution (problem self) temp in
       agent ← generate_empty_agent pos_new;
       let pop_new := pop_new ++ [agent] in
       (if negb (in_AVAILABLE_MODES (mode self))
        then set_last_target pop_new pos_new else mret tt);;
       mret pop_new)
    [];
  pop_new ← update_target_for_population get_target pop_new;
  merge_and_keep_elite pop_new.

(** [DevALO.evolve], lines 190-219. *)
Definition DevALO_evolve (epoch : Z) : ST (Optimizer G) unit :=
  self ← get;
  list_fitness ← mapM fitness_of (pop self);
  pop_new ← for_each (range (pop_size self))
    (λ idx pop_new,
       rolette_index ← get_index_roulette_wheel_selection list_fitness;
       antlion ← try (py_getitem (pop self) rolette_index);
       antlion ← deref antlion;
       RA ← DevALO_random_walk_antlion__ gen_random (solution antlion) epoch;
       elite ← deref (g_best self);
       RE ← DevALO_random_walk_antlion__ gen_random (solution elite) epoch;
       ra ← try (column RA idx);
       re ← try (column RE idx);
       total ← try (broadcast2 fadd ra re);
       let temp := (λ x, fdiv x (Fin 2)) <$> total in
       let pos_new := correct_solution (problem self) temp in
       agent ← generate_empty_agent pos_new;
       let pop_new := pop_new ++ [agent] in
       (if negb (in_AVAILABLE_MODES (mode self))
        then set_last_target pop_new pos_new else mret tt);;
       mret pop_new)
    [];
  pop_new ← update_target_for_population get_target pop_new;
  merge_and_keep_elite pop_new.

(** Method lookup on the class of [self]. *)
Definition evolve (v : variant) : Z → ST (Optimizer G) unit :=
  match v with
  | OriginalALO => OriginalALO_evolve
  | DevALO => DevALO_evolve
  end.

(** The column of the walk matrices that candidate [idx] of generation
    [epoch] reads: line 112 and line 207. *)
Definition walk_column (v : variant) (epoch idx : Z) : Z :=
  match v with
  | OriginalALO => epoch - 1
  | DevALO => idx
  end.

(** The raw candidate of equation (2.13). *)
Definition raw_candidate (v : variant) (epoch idx : Z) (RA RE : matrix)
    : option (list num) :=
  ra ← column RA (walk_column v epoch idx);
  re ← column RE (walk_column v epoch idx);
  fmap (M := list) (λ x, fdiv x (Fin 2)) <$> broadcast2 fadd ra re.

(** The first half of the body of the loop of [evolve], the same for both
    classes up to the walk and the column: the position of candidate
    [idx]. *)
Definition new_position (v : variant) (epoch : Z) (self0 : Optimizer G)
    (list_fitness : list num) (idx : Z) : ST (Optimizer G) (list num) :=
  rolette_index ← get_index_roulette_wheel_selection list_fitness;
  antlion ← try (py_getitem (pop self0) rolette_index);
  antlion ← deref antlion;
  RA ← random_walk_antlion__ gen_random v (solution antlion) epoch;
  elite ← deref (g_best self0);
  RE ← random_walk_antlion__ gen_random v (solution elite) epoch;
  temp ← try (raw_candidate v epoch idx RA RE);
  mret (correct_solution (problem self0) temp).

(** The body of the loop of [evolve]: the new position, packaged as an
    agent. *)
Definition new_agent (v : variant) (epoch : Z) (self0 : Optimizer G)
    (list_fitness : list num) (idx : Z) (pop_new : list loc)
    : ST (Optimizer G) (list loc) :=
  pos_new ← new_position v epoch self0 list_fitness idx;
  agent ← generate_empty_agent pos_new;
  let pop_new := pop_new ++ [agent] in
  (if negb (in_AVAILABLE_MODES (mode self0))
   then set_last_target pop_new pos_new else mret tt);;
  mret pop_new.

(** [evolve] of class [v], with the loop body named. *)
Definition evolve_loop (v : variant) (epoch : Z) : ST (Optimizer G) unit :=
  self ← get;
  list_fitness ← mapM fitness_of (pop self);
  pop_new ← for_each (range (pop_size self)) (new_agent v epoch self list_fitness) [];
  pop_new ← update_target_for_population get_target pop_new;
  merge_and_keep_elite pop_new.

(** [x] is strictly better than [y] for direction [d]. *)
Definition better (d : direction) (x y : num) : bool :=
  ranks_before d x y && negb (ranks_before d y x).

(** Modelled from the spec: the elite update of the framework, which is not
    part of the source; the glossary makes the elite the single
    best-fitness agent found so far in the run.  After a generation the
    best agent of the population replaces the elite when it is strictly
    better; the elite is kept as an object of its own. *)
Definition update_global_best_agent : ST (Optimizer G) unit :=
  self ← get;
  keys ← mapM fitness_of (pop self);
  match sort_ranked (minmax (problem self)) (zip keys (pop self)) with
  | [] => mret tt
  | (f, l) :: _ =>
      f_best ← fitness_of (g_best self);
      if better (minmax (problem self)) f f_best
      then c ← Agent_copy l; modify (set_g_best c)
      else mret tt
  end.

(** Modelled from the spec: one iteration of the generation loop of the
    framework, which is not part of the source: [evolve], then the elite
    update; the best fitness so far is appended to the trajectory. *)
Definition generation (v : variant) (epoch : Z) (trajectory : list num)
    : ST (Optimizer G) (list num) :=
  evolve v epoch;;
  update_global_best_agent;;
  self ← get;
  f ← fitness_of (g_best self);
  mret (trajectory ++ [f]).

(** Modelled from the spec: the generation loop of the framework over the
    epochs [1 .. n] (the epoch schedule of section 3 is 1-indexed). *)
Definition generations (v : variant) (n : Z) : ST (Optimizer G) (list num) :=
  for_each (Z.succ <$> range n) (generation v) [].

End Engine.

(* ===================================================================== *)
(** ** Bounds *)
(* ===================================================================== *)

Definition finite (x : num) : Prop := is_finite x = true.

(** [x] is a finite value in the closed interval [[l, u]]. *)
Definition within (l u : Q) (x : num) : Prop :=
  match x with
  | Fin q => (l <= q)%Q ∧ (q <= u)%Q
  | _ => False
  end.

(** A position lies component-wise within the bounds of the problem. *)
Definition in_bounds (p : Problem) (pos : list num) : Prop :=
  Forall2 (λ x lu, within lu.1 lu.2 x) pos (zip (lb p) (ub p)).

(** A matrix with [r] rows of [c] entries each. *)
Definition has_shape (M : matrix) (r c : nat) : Prop :=
  length M = r ∧ Forall (λ row, length row = c) M.

(** Equation (2.7) as class [v] computes it, from the extremes [a], [b] of
    the raw walk and the target interval from [c] to [d]. *)
Definition normalize (v : variant) (a b : Z) (c d : num) (x : Z) : num :=
  match v with
  | OriginalALO => normalize_original a b c d x
  | DevALO => normalize_dev a (fdiv (fsub d c) (Fin (inject_Z (b - a)))) c x
  end.

(** [row] is row [k] of a walk matrix of class [v]: a raw walk of [h] steps,
    normalised onto entry [k] of the recentred bounds [lbs], [ubs]. *)
Definition walk_row (v : variant) (h : Z) (lbs ubs : list num) (k : nat)
    (row : list num) : Prop :=
  ∃ (rs : list Q) (a b : Z) (c d : num),
    length rs = Z.to_nat h ∧
    np_min (cumsum (step <$> rs)) = Some a ∧
    np_max (cumsum (step <$> rs)) = Some b ∧
    lbs !! k = Some c ∧ ubs !! k = Some d ∧
    row = normalize v a b c d <$> cumsum (step <$> rs).

(** The length of the walks of a class: [self.epoch] at line 85,
    [self.pop_size] at line 182. *)
Definition horizon {G} (v : variant) (self : Optimizer G) : Z :=
  match v with
  | OriginalALO => epoch self
  | DevALO => pop_size self
  end.

(** What the walks need of [self]: a positive maximum epoch and a positive
    population size, as the constructor guarantees, and a problem with at
    least one dimension and as many upper as lower bounds. *)
Definition configured {G} (self : Optimizer G) : Prop :=
  1 <= epoch self ∧ 1 <= pop_size self ∧
  n_dims (problem self) ≠ 0%nat ∧
  length (ub (problem self)) = n_dims (problem self).

(** An agent that has been evaluated at its position. *)
Definition evaluated (get_target : list num → Target) (pos : list num) : Agent :=
  {| solution := pos; target := Some (get_target pos) |}.

(** The agent that one iteration of the loop of [evolve] leaves in the
    store: evaluated already, unless the mode evaluates in batches. *)
Definition new_object (get_target : list num → Target) (m : Mode) (pos : list num) : Agent :=
  if in_AVAILABLE_MODES m then {| solution := pos; target := None |}
  else evaluated get_target pos.

(** The object at address [l] is an agent within the bounds. *)
Definition agent_in_bounds {G} (self : Optimizer G) (l : loc) : Prop :=
  ∃ a, heap self !! l = Some a ∧ in_bounds (problem self) (solution a).

(** Every agent of the population, and the elite, is within the bounds. *)
Definition all_in_bounds {G} (self : Optimizer G) : Prop :=
  Forall (agent_in_bounds self) (pop self) ∧ agent_in_bounds self (g_best self).

(** The contract of the bounds corrector (section 6) on problem [p]: a raw
    vector with one entry per dimension comes back within the bounds. *)
Definition corrector_contract (correct_solution : Problem → list num → list num)
    (p : Problem) : Prop :=
  ∀ pos, length pos = n_dims p → in_bounds p (correct_solution p pos).

(** The agents of the population, read from the store. *)
Definition agents_of {G} (self : Optimizer G) : list (option Agent) :=
  (λ l, heap self !! l) <$> pop self.

(** Two optimizers that differ at most in their store, population and
    elite. *)
Definition same_config {G} (t1 t2 : Optimizer G) : Prop :=
  epoch t1 = epoch t2 ∧ pop_size t1 = pop_size t2 ∧ sort_flag t1 = sort_flag t2 ∧
  problem t1 = problem t2 ∧ mode t1 = mode t2 ∧ generator t1 = generator t2.

(** Every pair of addresses of [pairs] holds, in the first optimizer and in
    the second, one and the same agent. *)
Definition paired {G} (t1 t2 : Optimizer G) (pairs : list (loc * loc)) : Prop :=
  Forall (λ lp, ∃ a, heap t1 !! lp.1 = Some a ∧ heap t2 !! lp.2 = Some a) pairs.

(** The elite and every slot of the population hold an object. *)
Definition well_formed {G} (self : Optimizer G) : Prop :=
  is_Some (heap self !! g_best self) ∧
  Forall (λ l, is_Some (heap self !! l)) (pop self).

(** What a run can tell of [self]: the parameters, the problem, the
    agents of the population and the elite, and the state of the
    generator.  The addresses at which the agents live are not part of it:
    two runs of one configuration have equal populations at unrelated
    addresses. *)
Definition view {G} (self : Optimizer G) :=
  (epoch self, pop_size self, sort_flag self, problem self, mode self,
   agents_of self, heap self !! g_best self, generator self).

(* ===================================================================== *)
(** ** Draws and evaluated agents *)
(* ===================================================================== *)

(** The state of the generator after [n] calls of
    [self.generator.random()]. *)
Fixpoint draws {G} (gen_random : G → Q * G) (n : nat) (g : G) : G :=
  match n with
  | O => g
  | S n' => draws gen_random n' (gen_random g).2
  end.

(** The fitness stored with the agent at address [l] is the objective at
    the agent's own position. *)
Definition fitness_consistent {G} (get_target : list num → Target) (self : Optimizer G)
    (l : loc) : Prop :=
  ∃ a, heap self !! l = Some a ∧ target a = Some (get_target (solution a)).

(** The object at address [l] is an agent that [evolve] can read: it has
    one entry per dimension and it has been evaluated. *)
Definition valid_agent {G} (self : Optimizer G) (l : loc) : Prop :=
  ∃ a, heap self !! l = Some a ∧
       length (solution a) = n_dims (problem self) ∧ is_Some (target a).

(* ===================================================================== *)
(** ** The same walk in binary64 arithmetic *)
(* ===================================================================== *)

(** The definitions above compute with exact rationals.  This module
    repeats the numeric part of [random_walk_antlion__] with the arithmetic
    of numpy's [float64]: every operation returns the exact result rounded
    to the nearest binary64 value, ties to even, and a result beyond the
    largest binary64 value becomes an infinity.  A finite value stays a
    rational, now one that binary64 represents.  Zero carries no sign: the
    sign of a zero shows only when something is divided by it, and the code
    divides by [I], which is at least 1, and by the integer [b - a]. *)
Module Binary64.

Definition pow2 (e : Z) : Q := (2 ^ e)%Q.

(** The exponent of the leading bit: [2 ^ ilog2 q <= |q| < 2 ^ (ilog2 q + 1)]
    for [q] other than zero. *)
Definition ilog2 (q : Q) : Z :=
  let k := Z.log2 (Z.abs (Qnum q)) - Z.log2 (Z.pos (Qden q)) in
  if Qle_bool (pow2 k) (Qabs q) then k else k - 1.

(** The nearest integer, the even one of the two when [q] is halfway. *)
Definition round_half_even (q : Q) : Z :=
  let f := Qfloor q in
  match (q - inject_Z f ?= 1 # 2)%Q with
  | Lt => f
  | Gt => f + 1
  | Eq => if Z.even f then f else f + 1
  end.

(** The exponent of the last place of the binary64 values around [q]: 53
    significant bits, and no exponent below that of the subnormal
    values. *)
Definition ulp_exponent (q : Q) : Z := Z.max (ilog2 q - 52) (-1074).

(** The multiple of the unit in the last place that is nearest to [q]. *)
Definition candidate (q : Q) : Q :=
  (inject_Z (round_half_even (q / pow2 (ulp_exponent q))) * pow2 (ulp_exponent q))%Q.

(** Rounding of a rational to binary64: the nearest candidate, in lowest
    terms, or an infinity when that candidate is [2^1024] or more. *)
Definition round64 (q : Q) : num :=
  if Qeq_bool q 0 then Fin 0
  else
    let r := candidate q in
    if Qle_bool (pow2 1024) (Qabs r) then (if Qle_bool 0 q then PInf else NInf)
    else Fin (Qred r).

Definition round (x : num) : num :=
  match x with
  | Fin q => round64 q
  | _ => x
  end.

Definition fneg : num → num := Numpy.fneg.
Definition fadd (x y : num) : num := round (Numpy.fadd x y).
Definition fsub (x y : num) : num := round (Numpy.fsub x y).
Definition fmul (x y : num) : num := round (Numpy.fmul x y).
Definition fdiv (x y : num) : num := round (Numpy.fdiv x y).

(** A decimal constant of the source text, as Python reads it. *)
Definition literal (q : Q) : num := round64 q.

(** An integer in a float operation.  Python raises [OverflowError] when
    the integer is too large to convert. *)
Definition float_of_int (z : Z) : option num :=
  match round64 (inject_Z z) with
  | Fin q => Some (Fin q)
  | _ => None
  end.

(** An entry of an [int64] array in a float operation. *)
Definition of_int64 (z : Z) : num := round64 (inject_Z z).

(** Python's [int / int]: the quotient rounded once; [ZeroDivisionError] on
    zero, [OverflowError] when the quotient is too large for a float. *)
Definition true_div (x y : Z) : option num :=
  if decide (y = 0) then None
  else match round64 (inject_Z x / inject_Z y) with
       | Fin q => Some (Fin q)
       | _ => None
       end.

(** [int * float] and [int + float]. *)
Definition int_mul (z : Z) (x : num) : option num := y ← float_of_int z; Some (fmul y x).
Definition int_add (z : Z) (x : num) : option num := y ← float_of_int z; Some (fadd y x).

(** [int > float]: Python compares the two values exactly. *)
Definition int_gt (z : Z) (x : num) : bool :=
  match x with
  | Fin q => Qgtb (inject_Z z) q
  | NInf => true
  | PInf | NaN => false
  end.

(** Lines 56-66 and 163-173. *)
Definition shrink_ratio (T current_epoch : Z) : option num :=
  let I := Fin 1 in
  c ← true_div T 10;
  I ← (if int_gt current_epoch c then
         r ← true_div current_epoch T; x ← int_mul 100 r; int_add 1 x
       else Some I);
  c ← true_div T 2;
  I ← (if int_gt current_epoch c then
         r ← true_div current_epoch T; x ← int_mul 1000 r; int_add 1 x
       else Some I);
  q ← true_div 3 4; c ← int_mul T q;
  I ← (if int_gt current_epoch c then
         r ← true_div current_epoch T; x ← int_mul 10000 r; int_add 1 x
       else Some I);
  c ← int_mul T (literal 0.9);
  I ← (if int_gt current_epoch c then
         r ← true_div current_epoch T; x ← int_mul 100000 r; int_add 1 x
       else Some I);
  c ← int_mul T (literal 0.95);
  I ← (if int_gt current_epoch c then
         r ← true_div current_epoch T; x ← int_mul 1000000 r; int_add 1 x
       else Some I);
  Some I.

(** Equation (2.7) as the loop of [OriginalALO] writes it:
    [((X - a) * (d - c)) / (b - a) + c]. *)
Definition normalize_original (a b : Z) (c d : num) (x : Z) : num :=
  fadd (fdiv (fmul (of_int64 (x - a)) (fsub d c)) (of_int64 (b - a))) c.

(** The same equation as the array code of [DevALO] writes it:
    [temp0 * temp1 + lb] with [temp0 = X - a], and [temp1] the ratio
    [(ub - lb) / (b - a)] computed beforehand. *)
Definition normalize_dev (a : Z) (temp1 lb_k : num) (x : Z) : num :=
  fadd (fmul (of_int64 (x - a)) temp1) lb_k.

Section Walk.
Context {G : Type}.
Variable gen_random : G → Q * G.

(** Lines 56-80 (and 163-179): the bounds divided by [I] and moved around
    [solution], each by its own draw.  Returns [(lb, ub)]. *)
Definition recentred_bounds (solution : list num) (current_epoch : Z)
    : ST (Optimizer G) (list num * list num) :=
  self ← get;
  I ← try (shrink_ratio (epoch self) current_epoch);
  let lb := (λ x, fdiv (Fin x) I) <$> lb (problem self) in
  let ub := (λ x, fdiv (Fin x) I) <$> ub (problem self) in
  r ← random gen_random;
  lb ← try (if Qltb r 0.5 then broadcast2 fadd lb solution
            else broadcast2 fadd (fneg <$> lb) solution);
  r ← random gen_random;
  ub ← try (if Qltb r 0.5 then broadcast2 fadd ub solution
            else broadcast2 fadd (fneg <$> ub) solution);
  mret (lb, ub).

(** [OriginalALO.random_walk_antlion__], lines 55-92. *)
Definition OriginalALO_random_walk_antlion__ (solution : list num) (current_epoch : Z)
    : ST (Optimizer G) matrix :=
  '(lb, ub) ← recentred_bounds solution current_epoch;
  self ← get;
  for_each (range (Z.of_nat (n_dims (problem self))))
    (λ k temp,
       X ← raw_walk gen_random (epoch self);
       a ← try (np_min X);
       b ← try (np_max X);
       c ← try (py_getitem lb k);
       d ← try (py_getitem ub k);
       let X_norm := normalize_original a b c d <$> X in
       mret (temp ++ [X_norm]))
    [].

(** [DevALO.random_walk_antlion__], lines 162-188. *)
Definition DevALO_random_walk_antlion__ (solution : list num) (current_epoch : Z)
    : ST (Optimizer G) matrix :=
  '(lb, ub) ← recentred_bounds solution current_epoch;
  self ← get;
  let n := n_dims (problem self) in
  X ← for_each (range (Z.of_nat n))
         (λ _ rows, row ← raw_walk gen_random (pop_size self); mret (rows ++ [row])) [];
  (* reducing along axis 1 needs a two-dimensional array *)
  require (n ≠ 0%nat);;
  a ← try (mapM np_min X);
  b ← try (mapM np_max X);
  width ← try (broadcast2 fsub ub lb);
  ratio ← try (broadcast2 fdiv width (of_int64 <$> zip_with Z.sub b a));
  (* np.reshape(_, (n_dims, 1)) *)
  require (length ratio = n);;
  let temp1 := ratio in
  require (length lb = n);;
  let X_norm :=
    zip_with (λ row '(a_k, t_k, lb_k), normalize_dev a_k t_k lb_k <$> row)
             X (zip (zip a temp1) lb) in
  mret X_norm.

(** Method lookup on the class of [self]. *)
Definition random_walk_antlion__ (v : variant) : list num → Z → ST (Optimizer G) matrix :=
  match v with
  | OriginalALO => OriginalALO_random_walk_antlion__
  | DevALO => DevALO_random_walk_antlion__
  end.

End Walk.

(** Equation (2.7) as class [v] computes it, from the extremes [a], [b] of
    the raw walk and the target interval from [c] to [d]. *)
Definition normalize (v : variant) (a b : Z) (c d : num) (x : Z) : num :=
  match v with
  | OriginalALO => normalize_original a b c d x
  | DevALO => normalize_dev a (fdiv (fsub d c) (of_int64 (b - a))) c x
  end.

(** [row] is row [k] of a walk matrix of class [v]: a raw walk of [h] steps,
    normalised onto entry [k] of the recentred bounds [lbs], [ubs]. *)
Definition walk_row (v : variant) (h : Z) (lbs ubs : list num) (k : nat)
    (row : list num) : Prop :=
  ∃ (rs : list Q) (a b : Z) (c d : num),
    length rs = Z.to_nat h ∧
    np_min (cumsum (step <$> rs)) = Some a ∧
    np_max (cumsum (step <$> rs)) = Some b ∧
    lbs !! k = Some c ∧ ubs !! k = Some d ∧
    row = normalize v a b c d <$> cumsum (step <$> rs).

(** The tolerance that the rounding of equation (2.7) needs on an interval
    with the ends [c] and [d]: a relative error of [2^-50], and [2^-1050]
    for results in the subnormal range. *)
Definition tolerance (c d : Q) : Q :=
  (Qmax (Qabs c) (Qabs d) * pow2 (-50) + pow2 (-1050))%Q.

(** [x] is a finite value between [c] and [d], whichever of the two is the
    smaller, up to the tolerance. *)
Definition between (c d x : num) : Prop :=
  match c, d, x with
  | Fin c, Fin d, Fin q =>
      (Qmin c d - tolerance c d <= q)%Q ∧ (q <= Qmax c d + tolerance c d)%Q
  | _, _, _ => False
  end.

(** [x] is a finite value in the interval [[c, d]] as written, up to the
    tolerance. *)
Definition inside (c d x : num) : Prop :=
  match c, d, x with
  | Fin c, Fin d, Fin q => (c - tolerance c d <= q)%Q ∧ (q <= d + tolerance c d)%Q
  | _, _, _ => False
  end.

(** [x] is a finite value of magnitude [2^1000] at most. *)
Definition moderate (x : num) : Prop :=
  match x with
  | Fin q => (Qabs q <= pow2 1000)%Q
  | _ => False
  end.

(** Bounds of magnitude [2^1000] at most. *)
Definition moderate_bounds (p : Problem) : Prop :=
  Forall (λ q, moderate (Fin q)) (lb p) ∧ Forall (λ q, moderate (Fin q)) (ub p).

(** Sizes within the largest that the constructor admits, and a current
    epoch that is far from the largest binary64 value. *)
Definition in_range {G} (self : Optimizer G) (current_epoch : Z) : Prop :=
  epoch self <= 100000 ∧ pop_size self <= 100000 ∧ Z.abs current_epoch <= 2 ^ 1000.

End Binary64.

(** The arithmetic of the machine, through the primitive floats of Rocq's
    kernel: a yardstick for [Binary64].  The three rows below are lines of
    the source written out, on one dimension, in machine floats. *)
Module Machine.
Import PrimFloat.

(** The value of a machine float. *)
Definition value (x : float) : num :=
  match FloatOps.Prim2SF x with
  | SpecFloat.S754_zero _ => Fin 0
  | SpecFloat.S754_infinity false => PInf
  | SpecFloat.S754_infinity true => NInf
  | SpecFloat.S754_nan => NaN
  | SpecFloat.S754_finite s m e =>
      Fin (Qred (inject_Z (if s then Z.neg m else Z.pos m) * Binary64.pow2 e))
  end.

(** Lines 163-187 with bounds [-10] and [10], a solution of [1],
    [self.epoch = 10], the current epoch 2, both recentring draws at least
    0.5, and the raw walk [1, 2, 3, 4, 3]. *)
Definition DevALO_row : list float :=
  let I := (1 + 100 * (2 / 10))%float in
  let lb := (- (-10 / I) + 1)%float in
  let ub := (- (10 / I) + 1)%float in
  let temp1 := ((ub - lb) / (4 - 1))%float in
  (λ x, ((x - 1) * temp1 + lb)%float) <$> [1; 2; 3; 4; 3]%float.

(** Lines 56-91 with the same bounds and solution, [self.epoch = 5], the
    current epoch 1, both recentring draws at least 0.5, and the raw walk
    [1, 0, 1, 2, 1]. *)
Definition OriginalALO_row : list float :=
  let I := (1 + 100 * (1 / 5))%float in
  let c := (- (-10 / I) + 1)%float in
  let d := (- (10 / I) + 1)%float in
  (λ x, (((x - 0) * (d - c)) / (2 - 0) + c)%float) <$> [1; 0; 1; 2; 1]%float.

(** Lines 163-187 with bounds [-2^1023] and [2^1023], a solution of [1],
    [I = 1], both recentring draws below 0.5, and the raw walk
    [1, 2, 3, 4, 3]. *)
Definition wide_row : list float :=
  let lb := (-0x1p1023 / 1 + 1)%float in
  let ub := (0x1p1023 / 1 + 1)%float in
  let temp1 := ((ub - lb) / (4 - 1))%float in
  (λ x, ((x - 1) * temp1 + lb)%float) <$> [1; 2; 3; 4; 3]%float.

End Machine.

(* ===================================================================== *)
(** ** A concrete problem *)
(* ===================================================================== *)

Module Demo.

(** One variable in [[-10, 10]], to be minimised. *)
Definition box : Problem := {| lb := [-10]%Q; ub := [10]%Q; minmax := Min |}.

(** The objective of the docstrings: [np.sum(solution**2)]. *)
Definition sum_of_squares (pos : list num) : Target :=
  {| fitness := foldr fadd (Fin 0) ((λ x, fmul x x) <$> pos) |}.

(** A bounds corrector that meets the contract of section 6: a finite
    value is clipped, an infinity goes to the bound on its side and
    not-a-number to the lower bound. *)
Definition clip1 (x : num) (lu : Q * Q) : num :=
  match x with
  | Fin q => Fin (Qmax lu.1 (Qmin lu.2 q))
  | PInf => Fin (Qmax lu.1 lu.2)
  | NInf | NaN => Fin (Qmax lu.1 (Qmin lu.2 lu.1))
  end.

Definition clip (p : Problem) (pos : list num) : list num :=
  zip_with clip1 pos (zip (lb p) (ub p)).

(** A generator that replays a script of draws, then repeats its last
    entry; its state is the script that is left. *)
Definition script_random (g : list Q) : Q * list Q :=
  match g with
  | [] => (0%Q, [])
  | [r] => (r, [r])
  | r :: g' => (r, g')
  end.

(** The first index whose cumulative weight exceeds [r]. *)
Fixpoint first_exceeding (acc : Q) (r : Q) (weights : list Q) (i : Z) : Z :=
  match weights with
  | [] => i - 1
  | w :: ws => if Qltb r (acc + w) then i else first_exceeding (acc + w) r ws (i + 1)
  end.

Definition finite_part (x : num) : Q :=
  match x with Fin q => q | _ => 0%Q end.

(** A roulette wheel after section 4.1: for minimisation the weight of an
    agent is the distance of its fitness from the worst one; one draw,
    scaled to the total weight, picks the first index whose cumulative
    weight exceeds it.  When the total weight is zero the draw picks an
    index uniformly. *)
Definition wheel (d : direction) (list_fitness : list num) (g : list Q) : Z * list Q :=
  let fs := finite_part <$> list_fitness in
  let worst := foldr Qmax (hd 0%Q fs) fs in
  let least := foldr Qmin (hd 0%Q fs) fs in
  let weights := match d with
                 | Min => (λ f, worst - f)%Q <$> fs
                 | Max => (λ f, f - least)%Q <$> fs
                 end in
  let total := foldr Qplus 0%Q weights in
  let '(r, g') := script_random g in
  if Qle_bool total 0
  then (Qfloor (r * inject_Z (Z.of_nat (length fs))), g')
  else (first_exceeding 0 (r * total) weights 0, g').

(** An evaluated agent at position [q]. *)
Definition agent_at (q : Q) : Agent :=
  {| solution := [Fin q]; target := Some (sum_of_squares [Fin q]) |}.

(** Five agents at addresses 0 to 4, and the elite at address 5, an object
    of its own that equals the best agent of the population. *)
Definition objects : gmap loc Agent :=
  list_to_map (zip (seq 0 6) (agent_at <$> [1; -3 # 2; 3; 4; 5; 1]%Q)).

(** An optimizer of five agents on [box], with maximum epoch [T], ready to
    run a generation with the draws of [script]. *)
Definition optimizer (T : Z) (m : Mode) (script : list Q) : Optimizer (list Q) :=
  {| epoch := T; pop_size := 5; sort_flag := true; problem := box; mode := m;
     heap := objects; pop := seq 0 5; g_best := 5%nat; generator := script |}.

(** The same optimizer in a second run: equal agents, at other addresses,
    in a store that holds an unrelated object as well. *)
Definition relocated (T : Z) (m : Mode) (script : list Q) : Optimizer (list Q) :=
  {| epoch := T; pop_size := 5; sort_flag := true; problem := box; mode := m;
     heap := list_to_map (zip [24; 20; 9; 22; 21; 7; 3]%nat
                              (agent_at <$> [1; -3 # 2; 3; 4; 5; 1; 8]%Q));
     pop := [24; 20; 9; 22; 21]%nat; g_best := 7%nat; generator := script |}.

(** Draws that send the lower bound to [-lb + solution] and the upper bound
    to [-ub + solution], then walk up, down, up, up, down. *)
Definition inverting : list Q := [0.7; 0.8; 0.6; 0.4; 0.9; 0.8; 0.1]%Q.

(** The draws of one iteration of the loop of [DevALO.evolve]: [u] turns
    the wheel; the walk around the antlion recentres both bounds to
    [solution + 10], the walk around the elite both to [solution - 10], so
    that the raw candidate is the midpoint of the antlion and the elite. *)
Definition midpoint_draws (u : Q) : list Q :=
  [u; 0.7; 0.2; 0.6; 0.4; 0.6; 0.6; 0.4;
      0.2; 0.7; 0.6; 0.4; 0.6; 0.6; 0.4]%Q.

(** Five candidates at the midpoint of agent 2 (at 3) and the elite (at 1):
    none is better than the elite. *)
Definition quiet : list Q := mjoin (replicate 5 (midpoint_draws 0.7)).

(** Four candidates at the midpoint of agent 1 (at -3/2) and the elite, all
    better than the elite, then one at the midpoint of agent 2 and the
    elite. *)
Definition crowding : list Q :=
  mjoin (replicate 4 (midpoint_draws 0.5)) ++ midpoint_draws 0.7.

(** The first coordinates of the agents of the population, in lowest
    terms. *)
Definition positions {G} (self : Optimizer G) : list (option Q) :=
  (λ l, a ← heap self !! l; x ← solution a !! 0%nat;
        Some (Qred (finite_part x))) <$> pop self.

(** Three variables, each in [[-10, 10]], to be minimised. *)
Definition box3 : Problem :=
  {| lb := [-10; -10; -10]%Q; ub := [10; 10; 10]%Q; minmax := Min |}.

(** An optimizer on [box3] with maximum epoch [T] and population size [P],
    before any agent has been made: enough to call the walk. *)
Definition walker (T P : Z) (script : list Q) : Optimizer (list Q) :=
  {| epoch := T; pop_size := P; sort_flag := true; problem := box3; mode := Single;
     heap := ∅; pop := []; g_best := 0%nat; generator := script |}.

(** The optimizer of five agents, with the agent of slot 2 not evaluated
    yet. *)
Definition unevaluated (T : Z) (m : Mode) (script : list Q) : Optimizer (list Q) :=
  set_heap (<[2%nat := {| solution := [Fin 3]; target := None |}]> objects)
           (optimizer T m script).


(** Draws that send both bounds to the far side of the solution, then walk
    up four times and down once. *)
Definition climbing : list Q := [0.7; 0.8; 0.6; 0.6; 0.6; 0.6; 0.4]%Q.

(** Draws that leave both bounds on their side of the solution, then walk
    up four times and down once. *)
Definition keeping : list Q := [0.2; 0.2; 0.6; 0.6; 0.6; 0.6; 0.4]%Q.

(** One variable in [[-2^1023, 2^1023]]: both bounds are binary64 values,
    their difference is not. *)
Definition wide : Problem :=
  {| lb := [- (2 ^ 1023)]%Q; ub := [2 ^ 1023]%Q; minmax := Min |}.

(** An optimizer on [wide], enough to call the walk. *)
Definition wide_walker (T P : Z) (script : list Q) : Optimizer (list Q) :=
  {| epoch := T; pop_size := P; sort_flag := true; problem := wide; mode := Single;
     heap := ∅; pop := []; g_best := 0%nat; generator := script |}.

(** One variable in [[-10, 10]], to be maximised. *)
Definition box_max : Problem := {| lb := [-10]%Q; ub := [10]%Q; minmax := Max |}.

(** The five agents at addresses 0 to 4 again, and at address 5 an elite
    that equals the best of them for maximisation. *)
Definition objects_max : gmap loc Agent :=
  list_to_map (zip (seq 0 6) (agent_at <$> [1; -3 # 2; 3; 4; 5; 5]%Q)).

(** An optimizer of five agents on [box_max]. *)
Definition maximizer (T : Z) (m : Mode) (script : list Q) : Optimizer (list Q) :=
  {| epoch := T; pop_size := 5; sort_flag := true; problem := box_max; mode := m;
     heap := objects_max; pop := seq 0 5; g_best := 5%nat; generator := script |}.

End Demo.

(* ===================================================================== *)
(** * Properties *)
(* ===================================================================== *)

(** ** The state monad *)

Section ST_lemmas.
Context {S : Type}.

Lemma ST_bind_Some {A B} (m : ST S A) (f : A → ST S B) s b s'' :
  (m ≫= f) s = Some (b, s'') ↔
  ∃ a s', m s = Some (a, s') ∧ f a s' = Some (b, s'').
Proof.
  unfold mbind, ST_bind. destruct (m s) as [[a s']|]; split.
  - intros Hf. by exists a, s'.
  - by intros (? & ? & [= -> ->] & ?).
  - done.
  - by intros (? & ? & ? & ?).
Qed.

Lemma ST_bind_eq {A B} (m : ST S A) (f : A → ST S B) s a s' :
  m s = Some (a, s') → (m ≫= f) s = f a s'.
Proof. intros H. unfold mbind, ST_bind. by rewrite H. Qed.

Lemma ST_bind_try {A B} (o : option A) (f : A → ST S B) s a :
  o = Some a → (try o ≫= f) s = f a s.
Proof. intros ->. done. Qed.

Lemma ST_bind_require {B} (P : Prop) `{Decision P} (f : unit → ST S B) s :
  P → (require P ≫= f) s = f tt s.
Proof. intros HP. unfold require. by rewrite decide_True. Qed.

Lemma ST_ret_Some {A} (a b : A) (s s' : S) :
  mret (M := ST S) a s = Some (b, s') ↔ a = b ∧ s = s'.
Proof. unfold mret, ST_ret. split; [by intros [= -> ->] | by intros [-> ->]]. Qed.

Lemma try_Some {A} (o : option A) (a : A) (s s' : S) :
  try o s = Some (a, s') ↔ o = Some a ∧ s = s'.
Proof.
  unfold try. destruct o; split; try done.
  - by intros [= -> ->].
  - by intros [[= ->] ->].
  - by intros [? _].
Qed.

Lemma get_Some (s s1 s' : S) : get s = Some (s1, s') ↔ s1 = s ∧ s' = s.
Proof. unfold get. split; [by intros [= -> ->] | by intros [-> ->]]. Qed.

Lemma modify_Some (f : S → S) (s s' : S) u : modify f s = Some (u, s') ↔ s' = f s.
Proof. unfold modify. destruct u. split; [by intros [= <-] | by intros ->]. Qed.

Lemma require_Some (P : Prop) `{Decision P} (s s' : S) u :
  require P s = Some (u, s') ↔ P ∧ s' = s.
Proof.
  unfold require. rewrite try_Some. destruct u. case_decide; split; try done.
  - by intros [_ ->].
  - by intros [_ ->].
  - by intros [? _].
  - by intros [? _].
Qed.

End ST_lemmas.

(** Take apart a successful run of a monadic program, statement by
    statement. *)
Ltac st_step :=
  match goal with
  | H : (_ ≫= _) _ = Some _ |- _ =>
      apply ST_bind_Some in H; destruct H as (? & ? & ? & H)
  | H : mret _ _ = Some _ |- _ => apply ST_ret_Some in H; destruct H as [? ?]
  | H : try _ _ = Some _ |- _ => apply try_Some in H; destruct H as [? ?]
  | H : get _ = Some _ |- _ => apply get_Some in H; destruct H as [? ?]
  | H : modify _ _ = Some _ |- _ => apply modify_Some in H
  | H : require _ _ = Some _ |- _ => apply require_Some in H; destruct H as [? ?]
  end.

(** ** The shrink ratio *)










(** ** Raw walks *)

Lemma cumsum_from_length (acc : Z) (xs : list Z) :
  length (cumsum_from acc xs) = length xs.
Proof. revert acc. induction xs as [|x xs IH]; intros acc; simpl; [done|by rewrite IH]. Qed.

Lemma foldr_min_spec (x : Z) (xs : list Z) :
  foldr Z.min x xs ∈ x :: xs ∧ Forall (λ y, foldr Z.min x xs <= y) (x :: xs).
Proof.
  induction xs as [|y xs [IHin IHle]]; simpl.
  - split; [left | repeat constructor; lia].
  - apply Forall_cons in IHle as [Hx Hxs]. split.
    + destruct (Z.min_spec y (foldr Z.min x xs)) as [[_ ->]|[_ ->]].
      * right; left.
      * apply elem_of_cons in IHin as [->|Hin]; [left | right; by right].
    + constructor; [lia|]. constructor; [lia|].
      eapply Forall_impl; [exact Hxs|]. simpl. intros z Hz. lia.
Qed.

Lemma foldr_max_spec (x : Z) (xs : list Z) :
  foldr Z.max x xs ∈ x :: xs ∧ Forall (λ y, y <= foldr Z.max x xs) (x :: xs).
Proof.
  induction xs as [|y xs [IHin IHle]]; simpl.
  - split; [left | repeat constructor; lia].
  - apply Forall_cons in IHle as [Hx Hxs]. split.
    + destruct (Z.max_spec y (foldr Z.max x xs)) as [[_ ->]|[_ ->]].
      * apply elem_of_cons in IHin as [->|Hin]; [left | right; by right].
      * right; left.
    + constructor; [lia|]. constructor; [lia|].
      eapply Forall_impl; [exact Hxs|]. simpl. intros z Hz. lia.
Qed.

Lemma np_min_spec (xs : list Z) (a : Z) :
  np_min xs = Some a → a ∈ xs ∧ Forall (λ x, a <= x) xs.
Proof. destruct xs as [|x xs]; [done|]. intros [= <-]. apply foldr_min_spec. Qed.

Lemma np_max_spec (xs : list Z) (b : Z) :
  np_max xs = Some b → b ∈ xs ∧ Forall (λ x, x <= b) xs.
Proof. destruct xs as [|x xs]; [done|]. intros [= <-]. apply foldr_max_spec. Qed.

Lemma np_min_is_Some (xs : list Z) : xs ≠ [] → is_Some (np_min xs).
Proof. destruct xs; [done|]. by eexists. Qed.

Lemma np_max_is_Some (xs : list Z) : xs ≠ [] → is_Some (np_max xs).
Proof. destruct xs; [done|]. by eexists. Qed.

Lemma step_cases (r : Q) : step r = 1 ∨ step r = -1.
Proof. unfold step. destruct (Qgtb r 0.5); [by left | by right]. Qed.

(** A walk of at least two steps takes at least two values. *)
Lemma walk_range (rs : list Q) (a b : Z) :
  (2 ≤ length rs)%nat →
  np_min (cumsum (step <$> rs)) = Some a →
  np_max (cumsum (step <$> rs)) = Some b →
  a < b.
Proof.
  intros Hlen Ha Hb.
  apply np_min_spec in Ha as [_ Ha]. apply np_max_spec in Hb as [_ Hb].
  destruct rs as [|r1 [|r2 rs]]; simpl in Hlen; try lia.
  unfold cumsum in *. simpl in *.
  apply Forall_cons in Ha as [Ha1 Ha]. apply Forall_cons in Ha as [Ha2 _].
  apply Forall_cons in Hb as [Hb1 Hb]. apply Forall_cons in Hb as [Hb2 _].
  destruct (step_cases r2) as [E|E]; rewrite E in *; lia.
Qed.

(** A walk of one step takes one value. *)
Lemma walk_single (r : Q) (a b : Z) :
  np_min (cumsum (step <$> [r])) = Some a →
  np_max (cumsum (step <$> [r])) = Some b →
  a = b.
Proof. unfold cumsum. simpl. congruence. Qed.

(** ** What the walks do to [self] *)

Section Walk_props.
Context {G : Type} (gen_random : G → Q * G).

Lemma only_generator_trans (s1 s2 s3 : Optimizer G) :
  only_generator s1 s2 → only_generator s2 s3 → only_generator s1 s3.
Proof. intros [g ->] [g' ->]. by exists g'. Qed.

Lemma random_total (self : Optimizer G) :
  ∃ r g, random gen_random self = Some (r, set_generator g self).
Proof. unfold random. destruct (gen_random (generator self)) as [r g]. by exists r, g. Qed.

Lemma random_frame (self self' : Optimizer G) (r : Q) :
  random gen_random self = Some (r, self') → only_generator self self'.
Proof.
  destruct (random_total self) as (r' & g & E). rewrite E. intros [= _ <-]. by exists g.
Qed.

Lemma random_n_total (n : nat) (self : Optimizer G) :
  ∃ rs g, random_n gen_random n self = Some (rs, set_generator g self) ∧ length rs = n.
Proof.
  revert self. induction n as [|n IH]; intros self; simpl.
  - exists [], (generator self). split; [|done]. by destruct self.
  - destruct (random_total self) as (r & g & E).
    destruct (IH (set_generator g self)) as (rs & g' & E' & Hlen).
    exists (r :: rs), g'. split; [|simpl; by rewrite Hlen].
    unfold mbind, ST_bind. rewrite E, E'. done.
Qed.

Lemma raw_walk_total (n : Z) (self : Optimizer G) :
  0 <= n →
  ∃ rs g, raw_walk gen_random n self = Some (cumsum (step <$> rs), set_generator g self) ∧
          length rs = Z.to_nat n.
Proof.
  intros Hn. destruct (random_n_total (Z.to_nat n) self) as (rs & g & E & Hlen).
  exists rs, g. split; [|done].
  unfold raw_walk, random_array, require, try, mbind, ST_bind.
  rewrite decide_True by done. rewrite E. done.
Qed.

Lemma raw_walk_Some (n : Z) (self self' : Optimizer G) (X : list Z) :
  raw_walk gen_random n self = Some (X, self') →
  0 <= n ∧ only_generator self self' ∧
  ∃ rs, X = cumsum (step <$> rs) ∧ length rs = Z.to_nat n.
Proof.
  intros H. destruct (decide (0 <= n)) as [Hn|Hn].
  - destruct (raw_walk_total n self Hn) as (rs & g & E & Hlen).
    rewrite E in H. injection H as <- <-. split; [done|]. split; [by exists g|by exists rs].
  - unfold raw_walk, random_array, require, try, mbind, ST_bind in H.
    rewrite decide_False in H by done. done.
Qed.

End Walk_props.

(** ** Loops *)

Section for_each_props.
Context {S A B : Type}.
Implicit Types (xs pre : list A) (body : A → B → ST S B).

(** A loop invariant [I pre acc s]: [pre] is what the loop has gone
    through.  If every iteration keeps it, a loop that finishes has it. *)
Lemma for_each_inv (I : list A → B → S → Prop) xs body :
  (∀ pre x acc s acc' s',
     I pre acc s → body x acc s = Some (acc', s') → I (pre ++ [x]) acc' s') →
  ∀ pre acc s res s',
    I pre acc s → for_each xs body acc s = Some (res, s') → I (pre ++ xs) res s'.
Proof.
  intros Hbody. induction xs as [|x xs IH]; intros pre acc s res s' HI Hrun; simpl in Hrun.
  - apply ST_ret_Some in Hrun as [<- <-]. by rewrite app_nil_r.
  - apply ST_bind_Some in Hrun as (acc1 & s1 & H1 & Hrest).
    replace (pre ++ x :: xs) with ((pre ++ [x]) ++ xs) by by rewrite <- app_assoc.
    eapply IH; [|exact Hrest]. eapply Hbody; [exact HI|exact H1].
Qed.

(** If moreover every iteration finishes, so does the loop. *)
Lemma for_each_total (I : list A → B → S → Prop) xs body :
  (∀ pre x acc s,
     I pre acc s → x ∈ xs →
     ∃ acc' s', body x acc s = Some (acc', s') ∧ I (pre ++ [x]) acc' s') →
  ∀ pre acc s,
    I pre acc s →
    ∃ res s', for_each xs body acc s = Some (res, s') ∧ I (pre ++ xs) res s'.
Proof.
  induction xs as [|x xs IH]; intros Hbody pre acc s HI; simpl.
  - exists acc, s. by rewrite app_nil_r.
  - destruct (Hbody pre x acc s HI) as (acc1 & s1 & H1 & HI1); [left|].
    destruct (IH (λ pre x acc s HI Hin, Hbody pre x acc s HI (list_elem_of_further _ _ _ Hin))
                 (pre ++ [x]) acc1 s1 HI1) as (res & s' & Hrest & HI').
    exists res, s'. split.
    + unfold mbind, ST_bind. by rewrite H1.
    + by rewrite <- app_assoc in HI'.
Qed.

End for_each_props.

Lemma range_length (n : Z) : length (range n) = Z.to_nat n.
Proof. unfold range. by rewrite length_fmap, length_seq. Qed.

Lemma elem_of_range (n k : Z) : k ∈ range n ↔ 0 <= k < n.
Proof.
  unfold range. rewrite list_elem_of_fmap. split.
  - intros (i & -> & Hi). apply elem_of_seq in Hi. lia.
  - intros Hk. exists (Z.to_nat k). split; [lia|]. apply elem_of_seq. lia.
Qed.

Lemma np_index_nat (n i : nat) : (i < n)%nat → np_index n (Z.of_nat i) = Some i.
Proof.
  intros Hi. unfold np_index. rewrite decide_True by lia. by rewrite Nat2Z.id.
Qed.

Lemma py_getitem_nat {A} (xs : list A) (i : nat) :
  (i < length xs)%nat → py_getitem xs (Z.of_nat i) = xs !! i.
Proof. intros Hi. unfold py_getitem. by rewrite np_index_nat. Qed.

(** ** The recentred bounds *)

Lemma Qsign_pos (q : Q) : (0 < q)%Q → Qsign q = Gt.
Proof.
  unfold Qsign, Qlt. destruct q as [n d]. simpl. intros H.
  apply Z.compare_gt_iff. lia.
Qed.

Lemma fdiv_Fin_pos (p q : Q) : (0 < q)%Q → fdiv (Fin p) (Fin q) = Fin (p / q).
Proof. intros Hq. unfold fdiv. by rewrite Qsign_pos. Qed.

Lemma broadcast2_same (f : num → num → num) (xs ys : list num) :
  length xs = length ys → broadcast2 f xs ys = Some (zip_with f xs ys).
Proof. intros H. unfold broadcast2. by rewrite decide_True. Qed.



Section Bounds_props.
Context {G : Type} (gen_random : G → Q * G).


End Bounds_props.

(** ** The walk matrices *)

Lemma cumsum_length (xs : list Z) : length (cumsum xs) = length xs.
Proof. apply cumsum_from_length. Qed.

Lemma cumsum_nonempty (rs : list Q) :
  (1 ≤ length rs)%nat → cumsum (step <$> rs) ≠ [].
Proof.
  intros Hlen Hnil. apply (f_equal length) in Hnil.
  rewrite cumsum_length, length_fmap in Hnil. simpl in Hnil. lia.
Qed.

Section Walk_total.
Context {G : Type} (gen_random : G → Q * G).



End Walk_total.

(** ** Equation (2.7) *)

Lemma inject_Z_pos (z : Z) : 0 < z → (0 < inject_Z z)%Q.
Proof. intros H. change 0%Q with (inject_Z 0). by rewrite <- Zlt_Qlt. Qed.

Lemma inject_Z_nonneg (z : Z) : 0 <= z → (0 <= inject_Z z)%Q.
Proof. intros H. change 0%Q with (inject_Z 0). by rewrite <- Zle_Qle. Qed.

(** With a zero range, both classes divide zero by zero or multiply zero by
    an infinity, whatever the target interval is. *)
Lemma normalize_zero_range (v : variant) (a : Z) (c d : num) :
  normalize v a a c d a = NaN.
Proof.
  destruct v; unfold normalize, normalize_original, normalize_dev; rewrite Z.sub_diag.
  - destruct c as [c| | |], d as [d| | |]; reflexivity.
  - destruct c as [c| | |], d as [d| | |]; try reflexivity.
    simpl. unfold signed_inf. destruct (Qsign (d + - c)); reflexivity.
Qed.

(** ** The walk of either class *)

Section Walk_theorems.
Context {G : Type} (gen_random : G → Q * G).


Lemma walk_row_length (v : variant) (h : Z) (lbs ubs : list num) (k : nat) (row : list num) :
  walk_row v h lbs ubs k row → length row = Z.to_nat h.
Proof.
  intros (rs & a & b & c & d & Hrs & _ & _ & _ & _ & ->).
  by rewrite length_fmap, cumsum_length, length_fmap.
Qed.


End Walk_theorems.

Lemma walk_extremes (rs : list Q) (h : Z) (a b : Z) :
  1 <= h → length rs = Z.to_nat h →
  np_min (cumsum (step <$> rs)) = Some a →
  np_max (cumsum (step <$> rs)) = Some b →
  Forall (λ x, a <= x <= b) (cumsum (step <$> rs)) ∧
  (h = 1 → a = b) ∧ (2 <= h → a < b).
Proof.
  intros Hh Hrs Ha Hb. split; [|split].
  - apply np_min_spec in Ha as [_ Ha]. apply np_max_spec in Hb as [_ Hb].
    apply Forall_and. done.
  - intros ->. destruct rs as [|r [|r' rs]]; simpl in Hrs; try lia.
    by eapply walk_single.
  - intros Hh2. eapply walk_range; [|done|done]. lia.
Qed.

Lemma walk_row_zero_range (v : variant) (a : Z) (c d : num) (X : list Z) :
  Forall (λ x, a <= x <= a) X →
  Forall (λ x, x = NaN) (normalize v a a c d <$> X).
Proof.
  intros HX. apply Forall_fmap. eapply Forall_impl; [exact HX|].
  intros x Hx. simpl in Hx. unfold compose.
  replace x with a by lia. apply normalize_zero_range.
Qed.

(** ** The walks on the concrete problem *)



(** ** What a walk that returns has done *)

Section Walk_partial.
Context {G : Type} (gen_random : G → Q * G).

Lemma recentred_bounds_frame (solution : list num) (t : Z) (self self' : Optimizer G)
    (lbs ubs : list num) :
  recentred_bounds gen_random solution t self = Some ((lbs, ubs), self') →
  only_generator self self'.
Proof.
  unfold recentred_bounds. intros H. repeat st_step. subst.
  repeat match goal with
         | H : random _ _ = Some _ |- _ => apply random_frame in H
         end.
  eauto using only_generator_trans.
Qed.

Lemma OriginalALO_walk_partial (solution : list num) (t : Z) (self self' : Optimizer G)
    (M : matrix) :
  OriginalALO_random_walk_antlion__ gen_random solution t self = Some (M, self') →
  only_generator self self' ∧ length M = n_dims (problem self).
Proof.
  unfold OriginalALO_random_walk_antlion__. intros H.
  apply ST_bind_Some in H as ([lbs ubs] & s1 & Hb & H).
  apply recentred_bounds_frame in Hb.
  apply ST_bind_Some in H as (s1' & s1'' & Hget & H).
  apply get_Some in Hget as [-> ->].
  assert (Hp : problem s1 = problem self) by (by destruct Hb as [g ->]).
  rewrite Hp in H.
  apply (for_each_inv (λ (pre : list Z) (acc : matrix) s,
           only_generator self s ∧ length acc = length pre) _ _) with (pre := [])
    in H.
  - destruct H as [Hf Hlen]. split; [done|].
    rewrite Hlen. simpl. by rewrite range_length, Nat2Z.id.
  - intros pre k acc s acc' s' [Hf Hlen] Hbody.
    repeat st_step. subst.
    match goal with Hw : raw_walk _ _ _ = Some _ |- _ =>
      apply raw_walk_Some in Hw as (_ & Hw & _) end.
    split; [eauto using only_generator_trans|].
    rewrite !length_app. simpl. lia.
  - done.
Qed.

Lemma DevALO_walk_partial (solution : list num) (t : Z) (self self' : Optimizer G)
    (M : matrix) :
  DevALO_random_walk_antlion__ gen_random solution t self = Some (M, self') →
  only_generator self self' ∧ length M = n_dims (problem self).
Proof.
  unfold DevALO_random_walk_antlion__. intros H.
  apply ST_bind_Some in H as ([lbs ubs] & s1 & Hb & H).
  apply recentred_bounds_frame in Hb.
  apply ST_bind_Some in H as (s1' & s1'' & Hget & H).
  apply get_Some in Hget as [-> ->].
  assert (Hp : problem s1 = problem self) by (by destruct Hb as [g ->]).
  rewrite Hp in H. cbv zeta in H.
  apply ST_bind_Some in H as (X & s2 & Hloop & H).
  apply (for_each_inv (λ (pre : list Z) (acc : list (list Z)) s,
           only_generator self s ∧ length acc = length pre) _ _) with (pre := [])
    in Hloop.
  - destruct Hloop as [Hf HlenX]. simpl in HlenX.
    rewrite range_length, Nat2Z.id in HlenX.
    repeat st_step. subst. split; [done|].
    match goal with Ha : mapM np_min _ = Some _ |- _ =>
      apply mapM_Some_1, Forall2_length in Ha end.
    rewrite length_zip_with, !length_zip_with. lia.
  - intros pre k acc s acc' s' [Hf Hlen] Hbody.
    repeat st_step. subst.
    match goal with Hw : raw_walk _ _ _ = Some _ |- _ =>
      apply raw_walk_Some in Hw as (_ & Hw & _) end.
    split; [eauto using only_generator_trans|].
    rewrite !length_app. simpl. lia.
  - done.
Qed.

Lemma walk_partial (v : variant) (solution : list num) (t : Z) (self self' : Optimizer G)
    (M : matrix) :
  random_walk_antlion__ gen_random v solution t self = Some (M, self') →
  only_generator self self' ∧ length M = n_dims (problem self).
Proof.
  destruct v; [apply OriginalALO_walk_partial | apply DevALO_walk_partial].
Qed.

End Walk_partial.

(** ** [evolve] and its loop body *)

Lemma ST_bind_assoc {S A B C} (m : ST S A) (f : A → ST S B) (g : B → ST S C) (s : S) :
  (m ≫= λ a, f a ≫= g) s = ((m ≫= f) ≫= g) s.
Proof. unfold mbind, ST_bind. by destruct (m s) as [[a s']|]. Qed.

Lemma ST_bind_ext {S A B} (m : ST S A) (f g : A → ST S B) (s : S) :
  (∀ a s', f a s' = g a s') → (m ≫= f) s = (m ≫= g) s.
Proof. intros H. unfold mbind, ST_bind. destruct (m s) as [[a s']|]; [apply H|done]. Qed.

Lemma for_each_ext {S A B} (xs : list A) (b1 b2 : A → B → ST S B) (acc : B) (s : S) :
  (∀ x acc s, b1 x acc s = b2 x acc s) →
  for_each xs b1 acc s = for_each xs b2 acc s.
Proof.
  intros H. revert acc s. induction xs as [|x xs IH]; intros acc s; simpl; [done|].
  unfold mbind, ST_bind. rewrite H. destruct (b2 x acc s) as [[acc' s']|]; [apply IH|done].
Qed.

Section Evolve_unfold.
Context {G : Type}.
Context (gen_random : G → Q * G) (roulette : direction → list num → G → Z * G).
Context (correct_solution : Problem → list num → list num).
Context (get_target : list num → Target).

(** Both classes run the same loop; they differ in the walk and in the
    column, as [new_agent] and [raw_candidate] have it. *)
Lemma evolve_unfold (v : variant) (epoch : Z) (self : Optimizer G) :
  evolve gen_random roulette correct_solution get_target v epoch self
  = evolve_loop gen_random roulette correct_solution get_target v epoch self.
Proof.
  destruct v; unfold evolve, OriginalALO_evolve, DevALO_evolve, evolve_loop.
  all: apply ST_bind_ext; intros self0 s0.
  all: apply ST_bind_ext; intros fits s1.
  all: unfold mbind at 1 3, ST_bind at 1 3.
  all: erewrite for_each_ext; [reflexivity|].
  all: intros idx acc s; unfold new_agent, new_position.
  all: do 6 (rewrite <- ST_bind_assoc; apply ST_bind_ext; intros ? ?).
  all: rewrite <- ST_bind_assoc.
  all: unfold raw_candidate, walk_column.
  all: match goal with
       | |- context [column ?RA ?j] => destruct (column RA j) as [ra|]; [|done]
       end.
  all: match goal with
       | |- context [column ?RE ?j] => destruct (column RE j) as [re|]; [|done]
       end.
  all: cbv beta iota delta [try mbind ST_bind option_bind fmap option_fmap option_map
                             mret ST_ret].
  all: destruct (broadcast2 fadd ra re) as [total|]; done.
Qed.

End Evolve_unfold.

(** ** Columns and candidates *)

Lemma column_Some (M : matrix) (j : Z) (col : list num) :
  column M j = Some col →
  M ≠ [] ∧
  Forall2 (λ row x, ∃ i, np_index (length row) j = Some i ∧ row !! i = Some x) M col.
Proof.
  unfold column. destruct M as [|row M]; [done|]. intros H. split; [done|].
  apply mapM_Some_1 in H. eapply Forall2_impl; [exact H|].
  intros r x Hr. simpl in Hr.
  destruct (np_index (length r) j) as [i|]; [|done]. by exists i.
Qed.

Lemma column_length (M : matrix) (j : Z) (col : list num) :
  column M j = Some col → length col = length M.
Proof. intros H. apply column_Some in H as [_ H]. by apply Forall2_length in H. Qed.

Lemma raw_candidate_Some (v : variant) (epoch idx : Z) (RA RE : matrix) (temp : list num) :
  raw_candidate v epoch idx RA RE = Some temp →
  ∃ ra re total,
    column RA (walk_column v epoch idx) = Some ra ∧
    column RE (walk_column v epoch idx) = Some re ∧
    broadcast2 fadd ra re = Some total ∧
    temp = (λ x, fdiv x (Fin 2)) <$> total.
Proof.
  unfold raw_candidate. intros H.
  destruct (column RA _) as [ra|]; simpl in H; [|done].
  destruct (column RE _) as [re|]; simpl in H; [|done].
  destruct (broadcast2 fadd ra re) as [total|] eqn:Et; simpl in H; [|done].
  injection H as <-. by exists ra, re, total.
Qed.

Lemma raw_candidate_length (v : variant) (epoch idx : Z) (RA RE : matrix) (temp : list num) :
  raw_candidate v epoch idx RA RE = Some temp →
  length RA = length RE → length temp = length RA.
Proof.
  intros H Hlen. apply raw_candidate_Some in H as (ra & re & total & Ha & He & Ht & ->).
  apply column_length in Ha, He.
  rewrite broadcast2_same in Ht by congruence. injection Ht as <-.
  rewrite length_fmap, length_zip_with. lia.
Qed.

Section Candidates.
Context {G : Type}.
Context (gen_random : G → Q * G) (roulette : direction → list num → G → Z * G).
Context (correct_solution : Problem → list num → list num).
Context (get_target : list num → Target).


End Candidates.


(** ** Construction *)

(** C9.  Constructing an optimizer of either class with an epoch outside
    [[1, 100000]] or a population size outside [[5, 10000]] raises: no
    object comes out of the constructor, so no generation can run on it.
    With both values in range the constructor returns, and the object has
    the epoch and the population size as given. *)
Theorem init_validates {G : Type} (v : variant) (e p : Z) (base : Optimizer G) :
  (1 <= e <= 100000 ∧ 5 <= p <= 10000 →
   ∃ self, ALO__init__ v e p base = Some (tt, self) ∧
           epoch self = e ∧ pop_size self = p ∧
           self = set_sort_flag true (set_pop_size p (set_epoch e base))) ∧
  (¬ (1 <= e <= 100000 ∧ 5 <= p <= 10000) → ALO__init__ v e p base = None).
Proof.
  assert (Hinit : ALO__init__ v e p base = OriginalALO__init__ e p base) by by destruct v.
  rewrite Hinit. unfold OriginalALO__init__, check_int, mbind, ST_bind, try, modify.
  split.
  - intros [He Hp]. rewrite !decide_True by done.
    eexists. split; [reflexivity|]. done.
  - intros Hn. destruct (decide (1 <= e <= 100000)) as [He|He]; [|done].
    rewrite decide_False; [done|]. intros Hp. by apply Hn.
Qed.

Lemma init_validates_witness :
  (1 <= 1000 <= 100000 ∧ 5 <= 50 <= 10000) ∧
  (∃ self, ALO__init__ DevALO 1000 50 (Demo.optimizer 0 Single []) = Some (tt, self) ∧
           epoch self = 1000 ∧ pop_size self = 50 ∧
           self = set_sort_flag true (set_pop_size 50 (set_epoch 1000
                    (Demo.optimizer 0 Single [])))) ∧
  ¬ (1 <= 0 <= 100000 ∧ 5 <= 50 <= 10000) ∧
  ALO__init__ OriginalALO 0 50 (Demo.optimizer 0 Single []) = None ∧
  ¬ (1 <= 1000 <= 100000 ∧ 5 <= 4 <= 10000) ∧
  ALO__init__ DevALO 1000 4 (Demo.optimizer 0 Single []) = None.
Proof.
  split; [lia|].
  split; [apply (init_validates DevALO 1000 50 (Demo.optimizer 0 Single [])); lia|].
  split; [lia|].
  split; [apply (init_validates OriginalALO 0 50 (Demo.optimizer 0 Single [])); lia|].
  split; [lia|].
  apply (init_validates DevALO 1000 4 (Demo.optimizer 0 Single [])); lia.
Defined.

(** ** The object store *)

Section Store_props.
Context {G : Type}.
Implicit Types (self s : Optimizer G).

Lemma touched_refl s : touched s s.
Proof. exists (heap s), (generator s). by destruct s. Qed.

Lemma touched_fields s s' :
  touched s s' →
  epoch s' = epoch s ∧ pop_size s' = pop_size s ∧ sort_flag s' = sort_flag s ∧
  problem s' = problem s ∧ mode s' = mode s ∧ pop s' = pop s ∧ g_best s' = g_best s.
Proof. by intros (h & g & ->). Qed.

Lemma touched_trans s1 s2 s3 : touched s1 s2 → touched s2 s3 → touched s1 s3.
Proof. intros (h & g & ->) (h' & g' & ->). by exists h', g'. Qed.

Lemma deref_Some (l : loc) s a s' :
  deref l s = Some (a, s') ↔ heap s !! l = Some a ∧ s' = s.
Proof.
  unfold deref, mbind, ST_bind, get, try.
  destruct (heap s !! l); split; try done.
  - by intros [= -> ->].
  - by intros [[= ->] ->].
  - by intros [? _].
Qed.

Lemma alloc_Some (a : Agent) s l s' :
  alloc a s = Some (l, s') ↔
  l = fresh (dom (heap s)) ∧ s' = set_heap (<[l := a]> (heap s)) s.
Proof.
  unfold alloc. split.
  - by intros [= <- <-].
  - by intros [-> ->].
Qed.

Lemma fresh_None s : heap s !! fresh (dom (heap s)) = None.
Proof. apply not_elem_of_dom, is_fresh. Qed.

Lemma store_Some (l : loc) (a : Agent) s u s' :
  store l a s = Some (u, s') ↔
  is_Some (heap s !! l) ∧ s' = set_heap (<[l := a]> (heap s)) s.
Proof.
  unfold store. destruct u. destruct (heap s !! l) as [a0|]; split.
  - intros [= <-]. split; [by eexists|done].
  - by intros [_ ->].
  - done.
  - by intros [[? ?] _].
Qed.

Lemma fitness_of_Some (l : loc) s f s' :
  fitness_of l s = Some (f, s') ↔
  (∃ a t, heap s !! l = Some a ∧ target a = Some t ∧ f = fitness t) ∧ s' = s.
Proof.
  unfold fitness_of. split.
  - intros H. repeat st_step.
    match goal with Hd : deref _ _ = Some _ |- _ => apply deref_Some in Hd as [Hd ->] end.
    subst. split; [|done]. eauto.
  - intros [(a & t & Ha & Ht & ->) ->].
    erewrite ST_bind_eq; [|by apply deref_Some].
    by rewrite (ST_bind_try _ _ _ _ Ht).
Qed.

(** Reading the fitness of a list of agents leaves [self] as it is. *)
Lemma mapM_fitness_of_Some (ls : list loc) s fits s' :
  mapM fitness_of ls s = Some (fits, s') →
  s' = s ∧
  Forall2 (λ l f, ∃ a t, heap s !! l = Some a ∧ target a = Some t ∧ f = fitness t) ls fits.
Proof.
  revert fits s'. induction ls as [|l ls IH]; intros fits s' H; simpl in H.
  - apply ST_ret_Some in H as [<- <-]. split; [done|constructor].
  - apply ST_bind_Some in H as (f & s1 & Hf & H).
    apply fitness_of_Some in Hf as [Hf ->].
    apply ST_bind_Some in H as (fs & s2 & Hfs & H).
    apply IH in Hfs as [-> Hfs].
    apply ST_ret_Some in H as [<- <-]. split; [done|]. by constructor.
Qed.

Lemma mapM_fitness_of_total (ls : list loc) s fits :
  Forall2 (λ l f, ∃ a t, heap s !! l = Some a ∧ target a = Some t ∧ f = fitness t) ls fits →
  mapM fitness_of ls s = Some (fits, s).
Proof.
  induction 1 as [|l f ls fits Hl _ IH]; simpl; [done|].
  erewrite ST_bind_eq; [|apply fitness_of_Some; split; [exact Hl|done]].
  erewrite ST_bind_eq; [|exact IH]. done.
Qed.

End Store_props.

(** ** One iteration of the loop of [evolve] *)

Lemma py_getitem_last {A} (xs : list A) (x : A) : py_getitem (xs ++ [x]) (-1) = Some x.
Proof.
  unfold py_getitem, np_index. rewrite length_app. simpl.
  rewrite decide_True by lia. simpl.
  replace (Z.to_nat (Z.of_nat (length xs + 1) + -1)) with (length xs + 0)%nat by lia.
  rewrite lookup_app_r by lia.
  by replace (length xs + 0 - length xs)%nat with 0%nat by lia.
Qed.

Section Loop_body.
Context {G : Type}.
Context (gen_random : G → Q * G) (roulette : direction → list num → G → Z * G).
Context (correct_solution : Problem → list num → list num).
Context (get_target : list num → Target).
Implicit Types (self s : Optimizer G).

Lemma roulette_frame (fits : list num) s i s' :
  get_index_roulette_wheel_selection roulette fits s = Some (i, s') →
  only_generator s s'.
Proof.
  unfold get_index_roulette_wheel_selection.
  destruct (roulette _ _ _) as [i' g]. intros [= _ <-]. by exists g.
Qed.

Lemma set_last_target_Some (acc : list loc) (l : loc) (pos : list num) s u s' :
  heap s !! l = Some {| solution := pos; target := None |} →
  set_last_target get_target (acc ++ [l]) pos s = Some (u, s') →
  s' = set_heap (<[l := evaluated get_target pos]> (heap s)) s.
Proof.
  intros Hl H. unfold set_last_target in H.
  rewrite (ST_bind_try _ _ _ _ (py_getitem_last acc l)) in H.
  erewrite ST_bind_eq in H; [|by apply deref_Some].
  apply store_Some in H as [_ ->]. done.
Qed.

(** An iteration that finishes has added one object to the store, at an
    address that was free, and has moved the generator; the object sits at
    the corrected raw candidate, which has one entry per dimension. *)
Lemma new_agent_Some (v : variant) (epoch : Z) s0 (fits : list num) (idx : Z)
    (acc acc' : list loc) s s' :
  touched s0 s →
  new_agent gen_random roulette correct_solution get_target v epoch s0 fits idx acc s
    = Some (acc', s') →
  ∃ temp g,
    length temp = n_dims (problem s0) ∧
    acc' = acc ++ [fresh (dom (heap s))] ∧
    s' = set_heap (<[fresh (dom (heap s)) :=
                       new_object get_target (mode s0) (correct_solution (problem s0) temp)]>
                     (heap s))
                  (set_generator g s).
Proof.
  intros Ht H. unfold new_agent in H.
  apply ST_bind_Some in H as (pos_new & sp & Hpos & H).
  unfold new_position in Hpos.
  apply ST_bind_Some in Hpos as (ri & s1 & Hr & Hpos). apply roulette_frame in Hr as [g1 ->].
  apply ST_bind_Some in Hpos as (l_ant & s2 & Hl & Hpos). apply try_Some in Hl as [Hl <-].
  apply ST_bind_Some in Hpos as (ant & s2 & Hant & Hpos).
  apply deref_Some in Hant as [Hant ->].
  apply ST_bind_Some in Hpos as (RA & s2 & HRA & Hpos).
  apply walk_partial in HRA as [[g2 ->] HlenA].
  apply ST_bind_Some in Hpos as (elite & s3 & Hel & Hpos).
  apply deref_Some in Hel as [Hel ->].
  apply ST_bind_Some in Hpos as (RE & s3 & HRE & Hpos).
  apply walk_partial in HRE as [[g3 ->] HlenE].
  apply ST_bind_Some in Hpos as (temp & s4 & Htemp & Hpos).
  apply try_Some in Htemp as [Htemp <-].
  apply ST_ret_Some in Hpos as [<- <-].
  apply ST_bind_Some in H as (l & s4 & Hal & H).
  apply alloc_Some in Hal as [-> ->].
  apply ST_bind_Some in H as (u & s5 & Hset & H).
  apply ST_ret_Some in H as [<- <-].
  simpl in *.
  assert (Hp : problem s = problem s0) by (by destruct Ht as (h & g & ->)).
  exists temp, g3. split; [|split; [done|]].
  - rewrite (raw_candidate_length _ _ _ _ _ _ Htemp) by congruence. congruence.
  - unfold new_object. destruct (in_AVAILABLE_MODES (mode s0)); simpl in Hset.
    + apply ST_ret_Some in Hset as [_ <-]. done.
    + apply set_last_target_Some in Hset; [|simpl; by rewrite lookup_insert_eq].
      subst s5. simpl. by rewrite insert_insert_eq.
Qed.

End Loop_body.

(** ** The loop of [evolve] and the batch evaluation *)

Section Loop.
Context {G : Type}.
Context (gen_random : G → Q * G) (roulette : direction → list num → G → Z * G).
Context (correct_solution : Problem → list num → list num).
Context (get_target : list num → Target).
Implicit Types (self s : Optimizer G).

(** A loop that finishes has made [pop_size] new objects, at pairwise
    different addresses that were free, and has left every older object as
    it was. *)
Lemma loop_Some (v : variant) (epoch : Z) s0 (fits : list num) (pop_new : list loc) s1 :
  for_each (range (pop_size s0))
    (new_agent gen_random roulette correct_solution get_target v epoch s0 fits) [] s0
    = Some (pop_new, s1) →
  touched s0 s1 ∧ heap s0 ⊆ heap s1 ∧ NoDup pop_new ∧
  length pop_new = Z.to_nat (pop_size s0) ∧
  Forall (λ l, heap s0 !! l = None ∧
               ∃ temp, length temp = n_dims (problem s0) ∧
                       heap s1 !! l = Some (new_object get_target (mode s0)
                                              (correct_solution (problem s0) temp)))
         pop_new.
Proof.
  intros H.
  apply (for_each_inv (λ (pre : list Z) (acc : list loc) s,
           touched s0 s ∧ heap s0 ⊆ heap s ∧ NoDup acc ∧ length acc = length pre ∧
           Forall (λ l, heap s0 !! l = None ∧
                        ∃ temp, length temp = n_dims (problem s0) ∧
                                heap s !! l = Some (new_object get_target (mode s0)
                                                       (correct_solution (problem s0) temp)))
                  acc) _ _) with (pre := []) in H.
  - destruct H as (Ht & Hsub & Hnd & Hlen & Hall).
    simpl in Hlen. rewrite range_length in Hlen. done.
  - clear H. intros pre k acc s acc' s' (Ht & Hsub & Hnd & Hlen & Hall) Hbody.
    apply new_agent_Some in Hbody as (temp & g & Hlt & -> & ->); [|done].
    pose proof (fresh_None s) as Hfresh.
    set (l := fresh (dom (heap s))) in *.
    assert (Hl0 : heap s0 !! l = None).
    { destruct (heap s0 !! l) as [a|] eqn:E; [|done].
      rewrite (lookup_weaken _ _ _ _ E Hsub) in Hfresh. done. }
    assert (Hnotin : l ∉ acc).
    { intros Hin. rewrite Forall_forall in Hall.
      destruct (Hall l Hin) as (_ & temp' & _ & E). congruence. }
    split; [|split; [|split; [|split]]].
    + eapply touched_trans; [exact Ht|]. eexists _, _. reflexivity.
    + simpl. etrans; [exact Hsub|]. by apply insert_subseteq.
    + apply NoDup_app. split; [done|]. split; [|apply NoDup_singleton].
      intros x Hx Hx'. apply list_elem_of_singleton in Hx'. by subst.
    + rewrite !length_app. simpl. lia.
    + apply Forall_app. split.
      * eapply Forall_impl; [exact Hall|]. simpl.
        intros x (Hx0 & temp' & Hlt' & Hx).
        split; [done|]. exists temp'. split; [done|].
        rewrite lookup_insert_ne; [done|]. intros <-. congruence.
      * constructor; [|constructor]. split; [done|].
        exists temp. split; [done|]. simpl. by rewrite lookup_insert_eq.
  - split; [apply touched_refl|]. split; [done|]. split; [constructor|]. split; [done|constructor].
Qed.

(** What the evaluation does to one object. *)
Lemma evaluate_Some (l : loc) s u s' :
  evaluate get_target l s = Some (u, s') ↔
  ∃ a, heap s !! l = Some a ∧
       s' = set_heap (<[l := evaluated get_target (solution a)]> (heap s)) s.
Proof.
  unfold evaluate. split.
  - intros H. apply ST_bind_Some in H as (a & s1 & Ha & H).
    apply deref_Some in Ha as [Ha ->]. apply store_Some in H as [_ ->]. by exists a.
  - intros (a & Ha & ->).
    erewrite ST_bind_eq; [|by apply deref_Some].
    apply store_Some. split; [by eexists|done].
Qed.

(** After the batch has come back every agent of the batch is evaluated at
    its position, in every mode, and no other object has changed. *)
Lemma update_target_Some (pop_new out : list loc) s1 s2 :
  Forall (λ l, ∃ pos, heap s1 !! l = Some (new_object get_target (mode s1) pos)) pop_new →
  update_target_for_population get_target pop_new s1 = Some (out, s2) →
  out = pop_new ∧ touched s1 s2 ∧
  (∀ l, l ∉ pop_new → heap s2 !! l = heap s1 !! l) ∧
  Forall (λ l, ∃ pos, heap s1 !! l = Some (new_object get_target (mode s1) pos) ∧
                      heap s2 !! l = Some (evaluated get_target pos)) pop_new.
Proof.
  intros Hall H. unfold update_target_for_population in H.
  apply ST_bind_Some in H as (sa & sb & Hget & H). apply get_Some in Hget as [-> ->].
  apply ST_bind_Some in H as (u & sc & Hev & H). apply ST_ret_Some in H as [<- <-].
  split; [done|].
  unfold new_object in *. destruct (in_AVAILABLE_MODES (mode s1)) eqn:Em.
  - apply (for_each_inv (λ (pre : list loc) (_ : unit) s,
             touched s1 s ∧
             ∀ l, heap s !! l =
                  if decide (l ∈ pre)
                  then (λ a, evaluated get_target (solution a)) <$> heap s1 !! l
                  else heap s1 !! l) _ _) with (pre := []) in Hev.
    + destruct Hev as [Ht Hheap]. simpl in Hheap. split; [done|]. split.
      * intros l Hl. rewrite Hheap. by rewrite decide_False.
      * rewrite Forall_forall in Hall. apply Forall_forall. intros l Hl.
        destruct (Hall l Hl) as [pos Hpos]. exists pos. split; [done|].
        rewrite Hheap, decide_True by done. by rewrite Hpos.
    + clear Hev. intros pre x [] s [] s' [Ht Hheap] Hbody.
      apply evaluate_Some in Hbody as (a & Ha & ->). split.
      * eapply touched_trans; [exact Ht|]. exists (<[x := evaluated get_target (solution a)]> (heap s)), (generator s).
        by destruct s.
      * intros l. simpl. destruct (decide (l = x)) as [->|Hne].
        -- rewrite lookup_insert_eq, decide_True by (apply elem_of_app; right; left).
           rewrite Hheap in Ha. destruct (decide (x ∈ pre)).
           ++ destruct (heap s1 !! x) as [a1|]; [|done]. simpl in *.
              injection Ha as <-. done.
           ++ by rewrite Ha.
        -- rewrite lookup_insert_ne by done. rewrite Hheap.
           destruct (decide (l ∈ pre)) as [Hin|Hnin].
           ++ rewrite decide_True; [done|]. apply elem_of_app. by left.
           ++ rewrite decide_False; [done|]. intros Hin.
              apply elem_of_app in Hin as [?|Hin]; [done|].
              apply list_elem_of_singleton in Hin. done.
    + split; [apply touched_refl|]. intros l. by rewrite decide_False by apply not_elem_of_nil.
  - apply ST_ret_Some in Hev as [_ <-]. split; [apply touched_refl|]. split; [done|].
    eapply Forall_impl; [exact Hall|]. intros l [pos Hpos]. simpl in *. by exists pos.
Qed.

End Loop.

(** ** Sorting and trimming *)

Lemma insert_ranked_perm {A} (d : direction) (x : num * A) (l : list (num * A)) :
  insert_ranked d x l ≡ₚ x :: l.
Proof.
  induction l as [|y l IH]; simpl; [done|].
  destruct (ranks_before d x.1 y.1); [done|].
  rewrite IH. apply Permutation_swap.
Qed.

Lemma sort_ranked_perm {A} (d : direction) (l : list (num * A)) :
  sort_ranked d l ≡ₚ l.
Proof.
  unfold sort_ranked. induction l as [|x l IH]; simpl; [done|].
  by rewrite insert_ranked_perm, IH.
Qed.

Lemma insert_ranked_fmap {A B} (f : A → B) (d : direction) (x : num * A)
    (l : list (num * A)) :
  insert_ranked d (prod_map id f x) (prod_map id f <$> l)
  = prod_map id f <$> insert_ranked d x l.
Proof.
  destruct x as [kx x].
  induction l as [|[ky y] l IH]; simpl; [done|].
  destruct (ranks_before d kx ky); simpl; [done|]. f_equal. exact IH.
Qed.

(** The order that the sort gives depends on the keys alone. *)
Lemma sort_ranked_fmap {A B} (f : A → B) (d : direction) (l : list (num * A)) :
  sort_ranked d (prod_map id f <$> l) = prod_map id f <$> sort_ranked d l.
Proof.
  unfold sort_ranked. induction l as [|x l IH]; [done|].
  rewrite fmap_cons. cbn [foldr]. rewrite IH. apply insert_ranked_fmap.
Qed.

Lemma zip_snd_elem_of {A B} (ks : list A) (ls : list B) (x : B) :
  x ∈ (zip ks ls).*2 → x ∈ ls.
Proof.
  revert ls. induction ks as [|k ks IH]; intros [|l ls]; simpl; try by intros ?%elem_of_nil.
  intros [->|H]%elem_of_cons; [left|right; by apply IH].
Qed.

(** Every agent that survives the merge was in the merged population. *)
Lemma sorted_trimmed_subset {A} (d : direction) (n : nat) (keys : list num) (ls : list A)
    (x : A) :
  x ∈ take n (sort_ranked d (zip keys ls)).*2 → x ∈ ls.
Proof.
  intros H. apply elem_of_take in H as (i & H & _).
  apply list_elem_of_lookup_2 in H.
  apply (zip_snd_elem_of keys).
  apply list_elem_of_fmap in H as (y & -> & Hy).
  apply list_elem_of_fmap. exists y. split; [done|].
  by rewrite <- (sort_ranked_perm d).
Qed.

Section Merge.
Context {G : Type}.
Implicit Types (self s : Optimizer G).

Lemma py_setitem_last {A} (xs out : list A) (x : A) :
  py_setitem xs (-1) x = Some out →
  xs ≠ [] ∧ out = <[(length xs - 1)%nat := x]> xs.
Proof.
  unfold py_setitem, np_index. simpl.
  destruct (decide (- Z.of_nat (length xs) <= -1 < 0)) as [Hn|Hn]; simpl; [|done].
  intros [= <-]. split.
  - intros ->. simpl in Hn. lia.
  - f_equal. lia.
Qed.

(** What lines 122-124 do when they finish: the merged population is
    sorted on the fitness values and cut to [pop_size] agents, and its last
    slot is overwritten, whatever it holds, with a new object that equals
    the elite. *)
Lemma merge_and_keep_elite_Some (pop_new : list loc) s u s' :
  merge_and_keep_elite pop_new s = Some (u, s') →
  ∃ keys merged a,
    Forall2 (λ l f, ∃ a t, heap s !! l = Some a ∧ target a = Some t ∧ f = fitness t)
            (pop s ++ pop_new) keys ∧
    merged = take (Z.to_nat (pop_size s))
               (sort_ranked (minmax (problem s)) (zip keys (pop s ++ pop_new))).*2 ∧
    merged ≠ [] ∧
    heap s !! g_best s = Some a ∧
    s' = set_pop (<[(length merged - 1)%nat := fresh (dom (heap s))]> merged)
           (set_heap (<[fresh (dom (heap s)) := a]> (heap s)) s).
Proof.
  intros H. unfold merge_and_keep_elite in H.
  apply ST_bind_Some in H as (sa & sb & Hget & H). apply get_Some in Hget as [-> ->].
  apply ST_bind_Some in H as (merged & s1 & Hm & H).
  unfold get_sorted_and_trimmed_population in Hm.
  apply ST_bind_Some in Hm as (keys & s2 & Hk & Hm).
  apply mapM_fitness_of_Some in Hk as [-> Hk].
  apply ST_ret_Some in Hm as [Hm <-].
  apply ST_bind_Some in H as (u1 & s3 & Hmod & H). apply modify_Some in Hmod. subst s3.
  apply ST_bind_Some in H as (l & s4 & Hc & H).
  unfold Agent_copy in Hc.
  apply ST_bind_Some in Hc as (a & s5 & Ha & Hc). apply deref_Some in Ha as [Ha ->].
  apply alloc_Some in Hc as [-> ->].
  apply ST_bind_Some in H as (sc & sd & Hget & H). apply get_Some in Hget as [-> ->].
  apply ST_bind_Some in H as (pop' & s6 & Hset & H). apply try_Some in Hset as [Hset <-].
  apply modify_Some in H. simpl in *.
  apply py_setitem_last in Hset as [Hne ->].
  exists keys, merged, a. subst merged. done.
Qed.

End Merge.

(** ** One generation *)

Section Generation.
Context {G : Type}.
Context (gen_random : G → Q * G) (roulette : direction → list num → G → Z * G).
Context (correct_solution : Problem → list num → list num).
Context (get_target : list num → Target).
Implicit Types (self s : Optimizer G).

(** A generation that finishes, up to the merge: the agents of the old
    population had a fitness; the loop and the evaluation have left every
    older object as it was and have added [pop_size] evaluated agents, each
    at a corrected candidate. *)
Lemma evolve_Some (v : variant) (epoch : Z) self u self' :
  evolve gen_random roulette correct_solution get_target v epoch self = Some (u, self') →
  ∃ fits pop_new s2,
    Forall2 (λ l f, ∃ a t, heap self !! l = Some a ∧ target a = Some t ∧ f = fitness t)
            (pop self) fits ∧
    touched self s2 ∧ heap self ⊆ heap s2 ∧ NoDup pop_new ∧
    length pop_new = Z.to_nat (pop_size self) ∧
    Forall (λ l, heap self !! l = None ∧
                 ∃ temp, length temp = n_dims (problem self) ∧
                         heap s2 !! l = Some (evaluated get_target
                                                (correct_solution (problem self) temp)))
           pop_new ∧
    merge_and_keep_elite pop_new s2 = Some (u, self').
Proof.
  rewrite evolve_unfold. unfold evolve_loop. intros H.
  apply ST_bind_Some in H as (sa & sb & Hget & H). apply get_Some in Hget as [-> ->].
  apply ST_bind_Some in H as (fits & s0 & Hf & H).
  apply mapM_fitness_of_Some in Hf as [-> Hf].
  apply ST_bind_Some in H as (pop_new & s1 & Hloop & H).
  apply loop_Some in Hloop as (Ht1 & Hsub1 & Hnd & Hlen & Hall).
  apply ST_bind_Some in H as (out & s2 & Hup & H).
  assert (Hm : mode s1 = mode self) by (by destruct Ht1 as (h & g & ->)).
  apply update_target_Some in Hup as (-> & Ht2 & Hother & Hall2).
  2: { eapply Forall_impl; [exact Hall|]. simpl. intros l (_ & temp & _ & Hl).
       rewrite Hm. eauto. }
  exists fits, pop_new, s2. split; [done|]. split; [by eapply touched_trans|].
  split; [|split; [done|split; [done|split; [|done]]]].
  - apply map_subseteq_spec. intros l a Hl.
    rewrite Hother; [by eapply lookup_weaken|].
    intros Hin. rewrite Forall_forall in Hall. destruct (Hall l Hin) as [E _]. congruence.
  - rewrite Forall_forall in Hall, Hall2. apply Forall_forall. intros l Hl.
    destruct (Hall l Hl) as (E0 & temp & Htemp & E1).
    destruct (Hall2 l Hl) as (pos & E1' & E2).
    split; [done|]. exists temp. split; [done|].
    rewrite E2. f_equal. f_equal.
    rewrite Hm, E1 in E1'. injection E1' as E1'.
    unfold new_object in E1'. destruct (in_AVAILABLE_MODES (mode self)).
    + by injection E1'.
    + unfold evaluated in E1'. by injection E1'.
Qed.

End Generation.

Section Elitism.
Context {G : Type}.
Context (gen_random : G → Q * G) (roulette : direction → list num → G → Z * G).
Context (correct_solution : Problem → list num → list num).
Context (get_target : list num → Target).
Implicit Types (self s : Optimizer G).

(** C5.  When a generation of either class finishes, the last slot of the
    population holds an object [l] that equals the elite [g_best] (same
    position, same fitness) and is an independent copy of it: it is not the
    elite's object, it did not exist before the generation, no other slot
    of the population holds it, and overwriting it leaves the elite as it
    is.  So an agent with the best-known fitness is in the population. *)
Theorem elite_copy_in_last_slot (v : variant) (epoch : Z) self self' :
  evolve gen_random roulette correct_solution get_target v epoch self = Some (tt, self') →
  ∃ l a,
    last (pop self') = Some l ∧
    g_best self' = g_best self ∧
    heap self' !! g_best self' = Some a ∧
    heap self' !! l = Some a ∧
    l ≠ g_best self' ∧
    heap self !! l = None ∧
    (∀ i l', pop self' !! i = Some l' → S i ≠ length (pop self') → l' ≠ l) ∧
    (∀ a', <[l := a']> (heap self') !! g_best self' = Some a) ∧
    Some a ∈ agents_of self'.
Proof.
  intros H.
  apply evolve_Some in H as (fits & pop_new & s2 & Hfits & Ht & Hsub & Hnd & Hlen & Hall & H).
  apply merge_and_keep_elite_Some in H as (keys & merged & a & Hkeys & Hm & Hne & Ha & ->).
  assert (Hg : g_best s2 = g_best self) by (by destruct Ht as (h & g & ->)).
  pose proof (fresh_None s2) as Hfresh.
  set (l := fresh (dom (heap s2))) in *.
  assert (Hlg : l ≠ g_best s2) by (intros E; rewrite E in Hfresh; congruence).
  assert (Hpos : (length merged - 1 < length merged)%nat).
  { destruct merged; [done|]. simpl. lia. }
  assert (Hlast : <[(length merged - 1)%nat := l]> merged !! (length merged - 1)%nat = Some l)
    by (by apply list_lookup_insert_eq).
  exists l, a. simpl. split; [|split; [done|split; [|split; [|split; [|split; [|split; [|split]]]]]]].
  - rewrite last_lookup, length_insert.
    by replace (pred (length merged)) with (length merged - 1)%nat by lia.
  - rewrite lookup_insert_ne by done. congruence.
  - by rewrite lookup_insert_eq.
  - congruence.
  - destruct (heap self !! l) as [a0|] eqn:E; [|done].
    rewrite (lookup_weaken _ _ _ _ E Hsub) in Hfresh. done.
  - intros i l' Hi Hnot. rewrite length_insert in Hnot.
    rewrite list_lookup_insert_ne in Hi by lia.
    assert (Hin : l' ∈ pop s2 ++ pop_new).
    { apply (sorted_trimmed_subset (minmax (problem s2)) (Z.to_nat (pop_size s2)) keys).
      rewrite <- Hm. by eapply list_elem_of_lookup_2. }
    apply list_elem_of_lookup in Hin as [j Hj].
    destruct (Forall2_lookup_l _ _ _ _ _ Hkeys Hj) as (f & _ & a1 & t & Ha1 & _).
    intros ->. congruence.
  - intros a'. rewrite lookup_insert_ne by done. rewrite lookup_insert_ne by done. congruence.
  - unfold agents_of. simpl. apply list_elem_of_fmap. exists l. split.
    + by rewrite lookup_insert_eq.
    + by eapply list_elem_of_lookup_2.
Qed.

End Elitism.

(** ** Bounds across generations *)

Section Bounds_invariant.
Context {G : Type}.
Context (gen_random : G → Q * G) (roulette : direction → list num → G → Z * G).
Context (correct_solution : Problem → list num → list num).
Context (get_target : list num → Target).
Implicit Types (self s : Optimizer G).

Lemma evolve_in_bounds (v : variant) (epoch : Z) self u self' :
  corrector_contract correct_solution (problem self) →
  all_in_bounds self →
  evolve gen_random roulette correct_solution get_target v epoch self = Some (u, self') →
  all_in_bounds self' ∧ problem self' = problem self.
Proof.
  intros Hcontract [Hpop (a0 & Ha0 & Hb0)] H.
  apply evolve_Some in H as (fits & pop_new & s2 & Hfits & Ht & Hsub & Hnd & Hlen & Hall & H).
  apply merge_and_keep_elite_Some in H as (keys & merged & a & Hkeys & Hm & Hne & Ha & ->).
  assert (Hfields : g_best s2 = g_best self ∧ pop s2 = pop self ∧ problem s2 = problem self)
    by (by destruct Ht as (h & g & ->)).
  destruct Hfields as (Hg & Hp & Hpr).
  pose proof (fresh_None s2) as Hfresh.
  set (l := fresh (dom (heap s2))) in *.
  assert (Hkeep : ∀ l' a', heap s2 !! l' = Some a' → <[l := a]> (heap s2) !! l' = Some a').
  { intros l' a' E. rewrite lookup_insert_ne; [done|]. intros <-. congruence. }
  assert (Ha' : a = a0).
  { rewrite Hg, (lookup_weaken _ _ _ _ Ha0 Hsub) in Ha. by injection Ha. }
  subst a.
  split; [|done].
  unfold all_in_bounds, agent_in_bounds. simpl. rewrite Hpr, Hg. split.
  - apply Forall_insert.
    + apply Forall_forall. intros l' Hl'.
      assert (Hin : l' ∈ pop s2 ++ pop_new).
      { apply (sorted_trimmed_subset (minmax (problem s2)) (Z.to_nat (pop_size s2)) keys).
        by rewrite <- Hm. }
      rewrite Hp in Hin. apply elem_of_app in Hin as [Hin|Hin].
      * rewrite Forall_forall in Hpop. destruct (Hpop l' Hin) as (a' & E & Hb).
        exists a'. split; [|done]. apply Hkeep. by eapply lookup_weaken.
      * rewrite Forall_forall in Hall. destruct (Hall l' Hin) as (_ & temp & Hlt & E).
        eexists. split; [apply Hkeep; exact E|]. simpl. by apply Hcontract.
    + exists a0. split; [by rewrite lookup_insert_eq|done].
  - exists a0. split; [|done]. apply Hkeep. by eapply lookup_weaken.
Qed.

Lemma update_global_best_in_bounds s u s' :
  all_in_bounds s →
  update_global_best_agent s = Some (u, s') →
  all_in_bounds s' ∧ problem s' = problem s.
Proof.
  intros [Hpop Hel] H. unfold update_global_best_agent in H.
  apply ST_bind_Some in H as (sa & sb & Hget & H). apply get_Some in Hget as [-> ->].
  apply ST_bind_Some in H as (keys & s1 & Hk & H).
  apply mapM_fitness_of_Some in Hk as [-> Hk].
  destruct (sort_ranked (minmax (problem s)) (zip keys (pop s))) as [|[f l] rest] eqn:Es.
  { apply ST_ret_Some in H as [_ <-]. done. }
  apply ST_bind_Some in H as (fb & s1 & Hfb & H).
  apply fitness_of_Some in Hfb as [_ ->].
  destruct (better (minmax (problem s)) f fb).
  - apply ST_bind_Some in H as (c & s1 & Hc & H). apply modify_Some in H. subst s'.
    unfold Agent_copy in Hc.
    apply ST_bind_Some in Hc as (a & s2 & Ha & Hc). apply deref_Some in Ha as [Ha ->].
    apply alloc_Some in Hc as [-> ->].
    pose proof (fresh_None s) as Hfresh.
    set (c := fresh (dom (heap s))) in *.
    assert (Hl : l ∈ pop s).
    { apply (zip_snd_elem_of keys). apply list_elem_of_fmap. exists (f, l). split; [done|].
      rewrite <- (sort_ranked_perm (minmax (problem s))), Es. left. }
    rewrite Forall_forall in Hpop. destruct (Hpop l Hl) as (a' & Ha' & Hb).
    rewrite Ha in Ha'. injection Ha' as <-.
    split; [|done].
    unfold all_in_bounds, agent_in_bounds. simpl. split.
    + apply Forall_forall. intros l' Hl'. destruct (Hpop l' Hl') as (a' & E & Hb').
      exists a'. split; [|done]. rewrite lookup_insert_ne; [done|]. intros <-. congruence.
    + exists a. split; [by rewrite lookup_insert_eq|done].
  - apply ST_ret_Some in H as [_ <-]. done.
Qed.

Lemma generation_in_bounds (v : variant) (epoch : Z) (trajectory out : list num) s s' :
  corrector_contract correct_solution (problem s) →
  all_in_bounds s →
  generation gen_random roulette correct_solution get_target v epoch trajectory s
    = Some (out, s') →
  all_in_bounds s' ∧ problem s' = problem s.
Proof.
  intros Hcontract Hs H. unfold generation in H.
  apply ST_bind_Some in H as (u1 & s1 & He & H).
  apply ST_bind_Some in H as (u2 & s2 & Hu & H).
  apply ST_bind_Some in H as (sa & sb & Hget & H). apply get_Some in Hget as [-> ->].
  apply ST_bind_Some in H as (f & s3 & Hf & H).
  apply fitness_of_Some in Hf as [_ ->]. apply ST_ret_Some in H as [_ <-].
  destruct (evolve_in_bounds _ _ _ _ _ Hcontract Hs He) as [Hs1 Hp1].
  destruct (update_global_best_in_bounds _ _ _ Hs1 Hu) as [Hs2 Hp2].
  split; [done|congruence].
Qed.

(** C6.  Assume the contract of the bounds corrector, and a population and
    an elite within the bounds.  Then after a generation of [evolve] of
    either class, at any epoch, every agent of the population (and the
    elite) is within the bounds; and so it is after any number of
    generations of the generation loop. *)
Theorem population_stays_in_bounds (v : variant) self :
  corrector_contract correct_solution (problem self) →
  all_in_bounds self →
  (∀ epoch self',
     evolve gen_random roulette correct_solution get_target v epoch self = Some (tt, self') →
     all_in_bounds self') ∧
  (∀ n trajectory self',
     generations gen_random roulette correct_solution get_target v n self
       = Some (trajectory, self') →
     all_in_bounds self').
Proof.
  intros Hcontract Hs. split.
  - intros epoch self' H. by eapply evolve_in_bounds.
  - intros n trajectory self' H. unfold generations in H.
    apply (for_each_inv (λ (_ : list Z) (_ : list num) s,
             all_in_bounds s ∧ problem s = problem self) _ _)
      with (pre := []) in H; [by destruct H| |done].
    intros pre k acc s acc' s' [Hinv Hp] Hbody.
    rewrite <- Hp in Hcontract.
    destruct (generation_in_bounds _ _ _ _ _ _ Hcontract Hinv Hbody). split; [done|congruence].
Qed.

End Bounds_invariant.

(** ** Generations on the concrete problem *)

Lemma clip_contract : corrector_contract Demo.clip Demo.box.
Proof.
  intros pos Hlen. destruct pos as [|x [|y pos]]; try done.
  unfold in_bounds, Demo.clip. simpl. constructor; [|constructor].
  destruct x as [q| | |]; simpl; split;
    first [ apply Q.le_max_l
          | apply Q.max_lub;
            [ unfold Qle; simpl; lia
            | first [apply Q.le_min_l | unfold Qle; simpl; lia] ] ].
Qed.

Lemma demo_in_bounds (T : Z) (m : Mode) (script : list Q) :
  all_in_bounds (Demo.optimizer T m script).
Proof.
  assert (H : ∀ l, (l < 6)%nat → agent_in_bounds (Demo.optimizer T m script) l).
  { intros l Hl. do 6 (destruct l as [|l]; [eexists; split; [reflexivity|];
      repeat constructor; simpl; unfold Qle; simpl; lia|]). lia. }
  split; [|apply H; simpl; lia].
  apply Forall_forall. intros l Hl. apply H.
  change (pop (Demo.optimizer T m script)) with (seq 0 5) in Hl.
  apply elem_of_seq in Hl. lia.
Qed.

Lemma elite_copy_in_last_slot_witness :
  ∃ self',
    evolve Demo.script_random Demo.wheel Demo.clip Demo.sum_of_squares DevALO 1
      (Demo.optimizer 10 Single Demo.quiet) = Some (tt, self') ∧
    ∃ l a,
      last (pop self') = Some l ∧
      g_best self' = g_best (Demo.optimizer 10 Single Demo.quiet) ∧
      heap self' !! g_best self' = Some a ∧
      heap self' !! l = Some a ∧
      l ≠ g_best self' ∧
      heap (Demo.optimizer 10 Single Demo.quiet) !! l = None ∧
      (∀ i l', pop self' !! i = Some l' → S i ≠ length (pop self') → l' ≠ l) ∧
      (∀ a', <[l := a']> (heap self') !! g_best self' = Some a) ∧
      Some a ∈ agents_of self'.
Proof.
  assert (E : ∃ self',
    evolve Demo.script_random Demo.wheel Demo.clip Demo.sum_of_squares DevALO 1
      (Demo.optimizer 10 Single Demo.quiet) = Some (tt, self'))
    by (eexists; vm_compute; reflexivity).
  destruct E as [self' E]. exists self'. split; [exact E|].
  exact (elite_copy_in_last_slot Demo.script_random Demo.wheel Demo.clip
           Demo.sum_of_squares DevALO 1 _ _ E).
Defined.

Lemma population_stays_in_bounds_witness :
  corrector_contract Demo.clip (problem (Demo.optimizer 10 Thread Demo.crowding)) ∧
  all_in_bounds (Demo.optimizer 10 Thread Demo.crowding) ∧
  (∃ self',
     evolve Demo.script_random Demo.wheel Demo.clip Demo.sum_of_squares OriginalALO 1
       (Demo.optimizer 10 Thread Demo.crowding) = Some (tt, self') ∧
     all_in_bounds self') ∧
  (∃ trajectory self',
     generations Demo.script_random Demo.wheel Demo.clip Demo.sum_of_squares OriginalALO 3
       (Demo.optimizer 10 Thread Demo.crowding) = Some (trajectory, self') ∧
     all_in_bounds self').
Proof.
  pose proof (population_stays_in_bounds Demo.script_random Demo.wheel Demo.clip
                Demo.sum_of_squares OriginalALO (Demo.optimizer 10 Thread Demo.crowding)
                clip_contract (demo_in_bounds _ _ _)) as [H1 Hn].
  split; [exact clip_contract|]. split; [apply demo_in_bounds|]. split.
  - assert (E : ∃ self',
      evolve Demo.script_random Demo.wheel Demo.clip Demo.sum_of_squares OriginalALO 1
        (Demo.optimizer 10 Thread Demo.crowding) = Some (tt, self'))
      by (eexists; vm_compute; reflexivity).
    destruct E as [self' E]. exists self'. split; [exact E|]. exact (H1 _ _ E).
  - assert (E : ∃ trajectory self',
      generations Demo.script_random Demo.wheel Demo.clip Demo.sum_of_squares OriginalALO 3
        (Demo.optimizer 10 Thread Demo.crowding) = Some (trajectory, self'))
      by (eexists _, _; vm_compute; reflexivity).
    destruct E as (trajectory & self' & E). exists trajectory, self'.
    split; [exact E|]. exact (Hn _ _ _ E).
Defined.

(** ** The overwrite of the last slot *)

Lemma sorted_trimmed_NoDup {A} (d : direction) (n : nat) (keys : list num) (ls : list A) :
  length keys = length ls → NoDup ls →
  NoDup (take n (sort_ranked d (zip keys ls)).*2).
Proof.
  intros Hlen Hnd. eapply sublist_NoDup; [|apply sublist_take].
  rewrite (sort_ranked_perm d), snd_zip by lia. done.
Qed.

Section Overwrite.
Context {G : Type}.
Context (gen_random : G → Q * G) (roulette : direction → list num → G → Z * G).
Context (correct_solution : Problem → list num → list num).
Context (get_target : list num → Target).
Implicit Types (self s : Optimizer G).

(** C10 (as amended).  The overwrite at the end of [evolve] is
    unconditional: when a generation finishes, the population is the sorted
    and trimmed merge [merged] of the old and the new agents with its last
    slot replaced by a new copy [l] of the elite.  The agent that ranked
    last within the cut is not in the population any more (the slots of the
    old population holding different objects).  Whenever an agent with the
    elite's solution ranks within the cut at a slot before the last one,
    the population holds the elite's solution in two slots, that one and
    the last. *)
Theorem elite_overwrite_unconditional (v : variant) (epoch : Z) self self' :
  evolve gen_random roulette correct_solution get_target v epoch self = Some (tt, self') →
  ∃ pop_new s2 merged l a,
    touched self s2 ∧
    get_sorted_and_trimmed_population (pop self ++ pop_new) (pop_size self)
      (minmax (problem self)) s2 = Some (merged, s2) ∧
    merged ≠ [] ∧
    heap s2 !! l = None ∧
    heap s2 !! g_best self = Some a ∧
    heap self' = <[l := a]> (heap s2) ∧
    pop self' = <[(length merged - 1)%nat := l]> merged ∧
    (NoDup (pop self) → ∀ lw, last merged = Some lw → lw ∉ pop self') ∧
    (∀ i li,
       (S i < length merged)%nat → merged !! i = Some li →
       solution <$> heap s2 !! li = Some (solution a) →
       pop self' !! i = Some li ∧
       pop self' !! (length merged - 1)%nat = Some l ∧
       li ≠ l ∧
       solution <$> heap self' !! li = Some (solution a) ∧
       solution <$> heap self' !! l = Some (solution a)).
Proof.
  intros H.
  apply evolve_Some in H as (fits & pop_new & s2 & Hfits & Ht & Hsub & Hnd & Hlen & Hall & H).
  apply merge_and_keep_elite_Some in H as (keys & merged & a & Hkeys & Hm & Hne & Ha & ->).
  assert (Hfields : g_best s2 = g_best self ∧ pop s2 = pop self ∧
                    problem s2 = problem self ∧ pop_size s2 = pop_size self)
    by (by destruct Ht as (h & g & ->)).
  destruct Hfields as (Hg & Hp & Hpr & Hps).
  rewrite Hg, Hp, Hpr, Hps in *.
  pose proof (fresh_None s2) as Hfresh.
  set (l := fresh (dom (heap s2))) in *.
  assert (Hin_heap : ∀ x, x ∈ merged → is_Some (heap s2 !! x)).
  { intros x Hx. rewrite Hm in Hx. apply sorted_trimmed_subset in Hx.
    apply list_elem_of_lookup in Hx as [j Hj].
    destruct (Forall2_lookup_l _ _ _ _ _ Hkeys Hj) as (f & _ & a1 & t & Ha1 & _).
    by eexists. }
  assert (Hpos : (length merged - 1 < length merged)%nat).
  { destruct merged; [done|]. simpl. lia. }
  exists pop_new, s2, merged, l, a. simpl.
  split; [done|]. split.
  { unfold get_sorted_and_trimmed_population.
    erewrite ST_bind_eq; [|by apply mapM_fitness_of_total]. by rewrite Hm. }
  split; [done|]. split; [done|]. split; [done|]. split; [done|]. split; [done|]. split.
  - intros Hndp lw Hlw Hin.
    assert (Hndm : NoDup merged).
    { rewrite Hm. apply sorted_trimmed_NoDup.
      - symmetry. by eapply Forall2_length.
      - apply NoDup_app. split; [done|]. split; [|done].
        intros x Hx Hx'. rewrite Forall_forall in Hall. destruct (Hall x Hx') as [E _].
        apply list_elem_of_lookup in Hx as [j Hj].
        destruct (Forall2_lookup_l _ _ _ _ _ Hfits Hj) as (f & _ & a1 & t & Ha1 & _).
        congruence. }
    rewrite last_lookup in Hlw.
    replace (pred (length merged)) with (length merged - 1)%nat in Hlw by lia.
    apply list_elem_of_lookup in Hin as [j Hj].
    destruct (decide (j = (length merged - 1)%nat)) as [->|Hne'].
    + rewrite list_lookup_insert_eq in Hj by done. injection Hj as <-.
      destruct (Hin_heap l) as [? ?]; [by eapply list_elem_of_lookup_2|]. congruence.
    + rewrite list_lookup_insert_ne in Hj by done.
      apply Hne'. by eapply NoDup_lookup.
  - intros i li Hi Hli Hsol.
    assert (Hlil : li ≠ l).
    { intros ->. destruct (Hin_heap l) as [? ?]; [by eapply list_elem_of_lookup_2|].
      congruence. }
    split; [by rewrite list_lookup_insert_ne by lia|].
    split; [by apply list_lookup_insert_eq|]. split; [done|].
    split; [by rewrite lookup_insert_ne|]. by rewrite lookup_insert_eq.
Qed.

End Overwrite.

(** C10 fails as stated.  On the concrete problem, with draws that put four
    new candidates at -1/4, all better than the elite at 1: the sorted and
    trimmed merge is [-1/4; -1/4; -1/4; -1/4; 1], so the agent with the
    elite's solution survives the merge, at rank [pop_size]; it is that
    agent which the copy of the elite overwrites, and the population holds
    the elite's solution once, not twice. *)
Lemma elite_overwrite_single :
  ∃ fits pop_new s1 s2 merged self',
    mapM fitness_of (pop (Demo.optimizer 10 Single Demo.crowding))
      (Demo.optimizer 10 Single Demo.crowding)
    = Some (fits, Demo.optimizer 10 Single Demo.crowding) ∧
    for_each (range (pop_size (Demo.optimizer 10 Single Demo.crowding)))
      (new_agent Demo.script_random Demo.wheel Demo.clip Demo.sum_of_squares DevALO 1
         (Demo.optimizer 10 Single Demo.crowding) fits)
      [] (Demo.optimizer 10 Single Demo.crowding)
    = Some (pop_new, s1) ∧
    update_target_for_population Demo.sum_of_squares pop_new s1 = Some (pop_new, s2) ∧
    get_sorted_and_trimmed_population
      (pop (Demo.optimizer 10 Single Demo.crowding) ++ pop_new) 5 Min s2
    = Some (merged, s2) ∧
    evolve Demo.script_random Demo.wheel Demo.clip Demo.sum_of_squares DevALO 1
      (Demo.optimizer 10 Single Demo.crowding) = Some (tt, self') ∧
    Demo.positions (set_pop merged s2)
    = [Some (-1 # 4); Some (-1 # 4); Some (-1 # 4); Some (-1 # 4); Some 1]%Q ∧
    Demo.positions (set_pop [g_best s2] s2) = [Some 1%Q] ∧
    Demo.positions self'
    = [Some (-1 # 4); Some (-1 # 4); Some (-1 # 4); Some (-1 # 4); Some 1]%Q.
Proof.
  eexists _, _, _, _, _, _.
  split; [vm_compute; reflexivity|].
  split; [vm_compute; reflexivity|].
  split; [vm_compute; reflexivity|].
  split; [vm_compute; reflexivity|].
  split; [vm_compute; reflexivity|].
  split; [vm_compute; reflexivity|].
  split; vm_compute; reflexivity.
Qed.

Lemma elite_overwrite_unconditional_witness :
  ∃ self',
    evolve Demo.script_random Demo.wheel Demo.clip Demo.sum_of_squares DevALO 1
      (Demo.optimizer 10 Single Demo.quiet) = Some (tt, self') ∧
    Demo.positions self' = [Some 1; Some (-3 # 2); Some 2; Some 2; Some 1]%Q ∧
    ∃ pop_new s2 merged l a,
      touched (Demo.optimizer 10 Single Demo.quiet) s2 ∧
      get_sorted_and_trimmed_population
        (pop (Demo.optimizer 10 Single Demo.quiet) ++ pop_new)
        (pop_size (Demo.optimizer 10 Single Demo.quiet))
        (minmax (problem (Demo.optimizer 10 Single Demo.quiet))) s2 = Some (merged, s2) ∧
      merged ≠ [] ∧
      heap s2 !! l = None ∧
      heap s2 !! g_best (Demo.optimizer 10 Single Demo.quiet) = Some a ∧
      heap self' = <[l := a]> (heap s2) ∧
      pop self' = <[(length merged - 1)%nat := l]> merged ∧
      (NoDup (pop (Demo.optimizer 10 Single Demo.quiet)) →
       ∀ lw, last merged = Some lw → lw ∉ pop self') ∧
      (∀ i li,
         (S i < length merged)%nat → merged !! i = Some li →
         solution <$> heap s2 !! li = Some (solution a) →
         pop self' !! i = Some li ∧
         pop self' !! (length merged - 1)%nat = Some l ∧
         li ≠ l ∧
         solution <$> heap self' !! li = Some (solution a) ∧
         solution <$> heap self' !! l = Some (solution a)).
Proof.
  assert (E : ∃ self',
    evolve Demo.script_random Demo.wheel Demo.clip Demo.sum_of_squares DevALO 1
      (Demo.optimizer 10 Single Demo.quiet) = Some (tt, self') ∧
    Demo.positions self' = [Some 1; Some (-3 # 2); Some 2; Some 2; Some 1]%Q)
    by (eexists; split; vm_compute; reflexivity).
  destruct E as (self' & E & Hpos). exists self'. split; [exact E|]. split; [exact Hpos|].
  exact (elite_overwrite_unconditional Demo.script_random Demo.wheel Demo.clip
           Demo.sum_of_squares DevALO 1 _ _ E).
Defined.

(** ** Computations that do not look at the store *)

Section Commutes.
Context {S : Type} (φ : S → S).

Lemma commutes_ret {A} (a : A) : commutes φ (mret a).
Proof. by intros s. Qed.

Lemma commutes_try {A} (o : option A) : commutes φ (try o).
Proof. intros s. by destruct o. Qed.

Lemma commutes_require (P : Prop) `{Decision P} : commutes φ (require P).
Proof. apply commutes_try. Qed.

Lemma commutes_bind {A B} (m : ST S A) (f : A → ST S B) :
  commutes φ m → (∀ a, commutes φ (f a)) → commutes φ (m ≫= f).
Proof.
  intros Hm Hf s. unfold mbind, ST_bind. rewrite Hm.
  destruct (m s) as [[a s']|]; simpl; [apply Hf|done].
Qed.

Lemma commutes_get_bind {B} (f : S → ST S B) :
  (∀ s, f (φ s) = f s) → (∀ self, commutes φ (f self)) → commutes φ (get ≫= f).
Proof. intros Hf Hc s. unfold mbind, ST_bind, get. rewrite Hf. apply Hc. Qed.

Lemma commutes_for_each {A B} (xs : list A) (body : A → B → ST S B) (acc : B) :
  (∀ x acc, commutes φ (body x acc)) → commutes φ (for_each xs body acc).
Proof.
  intros Hb. revert acc. induction xs as [|x xs IH]; intros acc; simpl.
  - apply commutes_ret.
  - apply commutes_bind; [apply Hb|apply IH].
Qed.

End Commutes.

Section Walk_commutes.
Context {G : Type} (gen_random : G → Q * G).
Context (h : gmap loc Agent) (p : list loc) (gb : loc).

Lemma commutes_random : commutes (with_store h p gb) (random gen_random).
Proof. intros s. unfold random. simpl. by destruct (gen_random (generator s)). Qed.

Lemma commutes_random_n (n : nat) : commutes (with_store h p gb) (random_n gen_random n).
Proof.
  induction n as [|n IH]; simpl; [apply commutes_ret|].
  apply commutes_bind; [apply commutes_random|]. intros r.
  apply commutes_bind; [apply IH|]. intros rs. apply commutes_ret.
Qed.

Lemma commutes_raw_walk (n : Z) : commutes (with_store h p gb) (raw_walk gen_random n).
Proof.
  unfold raw_walk, random_array.
  apply commutes_bind; [|intros; apply commutes_ret].
  apply commutes_bind; [apply commutes_require|intros; apply commutes_random_n].
Qed.

Lemma commutes_recentred_bounds (solution : list num) (t : Z) :
  commutes (with_store h p gb) (recentred_bounds gen_random solution t).
Proof.
  unfold recentred_bounds.
  apply commutes_get_bind; [reflexivity|]. intros self.
  apply commutes_bind; [apply commutes_try|]. intros I. cbv zeta.
  apply commutes_bind; [apply commutes_random|]. intros r1.
  apply commutes_bind; [apply commutes_try|]. intros lbs.
  apply commutes_bind; [apply commutes_random|]. intros r2.
  apply commutes_bind; [apply commutes_try|]. intros ubs.
  apply commutes_ret.
Qed.

Lemma commutes_walk (v : variant) (solution : list num) (t : Z) :
  commutes (with_store h p gb) (random_walk_antlion__ gen_random v solution t).
Proof.
  destruct v; simpl.
  - unfold OriginalALO_random_walk_antlion__.
    apply commutes_bind; [apply commutes_recentred_bounds|]. intros [lbs ubs].
    apply commutes_get_bind; [reflexivity|]. intros self.
    apply commutes_for_each. intros k temp.
    apply commutes_bind; [apply commutes_raw_walk|]. intros X.
    repeat (apply commutes_bind; [apply commutes_try|]; intros ?).
    apply commutes_ret.
  - unfold DevALO_random_walk_antlion__.
    apply commutes_bind; [apply commutes_recentred_bounds|]. intros [lbs ubs].
    apply commutes_get_bind; [reflexivity|]. intros self. cbv zeta.
    apply commutes_bind.
    { apply commutes_for_each. intros k rows.
      apply commutes_bind; [apply commutes_raw_walk|]. intros; apply commutes_ret. }
    intros X.
    repeat (apply commutes_bind; [apply commutes_try|]; intros ?).
    apply commutes_ret.
Qed.

End Walk_commutes.

(** ** Two runs side by side *)

Section Side_by_side.
Context {G : Type}.
Implicit Types (s t : Optimizer G).

Lemma same_config_with_store t1 t2 :
  same_config t1 t2 → t2 = with_store (heap t2) (pop t2) (g_best t2) t1.
Proof.
  destruct t1, t2. unfold same_config. simpl.
  intros (-> & -> & -> & -> & -> & ->). reflexivity.
Qed.

Lemma same_config_set_generator t1 t2 (g : G) :
  same_config t1 t2 → same_config (set_generator g t1) (set_generator g t2).
Proof. unfold same_config. simpl. tauto. Qed.

Lemma same_config_set_heap t1 t2 (h1 h2 : gmap loc Agent) :
  same_config t1 t2 → same_config (set_heap h1 t1) (set_heap h2 t2).
Proof. unfold same_config. simpl. tauto. Qed.

Lemma paired_weaken t1 t2 t1' t2' (pairs : list (loc * loc)) :
  heap t1 ⊆ heap t1' → heap t2 ⊆ heap t2' →
  paired t1 t2 pairs → paired t1' t2' pairs.
Proof.
  intros H1 H2 Hp. eapply Forall_impl; [exact Hp|].
  intros [l1 l2] (a & E1 & E2). exists a. split; by eapply lookup_weaken.
Qed.

Lemma paired_lookup t1 t2 (pairs : list (loc * loc)) (i : nat) (l1 : loc) :
  paired t1 t2 pairs → pairs.*1 !! i = Some l1 →
  ∃ l2 a, pairs.*2 !! i = Some l2 ∧ heap t1 !! l1 = Some a ∧ heap t2 !! l2 = Some a.
Proof.
  intros Hp Hi. rewrite list_lookup_fmap in Hi.
  destruct (pairs !! i) as [[m1 m2]|] eqn:E; [|done]. injection Hi as ->.
  eapply Forall_lookup_1 in Hp as (a & E1 & E2); [|exact E].
  exists m2, a. rewrite list_lookup_fmap, E. done.
Qed.

Lemma paired_agents t1 t2 (pairs : list (loc * loc)) :
  paired t1 t2 pairs →
  (λ l, heap t1 !! l) <$> pairs.*1 = (λ l, heap t2 !! l) <$> pairs.*2.
Proof.
  induction 1 as [|[l1 l2] pairs (a & E1 & E2) _ IH]; [done|].
  rewrite !fmap_cons. simpl in E1, E2. f_equal; [simpl; congruence|exact IH].
Qed.

(** Equal views of well-formed optimizers: the slots pair up. *)
Lemma view_paired s1 s2 :
  well_formed s1 → view s1 = view s2 →
  same_config s1 s2 ∧
  paired s1 s2 (zip (pop s1) (pop s2)) ∧
  (zip (pop s1) (pop s2)).*1 = pop s1 ∧ (zip (pop s1) (pop s2)).*2 = pop s2 ∧
  paired s1 s2 [(g_best s1, g_best s2)].
Proof.
  intros [Hg Hpop] Hv. unfold view in Hv.
  injection Hv as He Hps Hsf Hpr Hm Hag Hgb Hgen.
  split; [done|].
  assert (Hlen : length (pop s1) = length (pop s2)).
  { apply (f_equal length) in Hag. unfold agents_of in Hag. by rewrite !length_fmap in Hag. }
  split; [|split; [by rewrite fst_zip by lia|split; [by rewrite snd_zip by lia|]]].
  - apply Forall_forall. intros [l1 l2] Hin.
    apply list_elem_of_lookup in Hin as [i Hi].
    apply lookup_zip_with_Some in Hi as (m1 & m2 & [= <- <-] & H1 & H2).
    rewrite Forall_forall in Hpop.
    destruct (Hpop l1) as [a Ha]; [by eapply list_elem_of_lookup_2|].
    exists a. split; [done|]. simpl.
    apply (f_equal (λ l, l !! i)) in Hag. unfold agents_of in Hag.
    rewrite !list_lookup_fmap, H1, H2 in Hag. simpl in Hag. congruence.
  - constructor; [|constructor]. destruct Hg as [a Ha]. exists a. simpl.
    split; [done|congruence].
Qed.

(** Paired slots and an equal configuration: the views are equal. *)
Lemma paired_view t1 t2 (pairs : list (loc * loc)) :
  same_config t1 t2 →
  pop t1 = pairs.*1 → pop t2 = pairs.*2 →
  paired t1 t2 pairs → paired t1 t2 [(g_best t1, g_best t2)] →
  view t1 = view t2 ∧ well_formed t1.
Proof.
  intros (He & Hps & Hsf & Hpr & Hm & Hgen) Hp1 Hp2 Hp Hg.
  apply Forall_cons in Hg as [(a & E1 & E2) _]. simpl in *.
  split.
  - unfold view, agents_of. rewrite He, Hps, Hsf, Hpr, Hm, Hgen, E1, E2, Hp1, Hp2.
    by rewrite (paired_agents _ _ _ Hp).
  - split; [by eexists|]. rewrite Hp1. apply Forall_forall. intros l Hl.
    apply list_elem_of_lookup in Hl as [i Hi].
    destruct (paired_lookup _ _ _ _ _ Hp Hi) as (l2 & a' & _ & E & _). by eexists.
Qed.

End Side_by_side.

Section Position_sim.
Context {G : Type}.
Context (gen_random : G → Q * G) (roulette : direction → list num → G → Z * G).
Context (correct_solution : Problem → list num → list num).
Context (get_target : list num → Target).
Implicit Types (s t : Optimizer G).

(** A walk returns the same matrix, and leaves the same generator, on any
    two optimizers of one configuration. *)
Lemma walk_sim (v : variant) (solution : list num) (epoch : Z) t1 t2 (M : matrix) t1' :
  same_config t1 t2 →
  random_walk_antlion__ gen_random v solution epoch t1 = Some (M, t1') →
  ∃ g, t1' = set_generator g t1 ∧
       random_walk_antlion__ gen_random v solution epoch t2 = Some (M, set_generator g t2).
Proof.
  intros Hc H. pose proof (walk_partial _ _ _ _ _ _ _ H) as [[g ->] _].
  exists g. split; [done|].
  assert (Hany : ∀ h p gb,
            random_walk_antlion__ gen_random v solution epoch (with_store h p gb t1)
            = Some (M, set_generator g (with_store h p gb t1))).
  { intros h p gb. by rewrite commutes_walk, H. }
  rewrite (same_config_with_store _ _ Hc). apply Hany.
Qed.

Lemma roulette_sim (fits : list num) t1 t2 (i : Z) t1' :
  same_config t1 t2 →
  get_index_roulette_wheel_selection roulette fits t1 = Some (i, t1') →
  ∃ g, t1' = set_generator g t1 ∧
       get_index_roulette_wheel_selection roulette fits t2 = Some (i, set_generator g t2).
Proof.
  intros (_ & _ & _ & Hpr & _ & Hg). unfold get_index_roulette_wheel_selection.
  rewrite <- Hpr, <- Hg. destruct (roulette _ _ _) as [i' g]. intros [= <- <-].
  by exists g.
Qed.

Lemma py_getitem_fmap {A B} (f : A → B) (xs : list A) (j : Z) :
  py_getitem (f <$> xs) j = f <$> py_getitem xs j.
Proof.
  unfold py_getitem. rewrite length_fmap.
  destruct (np_index (length xs) j) as [i|]; simpl; [|done].
  by rewrite list_lookup_fmap.
Qed.

(** The position of a candidate is the same in two runs whose slots pair
    up, and so is the generator afterwards. *)
Lemma new_position_sim (v : variant) (epoch : Z) s1 s2 (fits : list num) (idx : Z)
    t1 t2 (pairs : list (loc * loc)) (pos : list num) t1' :
  same_config t1 t2 → problem s1 = problem s2 →
  pop s1 = pairs.*1 → pop s2 = pairs.*2 →
  paired t1 t2 pairs → paired t1 t2 [(g_best s1, g_best s2)] →
  new_position gen_random roulette correct_solution v epoch s1 fits idx t1
    = Some (pos, t1') →
  ∃ g, t1' = set_generator g t1 ∧
       new_position gen_random roulette correct_solution v epoch s2 fits idx t2
       = Some (pos, set_generator g t2).
Proof.
  intros Hc Hpr Hp1 Hp2 Hpairs Hg H. unfold new_position in *.
  apply Forall_cons in Hg as [(ae & Ee1 & Ee2) _]. simpl in Ee1, Ee2.
  apply ST_bind_Some in H as (ri & ta & Hr & H).
  destruct (roulette_sim _ _ _ _ _ Hc Hr) as (g1 & -> & Hr2).
  apply ST_bind_Some in H as (l1 & tb & Hl & H). apply try_Some in Hl as [Hl <-].
  rewrite Hp1, py_getitem_fmap in Hl.
  destruct (py_getitem pairs ri) as [[m1 m2]|] eqn:Eg; [|done]. injection Hl as <-.
  assert (Hin : (m1, m2) ∈ pairs).
  { unfold py_getitem in Eg. destruct (np_index _ _); [|done].
    by eapply list_elem_of_lookup_2. }
  unfold paired in Hpairs. rewrite Forall_forall in Hpairs.
  destruct (Hpairs _ Hin) as (a & Ea1 & Ea2). simpl in Ea1, Ea2.
  apply ST_bind_Some in H as (ant & tb & Hant & H). apply deref_Some in Hant as [Hant ->].
  simpl in Hant. rewrite Ea1 in Hant. injection Hant as <-.
  apply ST_bind_Some in H as (RA & tb & HRA & H).
  destruct (walk_sim _ _ _ _ _ _ _ (same_config_set_generator _ _ g1 Hc) HRA)
    as (g2 & -> & HRA2).
  apply ST_bind_Some in H as (elite & tc & Hel & H). apply deref_Some in Hel as [Hel ->].
  simpl in Hel. rewrite Ee1 in Hel. injection Hel as <-.
  apply ST_bind_Some in H as (RE & tc & HRE & H).
  destruct (walk_sim _ _ _ _ _ _ _ (same_config_set_generator _ _ g2 Hc) HRE)
    as (g3 & -> & HRE2).
  apply ST_bind_Some in H as (temp & td & Htemp & H). apply try_Some in Htemp as [Htemp <-].
  apply ST_ret_Some in H as [<- <-].
  exists g3. split; [done|].
  rewrite (ST_bind_eq _ _ _ _ _ Hr2).
  erewrite ST_bind_try; [|by rewrite Hp2, py_getitem_fmap, Eg].
  erewrite ST_bind_eq; [|by apply deref_Some].
  rewrite (ST_bind_eq _ _ _ _ _ HRA2).
  erewrite ST_bind_eq; [|by apply deref_Some].
  rewrite (ST_bind_eq _ _ _ _ _ HRE2).
  rewrite (ST_bind_try _ _ _ _ Htemp). by rewrite Hpr.
Qed.

(** The second half of the loop body always finishes. *)
Lemma new_agent_eq (v : variant) (epoch : Z) s0 (fits : list num) (idx : Z)
    (acc : list loc) t (pos : list num) tp :
  new_position gen_random roulette correct_solution v epoch s0 fits idx t = Some (pos, tp) →
  new_agent gen_random roulette correct_solution get_target v epoch s0 fits idx acc t
  = Some (acc ++ [fresh (dom (heap tp))],
          set_heap (<[fresh (dom (heap tp)) := new_object get_target (mode s0) pos]> (heap tp))
                   tp).
Proof.
  intros Hpos. unfold new_agent. rewrite (ST_bind_eq _ _ _ _ _ Hpos).
  unfold generate_empty_agent.
  erewrite ST_bind_eq; [|by apply alloc_Some].
  unfold new_object. destruct (in_AVAILABLE_MODES (mode s0)); cbn [negb]; [done|].
  erewrite ST_bind_eq.
  2: { unfold set_last_target.
       rewrite (ST_bind_try _ _ _ _ (py_getitem_last acc _)).
       erewrite ST_bind_eq; [|apply deref_Some; simpl; by rewrite lookup_insert_eq].
       apply (store_Some _ _ _ tt). simpl. rewrite lookup_insert_eq.
       split; [by eexists|done]. }
  simpl. unfold mret, ST_ret. by rewrite insert_insert_eq.
Qed.

End Position_sim.

Section Tail_total.
Context {G : Type}.
Context (get_target : list num → Target).
Implicit Types (s t : Optimizer G).

(** The store after the batch evaluation, address by address. *)
Lemma update_target_heap (pop_new out : list loc) t t' :
  update_target_for_population get_target pop_new t = Some (out, t') →
  out = pop_new ∧ t' = set_heap (heap t') t ∧
  ∀ l, heap t' !! l =
       if decide (l ∈ pop_new ∧ in_AVAILABLE_MODES (mode t) = true)
       then (λ a, evaluated get_target (solution a)) <$> heap t !! l
       else heap t !! l.
Proof.
  intros H. unfold update_target_for_population in H.
  apply ST_bind_Some in H as (sa & sb & Hget & H). apply get_Some in Hget as [-> ->].
  apply ST_bind_Some in H as (u & sc & Hev & H). apply ST_ret_Some in H as [<- <-].
  split; [done|].
  destruct (in_AVAILABLE_MODES (mode t)) eqn:Em.
  - apply (for_each_inv (λ (pre : list loc) (_ : unit) s,
             s = set_heap (heap s) t ∧
             ∀ l, heap s !! l =
                  if decide (l ∈ pre)
                  then (λ a, evaluated get_target (solution a)) <$> heap t !! l
                  else heap t !! l) _ _) with (pre := []) in Hev.
    + destruct Hev as [Ht Hheap]. simpl in Hheap. split; [done|].
      intros l. rewrite Hheap. destruct (decide (l ∈ pop_new)).
      * by rewrite decide_True.
      * rewrite decide_False; [done|]. tauto.
    + clear Hev. intros pre x [] s [] s' [Ht Hheap] Hbody.
      apply evaluate_Some in Hbody as (a & Ha & ->). split.
      * simpl. rewrite Ht at 2. reflexivity.
      * intros l. simpl. destruct (decide (l = x)) as [->|Hne].
        -- rewrite lookup_insert_eq, decide_True by (apply elem_of_app; right; left).
           rewrite Hheap in Ha. destruct (decide (x ∈ pre)).
           ++ destruct (heap t !! x) as [a1|]; [|done]. simpl in *.
              injection Ha as <-. done.
           ++ by rewrite Ha.
        -- rewrite lookup_insert_ne by done. rewrite Hheap.
           destruct (decide (l ∈ pre)) as [Hin|Hnin].
           ++ rewrite decide_True; [done|]. apply elem_of_app. by left.
           ++ rewrite decide_False; [done|]. intros Hin.
              apply elem_of_app in Hin as [?|Hin]; [done|].
              apply list_elem_of_singleton in Hin. done.
    + split; [by destruct t|]. intros l. by rewrite decide_False by apply not_elem_of_nil.
  - apply ST_ret_Some in Hev as [_ <-]. split; [by destruct t|].
    intros l. rewrite decide_False; [done|]. intros [_ ?]. done.
Qed.

(** The batch evaluation finishes when every agent of the batch is in the
    store. *)
Lemma update_target_total (pop_new : list loc) t :
  Forall (λ l, is_Some (heap t !! l)) pop_new →
  ∃ t', update_target_for_population get_target pop_new t = Some (pop_new, t').
Proof.
  intros Hall. unfold update_target_for_population.
  unfold mbind at 1, ST_bind at 1, get. cbv beta iota.
  destruct (in_AVAILABLE_MODES (mode t)); [|by eexists].
  destruct (for_each_total (λ (_ : list loc) (_ : unit) s,
              ∀ l, is_Some (heap t !! l) → is_Some (heap s !! l))
              pop_new (λ l _, evaluate get_target l)) with (pre := @nil loc) (acc := tt) (s := t)
    as ([] & t' & Hrun & _).
  - intros pre x [] s Hinv Hx. rewrite Forall_forall in Hall.
    destruct (Hinv x (Hall x Hx)) as [a Ha].
    eexists tt, _. split; [apply evaluate_Some; by exists a|].
    intros l Hl. simpl. destruct (decide (l = x)) as [->|Hne].
    + rewrite lookup_insert_eq. by eexists.
    + rewrite lookup_insert_ne by done. by apply Hinv.
  - done.
  - exists t'. unfold mbind, ST_bind. by rewrite Hrun.
Qed.

(** Lines 122-124 finish when every agent to be merged has a fitness, the
    elite is in the store and the trimmed population is not empty. *)
Lemma merge_and_keep_elite_eq (pop_new : list loc) s (keys : list num) (a : Agent) :
  Forall2 (λ l f, ∃ a (tg : Target), heap s !! l = Some a ∧ target a = Some tg ∧ f = fitness tg)
          (pop s ++ pop_new) keys →
  heap s !! g_best s = Some a →
  take (Z.to_nat (pop_size s))
    (sort_ranked (minmax (problem s)) (zip keys (pop s ++ pop_new))).*2 ≠ [] →
  merge_and_keep_elite pop_new s
  = Some (tt,
      set_pop (<[(length (take (Z.to_nat (pop_size s))
                    (sort_ranked (minmax (problem s)) (zip keys (pop s ++ pop_new))).*2) - 1)%nat
                 := fresh (dom (heap s))]>
               (take (Z.to_nat (pop_size s))
                  (sort_ranked (minmax (problem s)) (zip keys (pop s ++ pop_new))).*2))
        (set_heap (<[fresh (dom (heap s)) := a]> (heap s)) s)).
Proof.
  intros Hkeys Ha Hne.
  set (merged := take (Z.to_nat (pop_size s))
                   (sort_ranked (minmax (problem s)) (zip keys (pop s ++ pop_new))).*2) in *.
  unfold merge_and_keep_elite.
  unfold mbind at 1, ST_bind at 1, get. cbv beta iota.
  erewrite ST_bind_eq.
  2: { unfold get_sorted_and_trimmed_population.
       erewrite ST_bind_eq; [|by apply mapM_fitness_of_total]. reflexivity. }
  fold merged.
  unfold mbind at 1, ST_bind at 1, modify. cbv beta iota.
  erewrite ST_bind_eq.
  2: { unfold Agent_copy. erewrite ST_bind_eq; [|by apply deref_Some].
       by apply alloc_Some. }
  unfold mbind at 1, ST_bind at 1, get. cbv beta iota.
  erewrite ST_bind_try.
  2: { unfold py_setitem, np_index. simpl.
       rewrite decide_True; [reflexivity|].
       destruct merged; [done|]. simpl. lia. }
  simpl.
  replace (Z.to_nat (Z.of_nat (length merged) + -1)) with (length merged - 1)%nat by lia.
  reflexivity.
Qed.

End Tail_total.

(** ** Loops side by side *)

(** Two loops over the same items whose bodies keep a relation between the
    two runs: if the first finishes, so does the second, in related
    states. *)
Lemma for_each_sim {S A B1 B2} (R : B1 → S → B2 → S → Prop) (xs : list A)
    (body1 : A → B1 → ST S B1) (body2 : A → B2 → ST S B2) :
  (∀ x a1 t1 a2 t2 a1' t1',
     R a1 t1 a2 t2 → body1 x a1 t1 = Some (a1', t1') →
     ∃ a2' t2', body2 x a2 t2 = Some (a2', t2') ∧ R a1' t1' a2' t2') →
  ∀ a1 t1 a2 t2 r1 t1',
    R a1 t1 a2 t2 → for_each xs body1 a1 t1 = Some (r1, t1') →
    ∃ r2 t2', for_each xs body2 a2 t2 = Some (r2, t2') ∧ R r1 t1' r2 t2'.
Proof.
  intros Hbody. induction xs as [|x xs IH]; intros a1 t1 a2 t2 r1 t1' HR H; simpl in *.
  - apply ST_ret_Some in H as [<- <-]. by exists a2, t2.
  - apply ST_bind_Some in H as (b1 & u1 & H1 & H).
    destruct (Hbody _ _ _ _ _ _ _ HR H1) as (b2 & u2 & H2 & HR').
    destruct (IH _ _ _ _ _ _ HR' H) as (r2 & t2' & Hrun & HR'').
    exists r2, t2'. split; [|done]. by rewrite (ST_bind_eq _ _ _ _ _ H2).
Qed.

Lemma zip_fmap_fst {A B C} (ks : list A) (pp : list (B * C)) :
  zip ks pp.*1 = prod_map id fst <$> zip ks pp.
Proof.
  revert pp. induction ks as [|k ks IH]; intros [|[b c] pp]; simpl; [done..|].
  by rewrite IH.
Qed.

Lemma zip_fmap_snd {A B C} (ks : list A) (pp : list (B * C)) :
  zip ks pp.*2 = prod_map id snd <$> zip ks pp.
Proof.
  revert pp. induction ks as [|k ks IH]; intros [|[b c] pp]; simpl; [done..|].
  by rewrite IH.
Qed.

(** Sorting and trimming two lists on the same keys picks the same slots
    of both. *)
Lemma sorted_trimmed_pairs {B C} (d : direction) (n : nat) (keys : list num)
    (pp : list (B * C)) :
  take n (sort_ranked d (zip keys pp.*1)).*2
    = (take n (sort_ranked d (zip keys pp)).*2).*1 ∧
  take n (sort_ranked d (zip keys pp.*2)).*2
    = (take n (sort_ranked d (zip keys pp)).*2).*2.
Proof.
  rewrite zip_fmap_fst, zip_fmap_snd, !sort_ranked_fmap, !fmap_take.
  rewrite <- !list_fmap_compose. split; f_equal; by apply list_fmap_ext.
Qed.

Section Keys.
Context {G : Type}.

Lemma fits_paired (t1 t2 : Optimizer G) (pp : list (loc * loc)) (keys : list num) :
  paired t1 t2 pp →
  Forall2 (λ l f, ∃ a tg, heap t1 !! l = Some a ∧ target a = Some tg ∧ f = fitness tg)
          pp.*1 keys →
  Forall2 (λ l f, ∃ a tg, heap t2 !! l = Some a ∧ target a = Some tg ∧ f = fitness tg)
          pp.*2 keys.
Proof.
  intros Hp H. apply Forall2_fmap_l in H. apply Forall2_fmap_l.
  apply Forall2_same_length_lookup. split; [by eapply Forall2_length|].
  intros i [l1 l2] f Hi Hf.
  destruct (Forall2_lookup_lr _ _ _ _ _ _ H Hi Hf) as (a & tg & Ea & Et & ->).
  eapply Forall_lookup_1 in Hp as (a' & E1 & E2); [|exact Hi]. simpl in *.
  exists a, tg. split; [congruence|done].
Qed.

End Keys.

Section Loop_sim.
Context {G : Type}.
Context (gen_random : G → Q * G) (roulette : direction → list num → G → Z * G).
Context (correct_solution : Problem → list num → list num).
Context (get_target : list num → Target).
Implicit Types (s t : Optimizer G).

(** The loop of [evolve] in two runs whose slots pair up: the new agents
    pair up as well. *)
Lemma loop_sim (v : variant) (epoch : Z) s1 s2 (fits : list num)
    (pairs0 : list (loc * loc)) (pn1 : list loc) t1 :
  same_config s1 s2 →
  pop s1 = pairs0.*1 → pop s2 = pairs0.*2 →
  paired s1 s2 pairs0 → paired s1 s2 [(g_best s1, g_best s2)] →
  for_each (range (pop_size s1))
    (new_agent gen_random roulette correct_solution get_target v epoch s1 fits) [] s1
    = Some (pn1, t1) →
  ∃ pn2 t2 accp,
    for_each (range (pop_size s2))
      (new_agent gen_random roulette correct_solution get_target v epoch s2 fits) [] s2
      = Some (pn2, t2) ∧
    pn1 = accp.*1 ∧ pn2 = accp.*2 ∧ same_config t1 t2 ∧ paired t1 t2 accp.
Proof.
  intros Hc Hp1 Hp2 Hpairs Hg H.
  assert (Hps : pop_size s1 = pop_size s2) by apply Hc.
  assert (Hpr : problem s1 = problem s2) by apply Hc.
  assert (Hm : mode s1 = mode s2) by apply Hc.
  rewrite <- Hps.
  apply (for_each_sim
           (λ acc1 u1 acc2 u2,
              ∃ accp, acc1 = accp.*1 ∧ acc2 = accp.*2 ∧ same_config u1 u2 ∧
                      heap s1 ⊆ heap u1 ∧ heap s2 ⊆ heap u2 ∧ paired u1 u2 accp)
           _ _ (new_agent gen_random roulette correct_solution get_target v epoch s2 fits))
    with (a2 := []) (t2 := s2) in H.
  - destruct H as (pn2 & t2 & Hrun & accp & E1 & E2 & Hc' & _ & _ & Hp').
    by exists pn2, t2, accp.
  - clear H. intros idx acc1 u1 acc2 u2 acc1' u1' (accp & -> & -> & Hcu & Hs1 & Hs2 & Hpu) H.
    pose proof H as H'. unfold new_agent in H'.
    apply ST_bind_Some in H' as (pos & tp1 & Hpos & _).
    rewrite (new_agent_eq gen_random roulette correct_solution get_target
               v epoch s1 fits idx accp.*1 u1 pos tp1 Hpos) in H.
    injection H as <- <-.
    destruct (new_position_sim gen_random roulette correct_solution
                v epoch s1 s2 fits idx u1 u2 pairs0 pos tp1 Hcu Hpr Hp1 Hp2
                (paired_weaken _ _ _ _ _ Hs1 Hs2 Hpairs)
                (paired_weaken _ _ _ _ _ Hs1 Hs2 Hg) Hpos) as (g & -> & Hpos2).
    eexists _, _. split; [by apply new_agent_eq|]. simpl.
    pose proof (fresh_None u1) as Hf1. pose proof (fresh_None u2) as Hf2.
    exists (accp ++ [(fresh (dom (heap u1)), fresh (dom (heap u2)))]).
    rewrite !fmap_app. simpl.
    split; [done|]. split; [done|].
    split; [by apply same_config_set_heap, same_config_set_generator|].
    split; [etrans; [exact Hs1|]; by apply insert_subseteq|].
    split; [etrans; [exact Hs2|]; by apply insert_subseteq|].
    apply Forall_app. split.
    + eapply paired_weaken; [| |exact Hpu]; simpl; by apply insert_subseteq.
    + constructor; [|constructor]. eexists. simpl. rewrite !lookup_insert_eq, Hm. done.
  - exists []. split; [done|]. split; [done|]. split; [done|]. split; [done|]. split; [done|constructor].
Qed.

End Loop_sim.

(** ** A generation side by side *)

Section Evolve_sim.
Context {G : Type}.
Context (gen_random : G → Q * G) (roulette : direction → list num → G → Z * G).
Context (correct_solution : Problem → list num → list num).
Context (get_target : list num → Target).
Implicit Types (s t : Optimizer G).

(** A generation run on two well-formed optimizers with equal views: if
    the first run finishes so does the second, and the views are equal
    again. *)
Lemma evolve_sim (v : variant) (epoch : Z) s1 s2 (u : unit) s1' :
  well_formed s1 → view s1 = view s2 →
  evolve gen_random roulette correct_solution get_target v epoch s1 = Some (u, s1') →
  ∃ s2',
    evolve gen_random roulette correct_solution get_target v epoch s2 = Some (u, s2') ∧
    view s1' = view s2' ∧ well_formed s1'.
Proof.
  intros Hwf Hv H.
  destruct (view_paired _ _ Hwf Hv) as (Hc & Hp0 & E1 & E2 & Hg0).
  set (pairs0 := zip (pop s1) (pop s2)) in *.
  rewrite evolve_unfold in H. rewrite evolve_unfold. unfold evolve_loop in *.
  apply ST_bind_Some in H as (sa & sb & Hget & H). apply get_Some in Hget as [-> ->].
  apply ST_bind_Some in H as (fits & s0 & Hf & H).
  apply mapM_fitness_of_Some in Hf as [-> Hf1].
  apply ST_bind_Some in H as (pn1 & t1 & Hloop1 & H).
  apply ST_bind_Some in H as (out & t1u & Hup1 & Hm1).
  pose proof (loop_Some _ _ _ _ _ _ _ _ _ _ Hloop1) as (Ht1 & Hsub1 & _ & _ & Hall1).
  destruct (loop_sim gen_random roulette correct_solution get_target v epoch s1 s2 fits
              pairs0 pn1 t1 Hc (eq_sym E1) (eq_sym E2) Hp0 Hg0 Hloop1)
    as (pn2 & t2 & accp & Hloop2 & -> & -> & Hct & Hpt).
  pose proof (loop_Some _ _ _ _ _ _ _ _ _ _ Hloop2) as (Ht2 & Hsub2 & _ & _ & Hall2).
  apply update_target_heap in Hup1 as (-> & Hfr1 & Hh1).
  destruct (update_target_total get_target accp.*2 t2) as [t2u Hup2].
  { eapply Forall_impl; [exact Hall2|]. intros l (_ & temp & _ & E). by eexists. }
  pose proof (update_target_heap _ _ _ _ _ Hup2) as (_ & Hfr2 & Hh2).
  apply touched_fields in Ht1 as (Fe1 & Fps1 & Fsf1 & Fpr1 & Fm1 & Fp1 & Fg1).
  apply touched_fields in Ht2 as (Fe2 & Fps2 & Fsf2 & Fpr2 & Fm2 & Fp2 & Fg2).
  assert (Hcu : same_config t1u t2u).
  { rewrite Hfr1, Hfr2. by apply same_config_set_heap. }
  assert (Hstep : ∀ l1 l2 a,
            heap t1 !! l1 = Some a → heap t2 !! l2 = Some a →
            (l1 ∈ accp.*1 ↔ l2 ∈ accp.*2) →
            ∃ a', heap t1u !! l1 = Some a' ∧ heap t2u !! l2 = Some a').
  { intros l1 l2 a Ea1 Ea2 Hiff. rewrite Hh1, Hh2, Ea1, Ea2.
    assert (Hm : mode t1 = mode t2) by apply Hct. rewrite <- Hm.
    destruct (in_AVAILABLE_MODES (mode t1)).
    - destruct (decide (l1 ∈ accp.*1)) as [Hin|Hnin].
      + rewrite !decide_True by tauto. by eexists.
      + rewrite !decide_False by tauto. by eexists.
    - rewrite !decide_False by (intros [_ ?]; done). by eexists. }
  assert (Hold : ∀ l1 l2 a,
            heap s1 !! l1 = Some a → heap s2 !! l2 = Some a →
            ∃ a', heap t1u !! l1 = Some a' ∧ heap t2u !! l2 = Some a').
  { intros l1 l2 a Ea1 Ea2.
    apply (Hstep l1 l2 a); [by eapply lookup_weaken|by eapply lookup_weaken|].
    rewrite Forall_forall in Hall1, Hall2. split; intros Hin.
    - destruct (Hall1 _ Hin) as [E _]. congruence.
    - destruct (Hall2 _ Hin) as [E _]. congruence. }
  assert (Hpu : paired t1u t2u (pairs0 ++ accp)).
  { apply Forall_app. split.
    - eapply Forall_impl; [exact Hp0|]. intros [l1 l2] (a & Ea1 & Ea2). by eapply Hold.
    - apply Forall_forall. intros [l1 l2] Hin.
      unfold paired in Hpt. rewrite Forall_forall in Hpt.
      destruct (Hpt _ Hin) as (a & Ea1 & Ea2).
      apply (Hstep l1 l2 a); [done|done|].
      split; intros _; apply list_elem_of_fmap; by exists (l1, l2). }
  assert (Hgu : ∃ a', heap t1u !! g_best s1 = Some a' ∧ heap t2u !! g_best s2 = Some a').
  { apply Forall_cons in Hg0 as [(a & Ea1 & Ea2) _]. by eapply Hold. }
  apply merge_and_keep_elite_Some in Hm1 as (keys & merged1 & a & Hkeys1 & Hmd1 & Hne1 & Ha1 & ->).
  assert (Fu1 : pop t1u = pairs0.*1 ∧ g_best t1u = g_best s1).
  { rewrite Hfr1. simpl. split; congruence. }
  assert (Fu2 : pop t2u = pairs0.*2 ∧ g_best t2u = g_best s2).
  { rewrite Hfr2. simpl. split; congruence. }
  destruct Fu1 as [Fup1 Fug1]. destruct Fu2 as [Fup2 Fug2].
  rewrite Fup1, <- fmap_app in Hkeys1, Hmd1. rewrite Fug1 in Ha1.
  destruct Hgu as (a' & Eg1 & Eg2). rewrite Ha1 in Eg1. injection Eg1 as <-.
  pose proof (fits_paired _ _ _ _ Hpu Hkeys1) as Hkeys2.
  destruct (sorted_trimmed_pairs (minmax (problem t1u)) (Z.to_nat (pop_size t1u)) keys
              (pairs0 ++ accp)) as [Em1 Em2].
  set (mm := take (Z.to_nat (pop_size t1u))
               (sort_ranked (minmax (problem t1u)) (zip keys (pairs0 ++ accp))).*2) in *.
  rewrite Em1 in Hmd1. subst merged1.
  assert (Hmm : mm ≠ []) by (intros E; apply Hne1; by rewrite E).
  assert (Hcfg : minmax (problem t2u) = minmax (problem t1u) ∧ pop_size t2u = pop_size t1u).
  { destruct Hcu as (_ & Hps & _ & Hpr & _). by rewrite Hps, Hpr. }
  destruct Hcfg as [Hd Hps].
  pose proof (merge_and_keep_elite_eq accp.*2 t2u keys a) as Hm2.
  rewrite Fup2, <- fmap_app, Fug2, Hd, Hps, Em2 in Hm2.
  specialize (Hm2 Hkeys2 Eg2 ltac:(intros E; apply Hmm; by destruct mm)).
  eexists. split.
  { unfold mbind at 1, ST_bind at 1, get. cbv beta iota.
    erewrite ST_bind_eq.
    2: { apply mapM_fitness_of_total. rewrite <- E2.
         eapply fits_paired; [exact Hp0|]. by rewrite E1. }
    rewrite (ST_bind_eq _ _ _ _ _ Hloop2), (ST_bind_eq _ _ _ _ _ Hup2).
    destruct u. exact Hm2. }
  rewrite !length_fmap.
  pose proof (fresh_None t1u) as Hfr1'. pose proof (fresh_None t2u) as Hfr2'.
  apply (paired_view _ _ (<[(length mm - 1)%nat :=
                              (fresh (dom (heap t1u)), fresh (dom (heap t2u)))]> mm)).
  - by apply same_config_set_heap.
  - simpl. by rewrite list_fmap_insert.
  - simpl. by rewrite list_fmap_insert.
  - apply Forall_insert.
    + eapply paired_weaken; [| |]; [simpl; by apply insert_subseteq..|].
      apply Forall_forall. intros lp Hlp. unfold paired in Hpu.
      rewrite Forall_forall in Hpu. apply Hpu.
      apply elem_of_take in Hlp as (i & Hi & _).
      apply list_elem_of_lookup_2 in Hi.
      apply list_elem_of_fmap in Hi as ([k lp'] & -> & Hi).
      rewrite (sort_ranked_perm _) in Hi.
      apply list_elem_of_lookup in Hi as [j Hj].
      apply lookup_zip_with_Some in Hj as (k' & lp'' & [= <- <-] & _ & Hj).
      by eapply list_elem_of_lookup_2.
    + exists a. simpl. by rewrite !lookup_insert_eq.
  - constructor; [|constructor]. exists a. simpl. rewrite Fug1, Fug2.
    rewrite !lookup_insert_ne; [done| |]; intros E; congruence.
Qed.

End Evolve_sim.

(** ** Generations side by side *)

Section Generations_sim.
Context {G : Type}.
Context (gen_random : G → Q * G) (roulette : direction → list num → G → Z * G).
Context (correct_solution : Problem → list num → list num).
Context (get_target : list num → Target).
Implicit Types (s t : Optimizer G).

Lemma update_global_best_sim s1 s2 (u : unit) s1' :
  well_formed s1 → view s1 = view s2 →
  update_global_best_agent s1 = Some (u, s1') →
  ∃ s2', update_global_best_agent s2 = Some (u, s2') ∧
         view s1' = view s2' ∧ well_formed s1'.
Proof.
  intros Hwf Hv H.
  destruct (view_paired _ _ Hwf Hv) as (Hc & Hp0 & E1 & E2 & Hg0).
  set (pairs0 := zip (pop s1) (pop s2)) in *.
  pose proof Hg0 as Hg0'. apply Forall_cons in Hg0' as [(ae & Ee1 & Ee2) _].
  simpl in Ee1, Ee2.
  assert (Hd : minmax (problem s1) = minmax (problem s2)).
  { destruct Hc as (_ & _ & _ & Hpr & _). by rewrite Hpr. }
  unfold update_global_best_agent in *.
  apply ST_bind_Some in H as (sa & sb & Hget & H). apply get_Some in Hget as [-> ->].
  apply ST_bind_Some in H as (keys & s0 & Hk & H).
  apply mapM_fitness_of_Some in Hk as [-> Hk1].
  assert (Hk2 : mapM fitness_of (pop s2) s2 = Some (keys, s2)).
  { apply mapM_fitness_of_total. rewrite <- E2.
    eapply fits_paired; [exact Hp0|]. by rewrite E1. }
  unfold mbind at 1, ST_bind at 1, get. cbv beta iota.
  rewrite (ST_bind_eq _ _ _ _ _ Hk2).
  rewrite <- E1, zip_fmap_fst, sort_ranked_fmap in H.
  rewrite <- E2, zip_fmap_snd, sort_ranked_fmap, <- Hd.
  destruct (sort_ranked (minmax (problem s1)) (zip keys pairs0)) as [|[f [l1 l2]] rest] eqn:Es.
  { simpl in *. apply ST_ret_Some in H as [<- <-]. by exists s2. }
  assert (Hin : (l1, l2) ∈ pairs0).
  { assert (Hin' : (f, (l1, l2)) ∈ zip keys pairs0).
    { rewrite <- (sort_ranked_perm (minmax (problem s1))), Es. left. }
    apply list_elem_of_lookup in Hin' as [j Hj].
    apply lookup_zip_with_Some in Hj as (k' & lp & [= <- <-] & _ & Hj).
    by eapply list_elem_of_lookup_2. }
  unfold paired in Hp0. rewrite Forall_forall in Hp0.
  destruct (Hp0 _ Hin) as (a & Ea1 & Ea2). simpl in Ea1, Ea2.
  simpl in H. simpl.
  apply ST_bind_Some in H as (fb & s0 & Hfb & H).
  apply fitness_of_Some in Hfb as [(ab & tb & Eb & Etb & ->) ->].
  rewrite Ee1 in Eb. injection Eb as <-.
  erewrite ST_bind_eq.
  2: { apply fitness_of_Some. split; [|done]. by exists ae, tb. }
  destruct (better (minmax (problem s1)) f (fitness tb)).
  - apply ST_bind_Some in H as (c & s0 & Hcopy & H). apply modify_Some in H. subst s1'.
    unfold Agent_copy in Hcopy.
    apply ST_bind_Some in Hcopy as (a1 & s3 & Ha1 & Hcopy).
    apply deref_Some in Ha1 as [Ha1 ->]. rewrite Ea1 in Ha1. injection Ha1 as <-.
    apply alloc_Some in Hcopy as [-> ->].
    eexists. split.
    { erewrite ST_bind_eq.
      2: { unfold Agent_copy. erewrite ST_bind_eq; [|by apply deref_Some].
           by apply alloc_Some. }
      destruct u. reflexivity. }
    pose proof (fresh_None s1) as Hf1. pose proof (fresh_None s2) as Hf2.
    apply (paired_view _ _ pairs0); simpl.
    + apply Hc.
    + done.
    + done.
    + eapply paired_weaken; [| |apply Forall_forall; exact Hp0]; simpl;
        by apply insert_subseteq.
    + constructor; [|constructor]. exists a. simpl. by rewrite !lookup_insert_eq.
  - apply ST_ret_Some in H as [<- <-]. by exists s2.
Qed.

Lemma generation_sim (v : variant) (epoch : Z) (trajectory out : list num) s1 s2 s1' :
  well_formed s1 → view s1 = view s2 →
  generation gen_random roulette correct_solution get_target v epoch trajectory s1
    = Some (out, s1') →
  ∃ s2',
    generation gen_random roulette correct_solution get_target v epoch trajectory s2
      = Some (out, s2') ∧
    view s1' = view s2' ∧ well_formed s1'.
Proof.
  intros Hwf Hv H. unfold generation in *.
  apply ST_bind_Some in H as (u1 & ta & He & H).
  apply ST_bind_Some in H as (u2 & tb & Hu & H).
  apply ST_bind_Some in H as (sa & sb & Hget & H). apply get_Some in Hget as [-> ->].
  apply ST_bind_Some in H as (f & tc & Hf & H).
  apply fitness_of_Some in Hf as [(a & tg & Ea & Etg & ->) ->].
  apply ST_ret_Some in H as [<- <-].
  destruct (evolve_sim _ _ _ _ _ _ _ _ _ _ Hwf Hv He) as (ta2 & He2 & Hva & Hwfa).
  destruct (update_global_best_sim _ _ _ _ Hwfa Hva Hu) as (tb2 & Hu2 & Hvb & Hwfb).
  exists tb2. split; [|done].
  rewrite (ST_bind_eq _ _ _ _ _ He2), (ST_bind_eq _ _ _ _ _ Hu2).
  unfold mbind at 1, ST_bind at 1, get. cbv beta iota.
  erewrite ST_bind_eq; [reflexivity|].
  apply fitness_of_Some. split; [|done]. exists a, tg.
  split; [|done]. unfold view in Hvb. injection Hvb as _ _ _ _ _ _ Hgb _. congruence.
Qed.

(** C8.  Take two runs of one class on well-formed optimizers with equal
    views: the same parameters, problem and mode, equal agents in the
    population and an equal elite (at whatever addresses), and generators
    in the same state.  A generation of [evolve] that finishes in the
    first run finishes in the second, and leaves equal views, in
    particular equal populations; and any number of generations of the
    generation loop give the same best-fitness trajectory and equal
    views. *)
Theorem evolve_deterministic (v : variant) s1 s2 :
  well_formed s1 → view s1 = view s2 →
  (∀ epoch s1',
     evolve gen_random roulette correct_solution get_target v epoch s1 = Some (tt, s1') →
     ∃ s2',
       evolve gen_random roulette correct_solution get_target v epoch s2 = Some (tt, s2') ∧
       view s1' = view s2') ∧
  (∀ n trajectory s1',
     generations gen_random roulette correct_solution get_target v n s1
       = Some (trajectory, s1') →
     ∃ s2',
       generations gen_random roulette correct_solution get_target v n s2
         = Some (trajectory, s2') ∧
       view s1' = view s2').
Proof.
  intros Hwf Hv. split.
  - intros epoch s1' H.
    destruct (evolve_sim _ _ _ _ _ _ _ _ _ _ Hwf Hv H) as (s2' & H2 & Hv' & _).
    by exists s2'.
  - intros n trajectory s1' H. unfold generations in *.
    apply (for_each_sim
             (λ (tr1 : list num) t1 (tr2 : list num) t2,
                tr1 = tr2 ∧ view t1 = view t2 ∧ well_formed t1)
             _ _ (generation gen_random roulette correct_solution get_target v))
      with (a2 := []) (t2 := s2) in H.
    + destruct H as (tr2 & s2' & H2 & <- & Hv' & _). by exists s2'.
    + clear H. intros epoch tr1 t1 tr2 t2 tr1' t1' (<- & Hvt & Hwft) H.
      destruct (generation_sim _ _ _ _ _ _ _ Hwft Hvt H) as (t2' & H2 & Hv' & Hwf').
      by exists tr1', t2'.
    + done.
Qed.

End Generations_sim.

Lemma demo_well_formed (T : Z) (m : Mode) (script : list Q) :
  well_formed (Demo.optimizer T m script).
Proof.
  destruct (demo_in_bounds T m script) as [Hpop (a & Ha & _)].
  split; [by eexists|].
  eapply Forall_impl; [exact Hpop|]. intros l (a' & Ha' & _). by eexists.
Qed.

Lemma evolve_deterministic_witness :
  well_formed (Demo.optimizer 10 Thread Demo.crowding) ∧
  view (Demo.optimizer 10 Thread Demo.crowding)
    = view (Demo.relocated 10 Thread Demo.crowding) ∧
  (∃ s1' s2',
     evolve Demo.script_random Demo.wheel Demo.clip Demo.sum_of_squares DevALO 1
       (Demo.optimizer 10 Thread Demo.crowding) = Some (tt, s1') ∧
     evolve Demo.script_random Demo.wheel Demo.clip Demo.sum_of_squares DevALO 1
       (Demo.relocated 10 Thread Demo.crowding) = Some (tt, s2') ∧
     pop s1' = [6; 7; 8; 9; 11]%nat ∧ pop s2' = [25; 26; 27; 28; 30]%nat ∧
     view s1' = view s2') ∧
  (∃ trajectory s1' s2',
     generations Demo.script_random Demo.wheel Demo.clip Demo.sum_of_squares DevALO 3
       (Demo.optimizer 10 Thread Demo.crowding) = Some (trajectory, s1') ∧
     generations Demo.script_random Demo.wheel Demo.clip Demo.sum_of_squares DevALO 3
       (Demo.relocated 10 Thread Demo.crowding) = Some (trajectory, s2') ∧
     view s1' = view s2').
Proof.
  assert (Hv : view (Demo.optimizer 10 Thread Demo.crowding)
               = view (Demo.relocated 10 Thread Demo.crowding))
    by (vm_compute; reflexivity).
  pose proof (evolve_deterministic Demo.script_random Demo.wheel Demo.clip
                Demo.sum_of_squares DevALO (Demo.optimizer 10 Thread Demo.crowding)
                (Demo.relocated 10 Thread Demo.crowding)
                (demo_well_formed 10 Thread Demo.crowding) Hv) as [H1 Hn].
  split; [apply demo_well_formed|]. split; [exact Hv|]. split.
  - assert (E : ∃ s1',
      evolve Demo.script_random Demo.wheel Demo.clip Demo.sum_of_squares DevALO 1
        (Demo.optimizer 10 Thread Demo.crowding) = Some (tt, s1') ∧
      pop s1' = [6; 7; 8; 9; 11]%nat)
      by (eexists; split; vm_compute; reflexivity).
    assert (E2 : ∃ s2',
      evolve Demo.script_random Demo.wheel Demo.clip Demo.sum_of_squares DevALO 1
        (Demo.relocated 10 Thread Demo.crowding) = Some (tt, s2') ∧
      pop s2' = [25; 26; 27; 28; 30]%nat)
      by (eexists; split; vm_compute; reflexivity).
    destruct E as (s1' & E & Hp1). destruct E2 as (s2' & E2 & Hp2).
    destruct (H1 1 s1' E) as (s2'' & E2' & Hv').
    rewrite E2 in E2'. injection E2' as <-.
    exists s1', s2'. split; [exact E|]. split; [exact E2|]. split; [exact Hp1|].
    split; [exact Hp2|exact Hv'].
  - assert (E : ∃ trajectory s1',
      generations Demo.script_random Demo.wheel Demo.clip Demo.sum_of_squares DevALO 3
        (Demo.optimizer 10 Thread Demo.crowding) = Some (trajectory, s1'))
      by (eexists _, _; vm_compute; reflexivity).
    destruct E as (trajectory & s1' & E). destruct (Hn 3 trajectory s1' E) as (s2' & E2 & Hv').
    exists trajectory, s1', s2'. split; [exact E|]. split; [exact E2|exact Hv'].
Defined.

(* ===================================================================== *)
(** * Further properties of the code *)
(* ===================================================================== *)

(** ** The size of the shrink ratio *)



(** ** Walks that return, and walks that raise *)

Lemma for_each_inv_elem {S A B} (I : list A → B → S → Prop) (xs : list A)
    (body : A → B → ST S B) :
  (∀ pre x acc s acc' s',
     I pre acc s → x ∈ xs → body x acc s = Some (acc', s') → I (pre ++ [x]) acc' s') →
  ∀ pre acc s res s',
    I pre acc s → for_each xs body acc s = Some (res, s') → I (pre ++ xs) res s'.
Proof.
  induction xs as [|x xs IH]; intros Hbody pre acc s res s' HI Hrun; simpl in Hrun.
  - apply ST_ret_Some in Hrun as [<- <-]. by rewrite app_nil_r.
  - apply ST_bind_Some in Hrun as (acc1 & s1 & H1 & Hrest).
    replace (pre ++ x :: xs) with ((pre ++ [x]) ++ xs) by by rewrite <- app_assoc.
    eapply IH; [| |exact Hrest].
    + intros pre' x' acc0 s0 acc' s0' HI' Hin. apply Hbody; [done|by right].
    + eapply Hbody; [exact HI|by left|exact H1].
Qed.

Lemma py_getitem_nonneg {A} (xs : list A) (k : Z) (x : A) :
  0 <= k → py_getitem xs k = Some x → xs !! Z.to_nat k = Some x.
Proof.
  intros Hk. unfold py_getitem, np_index.
  destruct (decide (0 <= k < Z.of_nat (length xs))); [done|].
  destruct (decide (- Z.of_nat (length xs) <= k < 0)); [lia|done].
Qed.

Section Draws.
Context {G : Type} (gen_random : G → Q * G).
Implicit Types (self s : Optimizer G).

Lemma draws_add (n m : nat) (g : G) :
  draws gen_random (n + m) g = draws gen_random m (draws gen_random n g).
Proof. revert g. induction n as [|n IH]; intros g; simpl; [done|apply IH]. Qed.


Lemma set_generator_draws (m : nat) (g : G) self :
  set_generator (draws gen_random m (generator (set_generator g self))) (set_generator g self)
  = set_generator (draws gen_random m g) self.
Proof. done. Qed.

Lemma random_Some self r s' :
  random gen_random self = Some (r, s') →
  s' = set_generator (draws gen_random 1 (generator self)) self.
Proof.
  unfold random. simpl. destruct (gen_random (generator self)) as [r' g]. by intros [= _ <-].
Qed.

Lemma random_n_Some (n : nat) self rs s' :
  random_n gen_random n self = Some (rs, s') →
  s' = set_generator (draws gen_random n (generator self)) self ∧ length rs = n.
Proof.
  revert self rs s'. induction n as [|n IH]; intros self rs s' H; simpl in H.
  - apply ST_ret_Some in H as [<- <-]. split; [by destruct self|done].
  - apply ST_bind_Some in H as (r & s1 & Hr & H).
    apply ST_bind_Some in H as (rs' & s2 & Hrs & H).
    apply ST_ret_Some in H as [<- <-].
    apply random_Some in Hr as ->. apply IH in Hrs as [-> <-]. done.
Qed.

Lemma raw_walk_draws (h : Z) self (X : list Z) s' :
  raw_walk gen_random h self = Some (X, s') →
  0 <= h ∧
  s' = set_generator (draws gen_random (Z.to_nat h) (generator self)) self ∧
  ∃ rs, X = cumsum (step <$> rs) ∧ length rs = Z.to_nat h.
Proof.
  unfold raw_walk, random_array. intros H.
  apply ST_bind_Some in H as (rs & s1 & Hrs & H).
  apply ST_ret_Some in H as [<- <-].
  apply ST_bind_Some in Hrs as (u & s0 & Hreq & Hrs).
  apply require_Some in Hreq as [Hh ->].
  apply random_n_Some in Hrs as [-> Hlen]. split; [done|]. split; [done|]. by exists rs.
Qed.

Lemma recentred_bounds_draws (solution : list num) (t : Z) self (lbs ubs : list num) s' :
  recentred_bounds gen_random solution t self = Some ((lbs, ubs), s') →
  s' = set_generator (draws gen_random 2 (generator self)) self.
Proof.
  unfold recentred_bounds. intros H. repeat st_step. subst.
  repeat match goal with
         | H : random _ _ = Some _ |- _ => apply random_Some in H
         end.
  subst. done.
Qed.

(** A walk of [OriginalALO] that returns: every row is a raw walk of
    [self.epoch] steps, normalised onto its entry of the recentred bounds,
    and the generator has moved by the two draws of the recentring and
    [self.epoch] draws for every row. *)
Lemma OriginalALO_walk_Some (solution : list num) (t : Z) self self' (M : matrix) :
  OriginalALO_random_walk_antlion__ gen_random solution t self = Some (M, self') →
  ∃ lbs ubs s0,
    recentred_bounds gen_random solution t self = Some ((lbs, ubs), s0) ∧
    Forall2 (walk_row OriginalALO (epoch self) lbs ubs) (seq 0 (n_dims (problem self))) M ∧
    (n_dims (problem self) ≠ 0%nat → 0 <= epoch self) ∧
    self' = set_generator
              (draws gen_random (2 + n_dims (problem self) * Z.to_nat (epoch self))
                 (generator self)) self.
Proof.
  unfold OriginalALO_random_walk_antlion__. intros H.
  apply ST_bind_Some in H as ([lbs ubs] & s1 & Hb & H).
  exists lbs, ubs, s1. split; [done|].
  apply recentred_bounds_draws in Hb. subst s1.
  apply ST_bind_Some in H as (s1' & s1'' & Hget & H).
  apply get_Some in Hget as [-> ->].
  change (problem (set_generator _ self)) with (problem self) in H.
  change (epoch (set_generator _ self)) with (epoch self) in H.
  set (h := Z.to_nat (epoch self)).
  apply (for_each_inv_elem (λ (pre : list Z) (acc : matrix) s,
           s = set_generator (draws gen_random (2 + length pre * h) (generator self)) self ∧
           Forall2 (λ k row, ∃ i : nat, k = Z.of_nat i ∧
                      walk_row OriginalALO (epoch self) lbs ubs i row) pre acc ∧
           (pre ≠ [] → 0 <= epoch self)) _ _)
    with (pre := []) in H.
  - destruct H as (-> & HM & Hh). cbn [app] in *.
    rewrite range_length, Nat2Z.id. split; [|split; [|done]].
    + unfold range in HM. rewrite Nat2Z.id in HM. apply Forall2_fmap_l in HM.
      eapply Forall2_impl; [exact HM|].
      intros i row (j & Hj & Hrow). apply Nat2Z.inj in Hj. by subst.
    + intros Hn. apply Hh. unfold range. rewrite Nat2Z.id.
      destruct (n_dims (problem self)); done.
  - intros pre k acc s acc' s' (-> & Hacc & _) Hk Hbody.
    apply elem_of_range in Hk.
    apply ST_bind_Some in Hbody as (X & s2 & HX & Hbody).
    apply raw_walk_draws in HX as (Hh & -> & rs & -> & Hrs).
    apply ST_bind_Some in Hbody as (a & s3 & Ha & Hbody). apply try_Some in Ha as [Ha <-].
    apply ST_bind_Some in Hbody as (b & s3 & Hb & Hbody). apply try_Some in Hb as [Hb <-].
    apply ST_bind_Some in Hbody as (c & s3 & Hc & Hbody). apply try_Some in Hc as [Hc <-].
    apply ST_bind_Some in Hbody as (d & s3 & Hd & Hbody). apply try_Some in Hd as [Hd <-].
    apply ST_ret_Some in Hbody as [<- <-].
    split; [|split; [|done]].
    + rewrite set_generator_draws, <- draws_add, length_app. do 2 f_equal. simpl. fold h. lia.
    + apply Forall2_app; [done|]. constructor; [|constructor].
      exists (Z.to_nat k). split; [lia|].
      exists rs, a, b, c, d.
      split; [done|]. split; [done|]. split; [done|].
      split; [apply py_getitem_nonneg; [lia|done]|].
      split; [apply py_getitem_nonneg; [lia|done]|done].
  - split; [done|]. split; [constructor|done].
Qed.


(** A walk of [DevALO] that returns: the problem has a dimension, the
    population size is positive, every row has [self.pop_size] entries, and
    the generator has moved by the two draws of the recentring and
    [self.pop_size] draws for every row. *)
Lemma DevALO_walk_Some (solution : list num) (t : Z) self self' (M : matrix) :
  DevALO_random_walk_antlion__ gen_random solution t self = Some (M, self') →
  n_dims (problem self) ≠ 0%nat ∧ 1 <= pop_size self ∧
  has_shape M (n_dims (problem self)) (Z.to_nat (pop_size self)) ∧
  self' = set_generator
            (draws gen_random (2 + n_dims (problem self) * Z.to_nat (pop_size self))
               (generator self)) self.
Proof.
  unfold DevALO_random_walk_antlion__. intros H.
  apply ST_bind_Some in H as ([lbs ubs] & s1 & Hb & H).
  apply recentred_bounds_draws in Hb. subst s1.
  apply ST_bind_Some in H as (s1' & s1'' & Hget & H).
  apply get_Some in Hget as [-> ->].
  change (problem (set_generator _ self)) with (problem self) in H.
  change (pop_size (set_generator _ self)) with (pop_size self) in H.
  cbv zeta in H.
  set (h := Z.to_nat (pop_size self)).
  apply ST_bind_Some in H as (X & s2 & Hloop & H).
  apply (for_each_inv (λ (pre : list Z) (acc : list (list Z)) s,
           s = set_generator (draws gen_random (2 + length pre * h) (generator self)) self ∧
           length acc = length pre ∧
           Forall (λ row, length row = h) acc) _ _)
    with (pre := []) in Hloop.
  - destruct Hloop as (-> & HlenX & Hrows). cbn [app] in *.
    rewrite range_length, Nat2Z.id in *.
    apply ST_bind_Some in H as (u & s3 & Hreq & H). apply require_Some in Hreq as [Hn ->].
    apply ST_bind_Some in H as (a & s3 & Ha & H). apply try_Some in Ha as [Ha <-].
    apply ST_bind_Some in H as (b & s3 & Hb & H). apply try_Some in Hb as [Hb <-].
    apply ST_bind_Some in H as (w & s3 & Hw & H). apply try_Some in Hw as [Hw <-].
    apply ST_bind_Some in H as (ratio & s3 & Hr & H). apply try_Some in Hr as [Hr <-].
    apply ST_bind_Some in H as (u1 & s3 & Hreq & H). apply require_Some in Hreq as [Hlr ->].
    apply ST_bind_Some in H as (u2 & s3 & Hreq & H). apply require_Some in Hreq as [Hll ->].
    apply ST_ret_Some in H as [<- <-].
    pose proof (Forall2_length _ _ _ (mapM_Some_1 _ _ _ Ha)) as Hla.
    split; [done|]. split; [|split; [split|done]].
    + destruct X as [|row X]; [simpl in HlenX; lia|].
      apply Forall_cons in Hrows as [Hrow _].
      apply mapM_Some_1 in Ha. apply Forall2_cons_inv_l in Ha as (a0 & ? & Ha0 & _).
      destruct row; [done|]. simpl in Hrow. lia.
    + rewrite length_zip_with, !length_zip_with. lia.
    + apply Forall_forall. intros row Hrow.
      apply list_elem_of_lookup in Hrow as [i Hi].
      apply lookup_zip_with_Some in Hi as (raw & [[a_k t_k] lb_k] & -> & Hraw & _).
      rewrite length_fmap. rewrite Forall_forall in Hrows. apply Hrows.
      by eapply list_elem_of_lookup_2.
  - intros pre k acc s acc' s' (-> & Hlen & Hrows) Hbody.
    apply ST_bind_Some in Hbody as (row & s2' & HX & Hbody).
    apply raw_walk_draws in HX as (Hh & -> & rs & -> & Hrs).
    apply ST_ret_Some in Hbody as [<- <-].
    split; [|split].
    + rewrite set_generator_draws, <- draws_add, length_app. do 2 f_equal. simpl. fold h. lia.
    + rewrite !length_app. simpl. lia.
    + apply Forall_app. split; [done|]. constructor; [|done].
      by rewrite cumsum_length, length_fmap.
  - split; [done|]. split; [done|constructor].
Qed.

(** A walk of [OriginalALO] that returns on a problem with a dimension:
    the maximum epoch is positive and the matrix has [self.epoch]
    columns. *)
Lemma OriginalALO_walk_shape (solution : list num) (t : Z) self self' (M : matrix) :
  OriginalALO_random_walk_antlion__ gen_random solution t self = Some (M, self') →
  (n_dims (problem self) ≠ 0%nat → 1 <= epoch self) ∧
  has_shape M (n_dims (problem self)) (Z.to_nat (epoch self)).
Proof.
  intros H. apply OriginalALO_walk_Some in H as (lbs & ubs & s0 & _ & HM & _ & _).
  split; [|split].
  - intros Hn. destruct (n_dims (problem self)) as [|n]; [done|].
    simpl in HM. apply Forall2_cons_inv_l in HM as (row & M' & Hrow & _ & _).
    destruct Hrow as (rs & a & b & c & d & Hrs & Ha & _).
    destruct rs as [|r rs]; [done|]. simpl in Hrs. lia.
  - apply Forall2_length in HM. by rewrite length_seq in HM.
  - apply Forall_forall. intros row Hrow.
    apply list_elem_of_lookup in Hrow as [i Hi].
    destruct (Forall2_lookup_r _ _ _ _ _ HM Hi) as (k & _ & Hk).
    by eapply walk_row_length.
Qed.


Lemma broadcast2_mismatch (f : num → num → num) (xs ys : list num) :
  length xs ≠ length ys → length xs ≠ 1%nat → length ys ≠ 1%nat →
  broadcast2 f xs ys = None.
Proof.
  intros H H1 H2. unfold broadcast2. rewrite decide_False by done.
  destruct xs as [|x [|x' xs]]; [|done|]; destruct ys as [|y [|y' ys]]; done.
Qed.

(** The recentring raises when the reference solution cannot be broadcast
    against the bounds. *)
Lemma recentred_bounds_mismatch (solution : list num) (t : Z) self :
  length solution ≠ n_dims (problem self) → length solution ≠ 1%nat →
  n_dims (problem self) ≠ 1%nat →
  recentred_bounds gen_random solution t self = None.
Proof.
  intros H H1 Hn.
  destruct (recentred_bounds _ _ _ _) as [[[lbs ubs] s0]|] eqn:E; [|done]. exfalso.
  unfold recentred_bounds in E.
  apply ST_bind_Some in E as (s1 & s1' & Hget & E). apply get_Some in Hget as [-> ->].
  apply ST_bind_Some in E as (I & s1 & HI & E). apply try_Some in HI as [HI <-].
  apply ST_bind_Some in E as (r & s1 & Hr & E).
  apply ST_bind_Some in E as (lb' & s2 & Hlb & _). apply try_Some in Hlb as [Hlb _].
  unfold n_dims in *.
  destruct (Qltb r 0.5); rewrite broadcast2_mismatch in Hlb; try done;
    rewrite ?length_fmap; congruence.
Qed.

(** X8.  A walk that returns has drawn from the generator exactly twice for
    the recentring and once for every entry of the matrix, and has changed
    nothing else of [self]: the state after it is [self] with the generator
    moved by [2 + n_dims * horizon] draws, where the horizon is
    [self.epoch] for [OriginalALO] and [self.pop_size] for [DevALO]. *)
Theorem random_walk_draws (v : variant) (solution : list num) (t : Z) self self'
    (M : matrix) :
  random_walk_antlion__ gen_random v solution t self = Some (M, self') →
  self' = set_generator
            (draws gen_random (2 + n_dims (problem self) * Z.to_nat (horizon v self))
               (generator self)) self.
Proof.
  destruct v; simpl; intros H.
  - by apply OriginalALO_walk_Some in H as (lbs & ubs & s0 & _ & _ & _ & ->).
  - by apply DevALO_walk_Some in H as (_ & _ & _ & ->).
Qed.

(** X9.  The walk raises when its horizon is empty: on a problem with at
    least one dimension, [OriginalALO] needs [1 <= self.epoch] and [DevALO]
    needs [1 <= self.pop_size], since [np.min] has no value on an empty
    walk (and a negative size is refused by the generator). *)
Theorem random_walk_empty_horizon (v : variant) (solution : list num) (t : Z) self :
  n_dims (problem self) ≠ 0%nat → horizon v self <= 0 →
  random_walk_antlion__ gen_random v solution t self = None.
Proof.
  intros Hn Hh.
  destruct (random_walk_antlion__ _ _ _ _ _) as [[M self']|] eqn:H; [|done]. exfalso.
  destruct v; simpl in *.
  - apply OriginalALO_walk_shape in H as [H _]. specialize (H Hn). lia.
  - apply DevALO_walk_Some in H as (_ & H & _). lia.
Qed.

(** X10.  The walk raises when the reference solution does not have one
    entry per dimension and cannot be broadcast either (neither it nor the
    bounds have length one): [lb + solution] is a shape error. *)
Theorem random_walk_shape_mismatch (v : variant) (solution : list num) (t : Z) self :
  length solution ≠ n_dims (problem self) → length solution ≠ 1%nat →
  n_dims (problem self) ≠ 1%nat →
  random_walk_antlion__ gen_random v solution t self = None.
Proof.
  intros H H1 Hn.
  pose proof (recentred_bounds_mismatch solution t self H H1 Hn) as E.
  destruct v; simpl.
  - unfold OriginalALO_random_walk_antlion__, mbind at 1, ST_bind at 1. by rewrite E.
  - unfold DevALO_random_walk_antlion__, mbind at 1, ST_bind at 1. by rewrite E.
Qed.

End Draws.

(** ** What a generation keeps *)

Lemma NoDup_insert_fresh {A} (xs : list A) (i : nat) (x : A) :
  NoDup xs → x ∉ xs → NoDup (<[i := x]> xs).
Proof.
  intros Hnd Hx. destruct (decide (i < length xs)%nat) as [Hi|Hi].
  - apply NoDup_alt. intros j k y Hj Hk.
    destruct (decide (j = i)) as [->|Hji]; destruct (decide (k = i)) as [->|Hki]; [done| | |].
    + rewrite list_lookup_insert_eq in Hj by done. injection Hj as <-.
      rewrite list_lookup_insert_ne in Hk by done.
      exfalso. apply Hx. by eapply list_elem_of_lookup_2.
    + rewrite list_lookup_insert_eq in Hk by done. injection Hk as <-.
      rewrite list_lookup_insert_ne in Hj by done.
      exfalso. apply Hx. by eapply list_elem_of_lookup_2.
    + rewrite list_lookup_insert_ne in Hj, Hk by done. by eapply NoDup_lookup.
  - by rewrite list_insert_ge by lia.
Qed.

Section Evolve_invariants.
Context {G : Type}.
Context (gen_random : G → Q * G) (roulette : direction → list num → G → Z * G).
Context (correct_solution : Problem → list num → list num).
Context (get_target : list num → Target).
Implicit Types (self s : Optimizer G).

(** The slots of the population after a generation: the merge of old and
    new agents, every one of them an object of the store before the copy of
    the elite is made. *)
Lemma merged_in_store (pop_new : list loc) s (keys : list num) (x : loc) :
  Forall2 (λ l f, ∃ a t, heap s !! l = Some a ∧ target a = Some t ∧ f = fitness t)
          (pop s ++ pop_new) keys →
  x ∈ take (Z.to_nat (pop_size s))
        (sort_ranked (minmax (problem s)) (zip keys (pop s ++ pop_new))).*2 →
  x ∈ pop s ++ pop_new ∧ is_Some (heap s !! x) ∧ x ≠ fresh (dom (heap s)).
Proof.
  intros Hkeys Hx. apply sorted_trimmed_subset in Hx.
  split; [done|].
  apply list_elem_of_lookup in Hx as [j Hj].
  destruct (Forall2_lookup_l _ _ _ _ _ Hkeys Hj) as (f & _ & a1 & t & Ha1 & _).
  split; [by eexists|]. intros ->. pose proof (fresh_None s). congruence.
Qed.

(** X1.  A generation that finishes never touches what was there before:
    every object of the store is still at its address with the same
    position and the same fitness (agents are replaced, not mutated), the
    elite is the same object, and the parameters, the problem and the mode
    are unchanged. *)
Theorem evolve_keeps_objects (v : variant) (epoch0 : Z) self self' :
  evolve gen_random roulette correct_solution get_target v epoch0 self = Some (tt, self') →
  heap self ⊆ heap self' ∧
  g_best self' = g_best self ∧
  epoch self' = epoch self ∧ pop_size self' = pop_size self ∧
  sort_flag self' = sort_flag self ∧ problem self' = problem self ∧
  mode self' = mode self.
Proof.
  intros H.
  apply evolve_Some in H as (fits & pop_new & s2 & Hfits & Ht & Hsub & Hnd & Hlen & Hall & H).
  apply merge_and_keep_elite_Some in H as (keys & merged & a & Hkeys & Hm & Hne & Ha & ->).
  apply touched_fields in Ht as (He & Hps & Hsf & Hpr & Hmo & Hp & Hg).
  pose proof (fresh_None s2) as Hfresh. simpl.
  assert (Hsub' : heap self ⊆ <[fresh (dom (heap s2)) := a]> (heap s2)).
  { etrans; [exact Hsub|]. by apply insert_subseteq. }
  done.
Qed.



(** X3.  No aliasing: when the slots of the population hold pairwise
    different objects before a generation, they do so after it. *)
Theorem evolve_no_aliasing (v : variant) (epoch0 : Z) self self' :
  NoDup (pop self) →
  evolve gen_random roulette correct_solution get_target v epoch0 self = Some (tt, self') →
  NoDup (pop self').
Proof.
  intros Hndp H.
  apply evolve_Some in H as (fits & pop_new & s2 & Hfits & Ht & Hsub & Hnd & Hlen & Hall & H).
  apply merge_and_keep_elite_Some in H as (keys & merged & a & Hkeys & Hm & Hne & Ha & ->).
  apply touched_fields in Ht as (He & Hps & Hsf & Hpr & Hmo & Hp & Hg).
  simpl. apply NoDup_insert_fresh.
  - rewrite Hm. apply sorted_trimmed_NoDup.
    + symmetry. by eapply Forall2_length.
    + rewrite Hp. apply NoDup_app. split; [done|]. split; [|done].
      intros x Hx Hx'. rewrite Forall_forall in Hall. destruct (Hall x Hx') as [E _].
      apply list_elem_of_lookup in Hx as [j Hj].
      destruct (Forall2_lookup_l _ _ _ _ _ Hfits Hj) as (f & _ & a1 & t & Ha1 & _).
      congruence.
  - intros Hin. rewrite Hm in Hin.
    by destruct (merged_in_store _ _ _ _ Hkeys Hin) as (_ & _ & ?).
Qed.

(** X4.  No stale fitness: when every agent of the population, and the
    elite, carries the objective value of its own position, the same holds
    after a generation, in every evaluation mode. *)
Theorem evolve_fitness_consistent (v : variant) (epoch0 : Z) self self' :
  Forall (fitness_consistent get_target self) (pop self) →
  fitness_consistent get_target self (g_best self) →
  evolve gen_random roulette correct_solution get_target v epoch0 self = Some (tt, self') →
  Forall (fitness_consistent get_target self') (pop self') ∧
  fitness_consistent get_target self' (g_best self').
Proof.
  intros Hpop (ab & Hab & Htb) H.
  apply evolve_Some in H as (fits & pop_new & s2 & Hfits & Ht & Hsub & Hnd & Hlen & Hall & H).
  apply merge_and_keep_elite_Some in H as (keys & merged & a & Hkeys & Hm & Hne & Ha & ->).
  apply touched_fields in Ht as (He & Hps & Hsf & Hpr & Hmo & Hp & Hg).
  pose proof (fresh_None s2) as Hfresh.
  rewrite Hg in Ha. rewrite (lookup_weaken _ _ _ _ Hab Hsub) in Ha. injection Ha as <-.
  unfold fitness_consistent. simpl. split.
  - apply Forall_forall. intros x Hx.
    apply list_elem_of_lookup in Hx as [i Hi].
    destruct (decide (i = (length merged - 1)%nat)) as [->|Hi'].
    + apply list_lookup_insert_Some in Hi as [(_ & <- & _)|[? _]]; [|done].
      exists ab. by rewrite lookup_insert_eq.
    + rewrite list_lookup_insert_ne in Hi by done.
      apply list_elem_of_lookup_2 in Hi. rewrite Hm in Hi.
      destruct (merged_in_store _ _ _ _ Hkeys Hi) as (Hin & _ & Hxf).
      rewrite lookup_insert_ne by done.
      rewrite Hp in Hin. apply elem_of_app in Hin as [Hin|Hin].
      * rewrite Forall_forall in Hpop. destruct (Hpop x Hin) as (ax & Hax & Htx).
        exists ax. split; [by eapply lookup_weaken|done].
      * rewrite Forall_forall in Hall. destruct (Hall x Hin) as (_ & temp & _ & Hx).
        eexists. split; [exact Hx|done].
  - exists ab. split; [|done].
    rewrite lookup_insert_ne by (intros E; rewrite E in Hfresh;
                                 rewrite Hg, (lookup_weaken _ _ _ _ Hab Hsub) in Hfresh; done).
    rewrite Hg. by eapply lookup_weaken.
Qed.

(** X5.  [evolve] raises when the population holds an agent that has not
    been evaluated: line 101 reads [item.target.fitness] of every agent
    before anything else. *)
Theorem evolve_needs_evaluated_population (v : variant) (epoch0 : Z) self (l : loc)
    (a : Agent) :
  l ∈ pop self → heap self !! l = Some a → target a = None →
  evolve gen_random roulette correct_solution get_target v epoch0 self = None.
Proof.
  intros Hl Ha Hta.
  destruct (evolve _ _ _ _ _ _ _) as [[u self']|] eqn:H; [|done].
  apply evolve_Some in H as (fits & pop_new & s2 & Hfits & _).
  apply list_elem_of_lookup in Hl as [j Hj].
  destruct (Forall2_lookup_l _ _ _ _ _ Hfits Hj) as (f & _ & a1 & t & Ha1 & Ht1 & _).
  congruence.
Qed.

End Evolve_invariants.

(** ** Generations that return, and generations that raise *)



Section Evolve_total.
Context {G : Type}.
Context (gen_random : G → Q * G) (roulette : direction → list num → G → Z * G).
Context (correct_solution : Problem → list num → list num).
Context (get_target : list num → Target).
Implicit Types (self s t : Optimizer G).



(** X14.  What [evolve] needs it also leaves: when the corrector returns
    one entry per dimension, the agents of the population and the elite are
    again evaluated agents with one entry per dimension after a
    generation. *)
Theorem evolve_keeps_valid (v : variant) (e : Z) self self' :
  (∀ pos, length pos = n_dims (problem self) →
          length (correct_solution (problem self) pos) = n_dims (problem self)) →
  Forall (valid_agent self) (pop self) →
  valid_agent self (g_best self) →
  evolve gen_random roulette correct_solution get_target v e self = Some (tt, self') →
  Forall (valid_agent self') (pop self') ∧ valid_agent self' (g_best self').
Proof.
  intros Hcs Hpop (ab & Hab & Hlb & Htb) H.
  apply evolve_Some in H as (fits & pop_new & s2 & Hfits & Ht & Hsub & Hnd & Hlen & Hall & H).
  apply merge_and_keep_elite_Some in H as (keys & merged & a & Hkeys & Hm & Hne & Ha & ->).
  apply touched_fields in Ht as (He & Hps & Hsf & Hpr & Hmo & Hp & Hg).
  pose proof (fresh_None s2) as Hfresh.
  rewrite Hg in Ha. rewrite (lookup_weaken _ _ _ _ Hab Hsub) in Ha. injection Ha as <-.
  unfold valid_agent. simpl. rewrite Hpr. split.
  - apply Forall_forall. intros x Hx.
    apply list_elem_of_lookup in Hx as [i Hi].
    destruct (decide (i = (length merged - 1)%nat)) as [->|Hi'].
    + apply list_lookup_insert_Some in Hi as [(_ & <- & _)|[? _]]; [|done].
      exists ab. by rewrite lookup_insert_eq.
    + rewrite list_lookup_insert_ne in Hi by done.
      apply list_elem_of_lookup_2 in Hi. rewrite Hm in Hi.
      destruct (merged_in_store _ _ _ _ Hkeys Hi) as (Hin & _ & Hxf).
      rewrite lookup_insert_ne by done.
      rewrite Hp in Hin. apply elem_of_app in Hin as [Hin|Hin].
      * rewrite Forall_forall in Hpop. destruct (Hpop x Hin) as (ax & Hax & Hlx & Htx).
        exists ax. split; [by eapply lookup_weaken|done].
      * rewrite Forall_forall in Hall. destruct (Hall x Hin) as (_ & temp & Hlt & Hx).
        eexists. split; [exact Hx|]. simpl. split; [by apply Hcs|by eexists].
  - exists ab. split; [|done].
    rewrite lookup_insert_ne by (intros E; rewrite E in Hfresh;
                                 rewrite Hg, (lookup_weaken _ _ _ _ Hab Hsub) in Hfresh; done).
    rewrite Hg. by eapply lookup_weaken.
Qed.

(** X15.  [OriginalALO.evolve] reads column [epoch - 1] of matrices with
    [self.epoch] columns: with a population size of at least one it raises
    for every current epoch above [self.epoch], and for every current
    epoch of [- self.epoch] or below. *)
Theorem OriginalALO_evolve_epoch_out_of_range (e : Z) self :
  1 <= pop_size self →
  epoch self < e ∨ e <= - epoch self →
  evolve gen_random roulette correct_solution get_target OriginalALO e self = None.
Proof.
  intros HP He.
  destruct (evolve _ _ _ _ _ _ _) as [[u self']|] eqn:H; [|done]. exfalso.
  rewrite evolve_unfold in H. unfold evolve_loop in H.
  apply ST_bind_Some in H as (sa & sb & Hget & H). apply get_Some in Hget as [-> ->].
  apply ST_bind_Some in H as (fits & s0 & Hf & H).
  apply mapM_fitness_of_Some in Hf as [-> _].
  apply ST_bind_Some in H as (pop_new & s1 & Hloop & _).
  assert (Hrange : ∃ xs, range (pop_size self) = 0 :: xs).
  { unfold range. destruct (Z.to_nat (pop_size self)) as [|n] eqn:E; [lia|].
    simpl. by eexists. }
  destruct Hrange as [xs Hxs]. rewrite Hxs in Hloop. simpl in Hloop.
  apply ST_bind_Some in Hloop as (acc & s2 & Hbody & _).
  unfold new_agent in Hbody.
  apply ST_bind_Some in Hbody as (pos & sp & Hpos & _).
  unfold new_position in Hpos.
  apply ST_bind_Some in Hpos as (ri & t1 & Hr & Hpos). apply roulette_frame in Hr as [g1 ->].
  apply ST_bind_Some in Hpos as (l_ant & t2 & Hl & Hpos). apply try_Some in Hl as [Hl <-].
  apply ST_bind_Some in Hpos as (ant & t2 & Hant & Hpos).
  apply deref_Some in Hant as [Hant ->].
  apply ST_bind_Some in Hpos as (RA & t2 & HRA & Hpos).
  apply OriginalALO_walk_shape in HRA as [HT [HlenA HrowsA]].
  apply ST_bind_Some in Hpos as (elite & t3 & Hel & Hpos).
  apply ST_bind_Some in Hpos as (RE & t4 & HRE & Hpos).
  apply ST_bind_Some in Hpos as (temp & t5 & Htemp & _).
  apply try_Some in Htemp as [Htemp _].
  apply raw_candidate_Some in Htemp as (ra & re & total & Hra & _).
  apply column_Some in Hra as [Hne Hra]. simpl in *.
  destruct RA as [|row RA]; [done|].
  apply Forall2_cons_inv_l in Hra as (x & ra' & (i & Hi & _) & _ & _).
  apply Forall_cons in HrowsA as [Hrow _]. rewrite Hrow in Hi.
  assert (Hn : n_dims (problem self) ≠ 0%nat) by (rewrite <- HlenA; done).
  specialize (HT Hn).
  unfold np_index in Hi. repeat case_decide; try done; lia.
Qed.

End Evolve_total.

(** ** Where the candidates lie *)

Section Candidates_of_a_generation.
Context {G : Type}.
Context (gen_random : G → Q * G) (roulette : direction → list num → G → Z * G).
Context (correct_solution : Problem → list num → list num).
Context (get_target : list num → Target).
Implicit Types (self s t : Optimizer G).

(** What the first half of the loop body has done when it returns. *)
Lemma new_position_Some (v : variant) (e : Z) s0 (fits : list num) (idx : Z) t
    (pos : list num) t' :
  new_position gen_random roulette correct_solution v e s0 fits idx t = Some (pos, t') →
  ∃ (i : Z) (l : loc) (ant el : Agent) (RA RE : matrix) (temp : list num) (g1 g2 g3 : G),
    py_getitem (pop s0) i = Some l ∧
    heap t !! l = Some ant ∧ heap t !! g_best s0 = Some el ∧
    random_walk_antlion__ gen_random v (solution ant) e (set_generator g1 t)
      = Some (RA, set_generator g2 t) ∧
    random_walk_antlion__ gen_random v (solution el) e (set_generator g2 t)
      = Some (RE, set_generator g3 t) ∧
    raw_candidate v e idx RA RE = Some temp ∧
    pos = correct_solution (problem s0) temp ∧
    t' = set_generator g3 t.
Proof.
  intros Hpos. unfold new_position in Hpos.
  apply ST_bind_Some in Hpos as (ri & s1 & Hr & Hpos). apply roulette_frame in Hr as [g1 ->].
  apply ST_bind_Some in Hpos as (l_ant & s2 & Hl & Hpos). apply try_Some in Hl as [Hl <-].
  apply ST_bind_Some in Hpos as (ant & s2 & Hant & Hpos).
  apply deref_Some in Hant as [Hant ->].
  apply ST_bind_Some in Hpos as (RA & s2 & HRA & Hpos).
  pose proof (walk_partial _ _ _ _ _ _ _ HRA) as [[g2 ->] _].
  apply ST_bind_Some in Hpos as (elite & s3 & Hel & Hpos).
  apply deref_Some in Hel as [Hel ->].
  apply ST_bind_Some in Hpos as (RE & s3 & HRE & Hpos).
  pose proof (walk_partial _ _ _ _ _ _ _ HRE) as [[g3 ->] _].
  apply ST_bind_Some in Hpos as (temp & s4 & Htemp & Hpos).
  apply try_Some in Htemp as [Htemp <-].
  apply ST_ret_Some in Hpos as [<- <-].
  by exists ri, l_ant, ant, elite, RA, RE, temp, g1, g2, g3.
Qed.

(** A loop that finishes has left, for every new agent, an object at a
    position that the first half of the body has returned. *)
Lemma loop_Some_positions (P : list num → Prop) (v : variant) (e : Z) s0
    (fits : list num) (pop_new : list loc) s1 :
  (∀ idx t pos t',
     touched s0 t → heap s0 ⊆ heap t →
     new_position gen_random roulette correct_solution v e s0 fits idx t = Some (pos, t') →
     P pos) →
  for_each (range (pop_size s0))
    (new_agent gen_random roulette correct_solution get_target v e s0 fits) [] s0
    = Some (pop_new, s1) →
  Forall (λ l, ∃ pos, P pos ∧ heap s1 !! l = Some (new_object get_target (mode s0) pos))
         pop_new.
Proof.
  intros HP H.
  apply (for_each_inv (λ (pre : list Z) (acc : list loc) s,
           touched s0 s ∧ heap s0 ⊆ heap s ∧
           Forall (λ l, ∃ pos, P pos ∧
                          heap s !! l = Some (new_object get_target (mode s0) pos)) acc)
           _ _) with (pre := []) in H.
  - by destruct H as (_ & _ & H).
  - clear H. intros pre k acc s acc' s' (Ht & Hsub & Hall) Hbody.
    pose proof Hbody as Hbody'. unfold new_agent in Hbody'.
    apply ST_bind_Some in Hbody' as (pos & sp & Hpos & _).
    pose proof (HP _ _ _ _ Ht Hsub Hpos) as HPpos.
    pose proof (new_position_Some _ _ _ _ _ _ _ _ Hpos)
      as (i & l & ant & el & RA & RE & temp & g1 & g2 & g3 & _ & _ & _ & _ & _ & _ & _ & ->).
    rewrite (new_agent_eq _ _ _ get_target _ _ _ _ _ acc _ _ _ Hpos) in Hbody.
    injection Hbody as <- <-. simpl.
    pose proof (fresh_None s) as Hfresh.
    split; [|split].
    + eapply touched_trans; [exact Ht|]. eexists _, g3. reflexivity.
    + etrans; [exact Hsub|]. by apply insert_subseteq.
    + apply Forall_app. split.
      * eapply Forall_impl; [exact Hall|]. simpl. intros x (pos' & HP' & Hx).
        exists pos'. split; [done|]. rewrite lookup_insert_ne; [done|].
        intros <-. congruence.
      * constructor; [|constructor]. exists pos. split; [done|].
        by rewrite lookup_insert_eq.
  - split; [apply touched_refl|]. split; [done|constructor].
Qed.

(** The new agents of a generation that finishes: every slot of the new
    population that holds an object made by this generation is the last
    slot, where the copy of the elite is, or holds an agent evaluated at a
    position that the first half of the loop body has returned. *)
Lemma evolve_Some_positions (P : list num → Prop) (v : variant) (e : Z) self self' :
  (∀ fits idx t pos t',
     touched self t → heap self ⊆ heap t →
     new_position gen_random roulette correct_solution v e self fits idx t = Some (pos, t') →
     P pos) →
  evolve gen_random roulette correct_solution get_target v e self = Some (tt, self') →
  ∀ l, l ∈ pop self' → heap self !! l = None →
       last (pop self') = Some l ∨
       ∃ pos, P pos ∧ heap self' !! l = Some (evaluated get_target pos).
Proof.
  intros HP H l Hl Hnew.
  rewrite evolve_unfold in H. unfold evolve_loop in H.
  apply ST_bind_Some in H as (sa & sb & Hget & H). apply get_Some in Hget as [-> ->].
  apply ST_bind_Some in H as (fits & s0 & Hf & H).
  apply mapM_fitness_of_Some in Hf as [-> Hfits].
  apply ST_bind_Some in H as (pop_new & s1 & Hloop & H).
  pose proof (loop_Some_positions P _ _ _ _ _ _ (HP fits) Hloop) as HallP.
  apply loop_Some in Hloop as (Ht1 & Hsub1 & Hnd & Hlen & Hall).
  apply ST_bind_Some in H as (out & s2 & Hup & H).
  assert (Hm : mode s1 = mode self) by (by destruct Ht1 as (h & g & ->)).
  apply update_target_Some in Hup as (-> & Ht2 & Hother & Hall2).
  2: { eapply Forall_impl; [exact Hall|]. simpl. intros x (_ & temp & _ & Hx).
       rewrite Hm. eauto. }
  apply merge_and_keep_elite_Some in H as (keys & merged & a & Hkeys & Hmd & Hne & Ha & ->).
  pose proof (touched_fields _ _ (touched_trans _ _ _ Ht1 Ht2))
    as (Fe & Fps & Fsf & Fpr & Fm & Fp & Fg).
  simpl in Hl |- *.
  apply list_elem_of_lookup in Hl as [i Hi].
  destruct (decide (i = (length merged - 1)%nat)) as [->|Hi'].
  - left. apply list_lookup_insert_Some in Hi as [(_ & <- & Hlt)|[? _]]; [|done].
    rewrite last_lookup, length_insert.
    replace (Nat.pred (length merged)) with (length merged - 1)%nat by lia.
    by apply list_lookup_insert_eq.
  - right. rewrite list_lookup_insert_ne in Hi by done.
    apply list_elem_of_lookup_2 in Hi. rewrite Hmd in Hi.
    destruct (merged_in_store _ _ _ _ Hkeys Hi) as (Hin & _ & Hxf).
    rewrite lookup_insert_ne by done.
    rewrite Fp in Hin. apply elem_of_app in Hin as [Hin|Hin].
    + apply list_elem_of_lookup in Hin as [j Hj].
      destruct (Forall2_lookup_l _ _ _ _ _ Hfits Hj) as (f & _ & a1 & tg & Ha1 & _).
      congruence.
    + rewrite Forall_forall in HallP, Hall2.
      destruct (HallP l Hin) as (pos & HPpos & E1).
      destruct (Hall2 l Hin) as (pos' & E1' & E2).
      exists pos. split; [done|]. rewrite E2. f_equal.
      rewrite Hm, E1 in E1'. injection E1' as E1'.
      unfold new_object in E1'. destruct (in_AVAILABLE_MODES (mode self)).
      * by simplify_eq.
      * unfold evaluated in E1'. by simplify_eq.
Qed.

(** X17.  With [self.epoch = 1] the walks of [OriginalALO] have a single
    step, their minimum is their maximum and the normalisation divides
    zero by zero: every new agent of the population after a generation,
    the copy of the elite in the last slot apart, has been evaluated at the
    correction of the all-NaN vector. *)
Theorem OriginalALO_evolve_single_epoch (e : Z) self self' :
  epoch self = 1 →
  evolve gen_random roulette correct_solution get_target OriginalALO e self
    = Some (tt, self') →
  ∀ l, l ∈ pop self' → heap self !! l = None →
    last (pop self') = Some l ∨
    heap self' !! l
      = Some (evaluated get_target
                (correct_solution (problem self) (replicate (n_dims (problem self)) NaN))).
Proof.
  intros HT H l Hl Hnew.
  destruct (evolve_Some_positions
              (λ pos, pos = correct_solution (problem self)
                              (replicate (n_dims (problem self)) NaN))
              OriginalALO e self self') with (l := l) as [Hlast|(pos & -> & Epos)];
    [|done|done|done|by left|by right].
  clear H l Hl Hnew. intros fits idx t pos t' Ht Hsub Hpos.
  pose proof (touched_fields _ _ Ht) as (Fe & Fps & Fsf & Fpr & Fm & Fp & Fg).
  apply new_position_Some in Hpos
    as (i & l & ant & el' & RA & RE & temp & g1 & g2 & g3 &
        Hi & Hant & Hel' & HRA & HRE & Htemp & -> & ->).
  f_equal.
  assert (Hnan : ∀ sol g g' M,
            random_walk_antlion__ gen_random OriginalALO sol e (set_generator g t)
              = Some (M, g') →
            length M = n_dims (problem self) ∧
            Forall (Forall (λ x, x = NaN)) M).
  { intros sol g g' M HM. simpl in HM.
    apply OriginalALO_walk_Some in HM as (lbs & ubs & s0 & _ & HM & _).
    simpl in HM. rewrite Fe, Fpr, HT in HM. split.
    - apply Forall2_length in HM. by rewrite length_seq in HM.
    - apply Forall_forall. intros row Hrow.
      apply list_elem_of_lookup in Hrow as [k Hk].
      destruct (Forall2_lookup_r _ _ _ _ _ HM Hk) as (k' & _ & Hw).
      destruct Hw as (rs & a & b & c & d & Hrs & Ha & Hb & _ & _ & ->).
      destruct (walk_extremes rs 1 a b ltac:(lia) Hrs Ha Hb) as (Hall & Hab & _).
      rewrite <- (Hab eq_refl) in *. by apply walk_row_zero_range. }
  destruct (Hnan _ _ _ _ HRA) as [HlA HnA].
  destruct (Hnan _ _ _ _ HRE) as [HlE HnE].
  apply raw_candidate_Some in Htemp as (ra & re & total & Hra & Hre & Htot & ->).
  pose proof (column_length _ _ _ Hra) as Hlra.
  pose proof (column_length _ _ _ Hre) as Hlre.
  rewrite broadcast2_same in Htot by congruence. injection Htot as <-.
  apply column_Some in Hra as [_ Hra]. apply column_Some in Hre as [_ Hre].
  apply list_eq. intros k.
  rewrite list_lookup_fmap, lookup_zip_with.
  destruct (decide (k < n_dims (problem self))%nat) as [Hk|Hk].
  - rewrite lookup_replicate_2 by done.
    destruct (lookup_lt_is_Some_2 RA k ltac:(lia)) as [rowA HrowA].
    destruct (lookup_lt_is_Some_2 RE k ltac:(lia)) as [rowE HrowE].
    destruct (Forall2_lookup_l _ _ _ _ _ Hra HrowA) as (x & Hx & iA & _ & HxA).
    destruct (Forall2_lookup_l _ _ _ _ _ Hre HrowE) as (y & Hy & iE & _ & HyE).
    rewrite Forall_forall in HnA, HnE.
    pose proof (HnA _ (list_elem_of_lookup_2 _ _ _ HrowA)) as HA.
    pose proof (HnE _ (list_elem_of_lookup_2 _ _ _ HrowE)) as HE.
    rewrite Forall_forall in HA, HE.
    rewrite (HA _ (list_elem_of_lookup_2 _ _ _ HxA)) in Hx.
    rewrite (HE _ (list_elem_of_lookup_2 _ _ _ HyE)) in Hy.
    rewrite Hx, Hy. done.
  - rewrite (lookup_ge_None_2 ra) by lia. simpl. symmetry.
    apply lookup_replicate_None. lia.
Qed.

End Candidates_of_a_generation.

(** ** The steps of a raw walk *)

(** Two neighbours of a cumulative sum of steps differ by one step. *)
Lemma cumsum_from_neighbours (acc : Z) (xs : list Z) (j : nat) (x y : Z) :
  Forall (λ s, s = 1 ∨ s = -1) xs →
  cumsum_from acc xs !! j = Some x → cumsum_from acc xs !! S j = Some y →
  y - x = 1 ∨ y - x = -1.
Proof.
  revert acc j. induction xs as [|s xs IH]; intros acc j Hxs Hx Hy; [done|].
  apply Forall_cons in Hxs as [_ Hxs]. simpl in Hx, Hy. destruct j as [|j].
  - injection Hx as <-. destruct xs as [|s' xs]; [done|].
    apply Forall_cons in Hxs as [Hs' _]. simpl in Hy. injection Hy as <-. lia.
  - by eapply IH.
Qed.

(** Entries of a cumulative sum of steps that are [m] places apart differ
    by [m] at most. *)
Lemma cumsum_from_apart (acc : Z) (xs : list Z) (m i : nat) (x y : Z) :
  Forall (λ s, s = 1 ∨ s = -1) xs →
  cumsum_from acc xs !! i = Some x → cumsum_from acc xs !! (i + m)%nat = Some y →
  - Z.of_nat m <= y - x <= Z.of_nat m.
Proof.
  intros Hxs Hx. revert y. induction m as [|m IH]; intros y Hy.
  - rewrite Nat.add_0_r in Hy. simplify_eq. lia.
  - replace (i + S m)%nat with (S (i + m)) in Hy by lia.
    destruct (lookup_lt_is_Some_2 (cumsum_from acc xs) (i + m)) as [z Hz].
    { apply lookup_lt_Some in Hy. lia. }
    specialize (IH z Hz).
    destruct (cumsum_from_neighbours acc xs (i + m) z y Hxs Hz Hy); lia.
Qed.

(** The raw walk of [h >= 2] steps spans between 1 and [h - 1]. *)
Lemma walk_span (rs : list Q) (h : Z) (a b : Z) :
  2 <= h → length rs = Z.to_nat h →
  np_min (cumsum (step <$> rs)) = Some a →
  np_max (cumsum (step <$> rs)) = Some b →
  1 <= b - a <= h - 1.
Proof.
  intros Hh Hrs Ha Hb.
  destruct (walk_extremes rs h a b ltac:(lia) Hrs Ha Hb) as (_ & _ & Hab).
  specialize (Hab Hh). split; [lia|].
  apply np_min_spec in Ha as [Ha _]. apply np_max_spec in Hb as [Hb _].
  apply list_elem_of_lookup in Ha as [i Hi]. apply list_elem_of_lookup in Hb as [j Hj].
  assert (Hsteps : Forall (λ s, s = 1 ∨ s = -1) (step <$> rs)).
  { apply Forall_fmap, Forall_forall. intros r _. apply step_cases. }
  pose proof (lookup_lt_Some _ _ _ Hi) as Hli. pose proof (lookup_lt_Some _ _ _ Hj) as Hlj.
  rewrite cumsum_length, length_fmap in Hli, Hlj.
  unfold cumsum in *.
  destruct (decide (i ≤ j)%nat) as [Hij|Hij].
  - replace j with (i + (j - i))%nat in Hj by lia.
    pose proof (cumsum_from_apart _ _ _ _ _ _ Hsteps Hi Hj). lia.
  - replace i with (j + (i - j))%nat in Hi by lia.
    pose proof (cumsum_from_apart _ _ _ _ _ _ Hsteps Hj Hi). lia.
Qed.


(** ** The further properties on the concrete problem *)


Lemma random_walk_draws_witness :
  ∃ M self',
    random_walk_antlion__ Demo.script_random DevALO [Fin 1; Fin 2; Fin 3] 7
      (Demo.walker 50 4 Demo.inverting) = Some (M, self') ∧
    self' = set_generator
              (draws Demo.script_random
                 (2 + n_dims (problem (Demo.walker 50 4 Demo.inverting))
                      * Z.to_nat (horizon DevALO (Demo.walker 50 4 Demo.inverting)))
                 (generator (Demo.walker 50 4 Demo.inverting)))
              (Demo.walker 50 4 Demo.inverting).
Proof.
  assert (E : ∃ M self',
    random_walk_antlion__ Demo.script_random DevALO [Fin 1; Fin 2; Fin 3] 7
      (Demo.walker 50 4 Demo.inverting) = Some (M, self'))
    by (eexists _, _; vm_compute; reflexivity).
  destruct E as (M & self' & E). exists M, self'. split; [exact E|].
  exact (random_walk_draws Demo.script_random DevALO _ _ _ _ _ E).
Defined.

Lemma random_walk_empty_horizon_witness :
  n_dims (problem (Demo.walker 0 4 Demo.inverting)) ≠ 0%nat ∧
  horizon OriginalALO (Demo.walker 0 4 Demo.inverting) <= 0 ∧
  random_walk_antlion__ Demo.script_random OriginalALO [Fin 1; Fin 2; Fin 3] 0
    (Demo.walker 0 4 Demo.inverting) = None.
Proof.
  assert (Hn : n_dims (problem (Demo.walker 0 4 Demo.inverting)) ≠ 0%nat) by done.
  assert (Hh : horizon OriginalALO (Demo.walker 0 4 Demo.inverting) <= 0) by (simpl; lia).
  split; [exact Hn|]. split; [exact Hh|].
  exact (random_walk_empty_horizon Demo.script_random OriginalALO _ _ _ Hn Hh).
Defined.

Lemma random_walk_shape_mismatch_witness :
  length [Fin 1; Fin 2] ≠ n_dims (problem (Demo.walker 50 4 Demo.inverting)) ∧
  length [Fin 1; Fin 2] ≠ 1%nat ∧
  n_dims (problem (Demo.walker 50 4 Demo.inverting)) ≠ 1%nat ∧
  random_walk_antlion__ Demo.script_random OriginalALO [Fin 1; Fin 2] 7
    (Demo.walker 50 4 Demo.inverting) = None.
Proof.
  assert (H : length [Fin 1; Fin 2] ≠ n_dims (problem (Demo.walker 50 4 Demo.inverting)))
    by done.
  assert (H1 : length [Fin 1; Fin 2] ≠ 1%nat) by done.
  assert (Hn : n_dims (problem (Demo.walker 50 4 Demo.inverting)) ≠ 1%nat) by done.
  split; [exact H|]. split; [exact H1|]. split; [exact Hn|].
  exact (random_walk_shape_mismatch Demo.script_random OriginalALO _ _ _ H H1 Hn).
Defined.

Lemma demo_fitness_consistent (T : Z) (m : Mode) (script : list Q) :
  Forall (fitness_consistent Demo.sum_of_squares (Demo.optimizer T m script))
         (pop (Demo.optimizer T m script)) ∧
  fitness_consistent Demo.sum_of_squares (Demo.optimizer T m script)
                     (g_best (Demo.optimizer T m script)).
Proof.
  split; [repeat constructor|]; (eexists; split; [vm_compute; reflexivity|reflexivity]).
Qed.

Lemma evolve_keeps_objects_witness :
  ∃ self',
    evolve Demo.script_random Demo.wheel Demo.clip Demo.sum_of_squares DevALO 1
      (Demo.optimizer 10 Thread Demo.crowding) = Some (tt, self') ∧
    heap (Demo.optimizer 10 Thread Demo.crowding) ⊆ heap self' ∧
    g_best self' = g_best (Demo.optimizer 10 Thread Demo.crowding) ∧
    epoch self' = epoch (Demo.optimizer 10 Thread Demo.crowding) ∧
    pop_size self' = pop_size (Demo.optimizer 10 Thread Demo.crowding) ∧
    sort_flag self' = sort_flag (Demo.optimizer 10 Thread Demo.crowding) ∧
    problem self' = problem (Demo.optimizer 10 Thread Demo.crowding) ∧
    mode self' = mode (Demo.optimizer 10 Thread Demo.crowding).
Proof.
  assert (E : ∃ self',
    evolve Demo.script_random Demo.wheel Demo.clip Demo.sum_of_squares DevALO 1
      (Demo.optimizer 10 Thread Demo.crowding) = Some (tt, self'))
    by (eexists; vm_compute; reflexivity).
  destruct E as [self' E]. exists self'. split; [exact E|].
  exact (evolve_keeps_objects Demo.script_random Demo.wheel Demo.clip
           Demo.sum_of_squares DevALO 1 _ _ E).
Defined.

Lemma evolve_no_aliasing_witness :
  NoDup (pop (Demo.optimizer 10 Single Demo.quiet)) ∧
  ∃ self',
    evolve Demo.script_random Demo.wheel Demo.clip Demo.sum_of_squares DevALO 1
      (Demo.optimizer 10 Single Demo.quiet) = Some (tt, self') ∧
    NoDup (pop self').
Proof.
  assert (Hnd : NoDup (pop (Demo.optimizer 10 Single Demo.quiet))) by apply NoDup_seq.
  assert (E : ∃ self',
    evolve Demo.script_random Demo.wheel Demo.clip Demo.sum_of_squares DevALO 1
      (Demo.optimizer 10 Single Demo.quiet) = Some (tt, self'))
    by (eexists; vm_compute; reflexivity).
  split; [exact Hnd|].
  destruct E as [self' E]. exists self'. split; [exact E|].
  exact (evolve_no_aliasing Demo.script_random Demo.wheel Demo.clip
           Demo.sum_of_squares DevALO 1 _ _ Hnd E).
Defined.

Lemma evolve_fitness_consistent_witness :
  Forall (fitness_consistent Demo.sum_of_squares (Demo.optimizer 10 Thread Demo.crowding))
         (pop (Demo.optimizer 10 Thread Demo.crowding)) ∧
  fitness_consistent Demo.sum_of_squares (Demo.optimizer 10 Thread Demo.crowding)
                     (g_best (Demo.optimizer 10 Thread Demo.crowding)) ∧
  ∃ self',
    evolve Demo.script_random Demo.wheel Demo.clip Demo.sum_of_squares DevALO 1
      (Demo.optimizer 10 Thread Demo.crowding) = Some (tt, self') ∧
    Forall (fitness_consistent Demo.sum_of_squares self') (pop self') ∧
    fitness_consistent Demo.sum_of_squares self' (g_best self').
Proof.
  destruct (demo_fitness_consistent 10 Thread Demo.crowding) as [Hp Hg].
  assert (E : ∃ self',
    evolve Demo.script_random Demo.wheel Demo.clip Demo.sum_of_squares DevALO 1
      (Demo.optimizer 10 Thread Demo.crowding) = Some (tt, self'))
    by (eexists; vm_compute; reflexivity).
  split; [exact Hp|]. split; [exact Hg|].
  destruct E as [self' E]. exists self'. split; [exact E|].
  exact (evolve_fitness_consistent Demo.script_random Demo.wheel Demo.clip
           Demo.sum_of_squares DevALO 1 _ _ Hp Hg E).
Defined.

Lemma evolve_needs_evaluated_population_witness :
  2%nat ∈ pop (Demo.unevaluated 10 Single Demo.quiet) ∧
  heap (Demo.unevaluated 10 Single Demo.quiet) !! 2%nat
    = Some {| solution := [Fin 3]; target := None |} ∧
  evolve Demo.script_random Demo.wheel Demo.clip Demo.sum_of_squares DevALO 1
    (Demo.unevaluated 10 Single Demo.quiet) = None.
Proof.
  assert (Hin : 2%nat ∈ pop (Demo.unevaluated 10 Single Demo.quiet))
    by (apply elem_of_seq; lia).
  assert (Hl : heap (Demo.unevaluated 10 Single Demo.quiet) !! 2%nat
               = Some {| solution := [Fin 3]; target := None |})
    by (vm_compute; reflexivity).
  split; [exact Hin|]. split; [exact Hl|].
  exact (evolve_needs_evaluated_population Demo.script_random Demo.wheel Demo.clip
           Demo.sum_of_squares DevALO 1 _ _ _ Hin Hl eq_refl).
Defined.

Lemma walker_configured (T P : Z) (script : list Q) :
  1 <= T → 1 <= P → configured (Demo.walker T P script).
Proof. intros HT HP. unfold configured. simpl. done. Qed.

Lemma optimizer_configured (T : Z) (m : Mode) (script : list Q) :
  1 <= T → configured (Demo.optimizer T m script).
Proof. intros HT. unfold configured. simpl. repeat split; try lia; done. Qed.

Lemma demo_valid (T : Z) (m : Mode) (script : list Q) :
  Forall (valid_agent (Demo.optimizer T m script)) (pop (Demo.optimizer T m script)) ∧
  valid_agent (Demo.optimizer T m script) (g_best (Demo.optimizer T m script)).
Proof.
  split; [repeat constructor|];
    (eexists; split; [vm_compute; reflexivity|split; [reflexivity|by eexists]]).
Qed.


Lemma clip_length (pos : list num) :
  length pos = n_dims Demo.box → length (Demo.clip Demo.box pos) = n_dims Demo.box.
Proof. destruct pos as [|x [|y pos]]; done. Qed.


Lemma evolve_keeps_valid_witness :
  Forall (valid_agent (Demo.optimizer 10 Single Demo.crowding))
         (pop (Demo.optimizer 10 Single Demo.crowding)) ∧
  valid_agent (Demo.optimizer 10 Single Demo.crowding)
              (g_best (Demo.optimizer 10 Single Demo.crowding)) ∧
  ∃ self',
    evolve Demo.script_random Demo.wheel Demo.clip Demo.sum_of_squares DevALO 1
      (Demo.optimizer 10 Single Demo.crowding) = Some (tt, self') ∧
    Forall (valid_agent self') (pop self') ∧ valid_agent self' (g_best self').
Proof.
  destruct (demo_valid 10 Single Demo.crowding) as [Hp Hg].
  assert (E : ∃ self',
    evolve Demo.script_random Demo.wheel Demo.clip Demo.sum_of_squares DevALO 1
      (Demo.optimizer 10 Single Demo.crowding) = Some (tt, self'))
    by (eexists; vm_compute; reflexivity).
  split; [exact Hp|]. split; [exact Hg|].
  destruct E as [self' E]. exists self'. split; [exact E|].
  exact (evolve_keeps_valid Demo.script_random Demo.wheel Demo.clip
           Demo.sum_of_squares DevALO 1 (Demo.optimizer 10 Single Demo.crowding) self'
           clip_length Hp Hg E).
Defined.

Lemma OriginalALO_evolve_epoch_out_of_range_witness :
  1 <= pop_size (Demo.optimizer 10 Single Demo.quiet) ∧
  epoch (Demo.optimizer 10 Single Demo.quiet) < 11 ∧
  evolve Demo.script_random Demo.wheel Demo.clip Demo.sum_of_squares OriginalALO 11
    (Demo.optimizer 10 Single Demo.quiet) = None.
Proof.
  assert (HP : 1 <= pop_size (Demo.optimizer 10 Single Demo.quiet)) by (simpl; lia).
  assert (He : epoch (Demo.optimizer 10 Single Demo.quiet) < 11) by (simpl; lia).
  split; [exact HP|]. split; [exact He|].
  exact (OriginalALO_evolve_epoch_out_of_range Demo.script_random Demo.wheel Demo.clip
           Demo.sum_of_squares 11 (Demo.optimizer 10 Single Demo.quiet) HP (or_introl He)).
Defined.

(* ===================================================================== *)
(** * The walk in binary64 arithmetic *)
(* ===================================================================== *)

Import Binary64.

(** ** Rounding to binary64 *)

Lemma pow2_pos (e : Z) : (0 < pow2 e)%Q.
Proof. apply Qpower_0_lt. reflexivity. Qed.

Lemma pow2_add (a b : Z) : (pow2 (a + b) == pow2 a * pow2 b)%Q.
Proof. apply Qpower_plus. discriminate. Qed.

Lemma pow2_le (a b : Z) : a <= b → (pow2 a <= pow2 b)%Q.
Proof. intros H. apply Qpower_le_compat_l; [done|]. discriminate. Qed.

Lemma pow2_lt (a b : Z) : a < b → (pow2 a < pow2 b)%Q.
Proof. intros H. apply Qpower_lt_compat_l; [done|]. reflexivity. Qed.

Lemma pow2_lt_inv (a b : Z) : (pow2 a < pow2 b)%Q → a < b.
Proof. intros H. eapply Qpower_lt_compat_l_inv; [exact H|]. reflexivity. Qed.

Lemma pow2_le_inv (a b : Z) : (pow2 a <= pow2 b)%Q → a <= b.
Proof. intros H. eapply Qpower_le_compat_l_inv; [exact H|]. reflexivity. Qed.

Lemma pow2_Z (e : Z) : 0 <= e → (pow2 e == inject_Z (2 ^ e))%Q.
Proof. intros H. unfold pow2. by rewrite Zpower_Qpower. Qed.

Lemma pow2_opp (a : Z) : (pow2 a * pow2 (- a) == 1)%Q.
Proof. rewrite <- pow2_add. by rewrite Z.add_opp_diag_r. Qed.

Lemma Qabs_frac (q : Q) : (Qabs q == inject_Z (Z.abs (Qnum q)) / inject_Z (Z.pos (Qden q)))%Q.
Proof.
  destruct q as [n d]. unfold Qabs. simpl. rewrite Qmake_Qdiv. reflexivity.
Qed.

(** The exponent of the leading bit is what its name says. *)
Lemma ilog2_spec (q : Q) :
  ¬ (q == 0)%Q → (pow2 (ilog2 q) <= Qabs q)%Q ∧ (Qabs q < pow2 (ilog2 q + 1))%Q.
Proof.
  intros Hq. unfold ilog2.
  set (n := Z.abs (Qnum q)). set (d := Z.pos (Qden q)).
  assert (Hn : 0 < n).
  { unfold n. destruct q as [[|p|p] dd]; simpl; try lia. exfalso. apply Hq. reflexivity. }
  assert (Hd : 0 < d) by (unfold d; lia).
  destruct (Z.log2_spec n Hn) as [Hn1 Hn2]. destruct (Z.log2_spec d Hd) as [Hd1 Hd2].
  pose proof (Z.log2_nonneg n) as Hna. pose proof (Z.log2_nonneg d) as Hda.
  set (a := Z.log2 n) in *. set (b := Z.log2 d) in *.
  assert (En : (pow2 a <= inject_Z n)%Q ∧ (inject_Z n < pow2 (a + 1))%Q).
  { rewrite !pow2_Z by lia. rewrite <- Zle_Qle, <- Zlt_Qlt. split; [done|].
    by replace (a + 1) with (Z.succ a) by lia. }
  assert (Ed : (pow2 b <= inject_Z d)%Q ∧ (inject_Z d < pow2 (b + 1))%Q).
  { rewrite !pow2_Z by lia. rewrite <- Zle_Qle, <- Zlt_Qlt. split; [done|].
    by replace (b + 1) with (Z.succ b) by lia. }
  destruct En as [En1 En2], Ed as [Ed1 Ed2].
  assert (Hdq : (0 < inject_Z d)%Q) by (change 0%Q with (inject_Z 0); by rewrite <- Zlt_Qlt).
  assert (Eabs : (Qabs q == inject_Z n / inject_Z d)%Q) by apply Qabs_frac.
  assert (Elo : (pow2 (a - b - 1) < Qabs q)%Q).
  { rewrite Eabs. apply Qlt_shift_div_l; [done|].
    pose proof (pow2_add (a - b - 1) (b + 1)) as E.
    replace (a - b - 1 + (b + 1)) with a in E by lia.
    pose proof (pow2_pos (a - b - 1)). 
    assert ((pow2 (a - b - 1) * inject_Z d < pow2 (a - b - 1) * pow2 (b + 1))%Q).
    { apply Qmult_lt_l; done. }
    lra. }
  assert (Ehi : (Qabs q < pow2 (a - b + 1))%Q).
  { rewrite Eabs. apply Qlt_shift_div_r; [done|].
    pose proof (pow2_add (a - b + 1) b) as E.
    replace (a - b + 1 + b) with (a + 1) in E by lia.
    pose proof (pow2_pos (a - b + 1)).
    assert ((pow2 (a - b + 1) * pow2 b <= pow2 (a - b + 1) * inject_Z d)%Q).
    { apply Qmult_le_l; done. }
    lra. }
  destruct (Qle_bool (pow2 (a - b)) (Qabs q)) eqn:Et.
  - apply Qle_bool_iff in Et. done.
  - assert (Hlt : (Qabs q < pow2 (a - b))%Q).
    { apply Qnot_le_lt. intros H. apply Qle_bool_iff in H. congruence. }
    split; [by apply Qlt_le_weak|]. by replace (a - b - 1 + 1) with (a - b) by lia.
Qed.

Lemma ilog2_unique (q : Q) (k : Z) :
  (pow2 k <= Qabs q)%Q → (Qabs q < pow2 (k + 1))%Q → ilog2 q = k.
Proof.
  intros H1 H2.
  assert (Hq : ¬ (q == 0)%Q).
  { intros E. assert (E0 : (Qabs q == 0)%Q) by (rewrite E; reflexivity).
    pose proof (pow2_pos k). lra. }
  destruct (ilog2_spec q Hq) as [H3 H4].
  assert (ilog2 q < k + 1) by (apply pow2_lt_inv; lra).
  assert (k < ilog2 q + 1) by (apply pow2_lt_inv; lra).
  lia.
Qed.

(** Rounding to an integer moves a value by one half at most. *)
Lemma round_half_even_spec (q : Q) :
  (Qabs (inject_Z (round_half_even q) - q) <= 1 # 2)%Q.
Proof.
  unfold round_half_even.
  pose proof (Qfloor_le q) as H1. pose proof (Qlt_floor q) as H2.
  set (f := Qfloor q) in *.
  rewrite inject_Z_plus in H2. change (inject_Z 1) with 1%Q in H2.
  apply Qabs_Qle_condition.
  destruct (Qcompare_spec (q - inject_Z f) (1 # 2)) as [E|E|E].
  - destruct (Z.even f); [|rewrite inject_Z_plus; change (inject_Z 1) with 1%Q]; lra.
  - lra.
  - rewrite inject_Z_plus; change (inject_Z 1) with 1%Q. lra.
Qed.

(** An integer is its own rounding. *)
Lemma round_half_even_Z (q : Q) (z : Z) : (q == inject_Z z)%Q → round_half_even q = z.
Proof.
  intros E. unfold round_half_even.
  assert (Ef : Qfloor q = z) by (rewrite E; apply Qfloor_Z).
  rewrite Ef.
  destruct (Qcompare_spec (q - inject_Z z) (1 # 2)) as [E'|E'|E']; [lra|done|lra].
Qed.

(** Rounding to an integer never crosses an integer. *)
Lemma round_half_even_ge (q : Q) (z : Z) : (inject_Z z <= q)%Q → z <= round_half_even q.
Proof.
  intros H. unfold round_half_even.
  assert (z <= Qfloor q).
  { rewrite <- (Qfloor_Z z). by apply Qfloor_resp_le. }
  destruct (q - inject_Z (Qfloor q) ?= 1 # 2)%Q; [destruct (Z.even _)| |]; lia.
Qed.

Lemma round_half_even_le (q : Q) (z : Z) : (q <= inject_Z z)%Q → round_half_even q <= z.
Proof.
  intros H. unfold round_half_even.
  pose proof (Qfloor_le q) as H1. pose proof (Qlt_floor q) as H2.
  set (f := Qfloor q) in *.
  rewrite inject_Z_plus in H2. change (inject_Z 1) with 1%Q in H2.
  assert (Hf : f <= z).
  { rewrite <- (Qfloor_Z z). by apply Qfloor_resp_le. }
  destruct (decide (f = z)) as [->|Hne].
  - assert (E : (q == inject_Z z)%Q) by lra.
    destruct (Qcompare_spec (q - inject_Z z) (1 # 2)) as [E'|E'|E']; [lra|lia|lra].
  - destruct (q - inject_Z f ?= 1 # 2)%Q; [destruct (Z.even _)| |]; lia.
Qed.

Lemma Qabs_Zabs (m : Z) : Qabs (inject_Z m) = inject_Z (Z.abs m).
Proof. reflexivity. Qed.

Lemma Qred_inject_Z (z : Z) : Qred (inject_Z z) = inject_Z z.
Proof.
  unfold Qred, inject_Z.
  pose proof (Z.ggcd_gcd z 1) as Hg. pose proof (Z.ggcd_correct_divisors z 1) as Hd.
  destruct (Z.ggcd z 1) as [g [n d]]. simpl in Hg, Hd. rewrite Z.gcd_1_r in Hg. subst g.
  destruct Hd as [-> Hd]. assert (d = 1) as -> by lia. by rewrite Z.mul_1_l.
Qed.

Lemma round64_nonzero (q : Q) :
  ¬ (q == 0)%Q →
  round64 q = if Qle_bool (pow2 1024) (Qabs (candidate q))
              then (if Qle_bool 0 q then PInf else NInf)
              else Fin (Qred (candidate q)).
Proof.
  intros Hq. unfold round64.
  destruct (Qeq_bool q 0) eqn:E; [|done]. apply Qeq_bool_iff in E. done.
Qed.

Lemma round64_zero (q : Q) : (q == 0)%Q → round64 q = Fin 0.
Proof. intros Hq. unfold round64. by rewrite (Qeq_eq_bool _ _ Hq). Qed.

Lemma candidate_near (q : Q) :
  (Qabs (candidate q - q) <= pow2 (ulp_exponent q - 1))%Q.
Proof.
  unfold candidate. set (e := ulp_exponent q).
  pose proof (pow2_pos e) as He.
  pose proof (round_half_even_spec (q / pow2 e)) as H.
  set (m := round_half_even (q / pow2 e)) in *.
  assert (E : (inject_Z m * pow2 e - q == (inject_Z m - q / pow2 e) * pow2 e)%Q).
  { field. lra. }
  rewrite E, Qabs_Qmult, (Qabs_pos (pow2 e)) by lra.
  assert (E2 : (pow2 (e - 1) == (1 # 2) * pow2 e)%Q).
  { replace (e - 1) with (-1 + e) by lia. rewrite pow2_add. reflexivity. }
  rewrite E2. apply Qmult_le_compat_r; [done|lra].
Qed.

Lemma ulp_exponent_bound (q : Q) :
  ¬ (q == 0)%Q →
  (pow2 (ulp_exponent q - 1) <= pow2 (-53) * Qabs q + pow2 (-1075))%Q.
Proof.
  intros Hq. destruct (ilog2_spec q Hq) as [Hlo _]. unfold ulp_exponent.
  pose proof (pow2_pos (-1075)). pose proof (Qabs_nonneg q).
  destruct (Z.max_spec (ilog2 q - 52) (-1074)) as [[_ ->]|[_ ->]].
  - change (-1074 - 1) with (-1075). 
    assert (0 <= pow2 (-53) * Qabs q)%Q by (apply Qmult_le_0_compat; [by compute|done]).
    lra.
  - replace (ilog2 q - 52 - 1) with (-53 + ilog2 q) by lia. rewrite pow2_add.
    assert (pow2 (-53) * pow2 (ilog2 q) <= pow2 (-53) * Qabs q)%Q.
    { apply Qmult_le_l; [reflexivity|done]. }
    lra.
Qed.

(** Rounding never makes a not-a-number, and overflows on the side of its
    argument. *)
Lemma round64_cases (q : Q) :
  (∃ p, round64 q = Fin p) ∨ (round64 q = PInf ∧ (0 < q)%Q) ∨ (round64 q = NInf ∧ (q < 0)%Q).
Proof.
  destruct (Qeq_dec q 0) as [Hq|Hq].
  - left. exists 0%Q. by apply round64_zero.
  - rewrite round64_nonzero by done.
    destruct (Qle_bool (pow2 1024) _); [|left; eauto].
    destruct (Qle_bool 0 q) eqn:E.
    + right. left. split; [done|]. apply Qle_bool_iff in E. lra.
    + right. right. split; [done|]. apply Qnot_le_lt. intros H.
      apply Qle_bool_iff in H. congruence.
Qed.

(** The rounding error: half a unit in the last place, which is a
    relative error of [2^-53] above the subnormal range and an absolute
    error of [2^-1075] within it. *)
Lemma round64_error (q p : Q) :
  round64 q = Fin p → (Qabs (p - q) <= pow2 (-53) * Qabs q + pow2 (-1075))%Q.
Proof.
  intros H. destruct (Qeq_dec q 0) as [Hq|Hq].
  - rewrite round64_zero in H by done. injection H as <-.
    assert (E : (0 - q == 0)%Q) by lra. rewrite E, Hq. by compute.
  - rewrite round64_nonzero in H by done.
    destruct (Qle_bool (pow2 1024) _); [by destruct (Qle_bool 0 q)|].
    injection H as <-. rewrite Qred_correct.
    eapply Qle_trans; [apply candidate_near|]. by apply ulp_exponent_bound.
Qed.

(** No overflow below [2^1023]. *)
Lemma round64_finite (q : Q) :
  (Qabs q <= pow2 1023)%Q → ∃ p, round64 q = Fin p.
Proof.
  intros Hb. destruct (Qeq_dec q 0) as [Hq|Hq].
  - exists 0%Q. by apply round64_zero.
  - rewrite round64_nonzero by done.
    destruct (Qle_bool (pow2 1024) _) eqn:E; [|eauto]. exfalso.
    apply Qle_bool_iff in E.
    pose proof (candidate_near q) as Hn.
    destruct (ilog2_spec q Hq) as [Hlo _].
    assert (Hk : ilog2 q <= 1023) by (apply pow2_le_inv; lra).
    assert (He : (pow2 (ulp_exponent q - 1) <= pow2 970)%Q).
    { apply pow2_le. unfold ulp_exponent. lia. }
    assert (Hc : (Qabs (candidate q) <= Qabs q + pow2 970)%Q).
    { pose proof (Qabs_triangle (candidate q - q) q) as T.
      assert (E' : (candidate q - q + q == candidate q)%Q) by ring.
      rewrite E' in T. lra. }
    assert (Hs : (pow2 1023 + pow2 970 < pow2 1024)%Q) by (by vm_compute).
    lra.
Qed.

(** Rounding keeps the sign. *)
Lemma round64_nonneg (q p : Q) : round64 q = Fin p → (0 <= q)%Q → (0 <= p)%Q.
Proof.
  intros H Hq0. destruct (Qeq_dec q 0) as [Hq|Hq].
  - rewrite round64_zero in H by done. injection H as <-. done.
  - rewrite round64_nonzero in H by done.
    destruct (Qle_bool (pow2 1024) _); [by destruct (Qle_bool 0 q)|].
    injection H as <-. rewrite Qred_correct. unfold candidate.
    pose proof (pow2_pos (ulp_exponent q)) as He.
    apply Qmult_le_0_compat; [|lra].
    change 0%Q with (inject_Z 0). rewrite <- Zle_Qle.
    apply round_half_even_ge. change (inject_Z 0) with 0%Q.
    apply Qle_shift_div_l; [done|]. lra.
Qed.

Lemma round64_nonpos (q p : Q) : round64 q = Fin p → (q <= 0)%Q → (p <= 0)%Q.
Proof.
  intros H Hq0. destruct (Qeq_dec q 0) as [Hq|Hq].
  - rewrite round64_zero in H by done. injection H as <-. done.
  - rewrite round64_nonzero in H by done.
    destruct (Qle_bool (pow2 1024) _); [by destruct (Qle_bool 0 q)|].
    injection H as <-. rewrite Qred_correct. unfold candidate.
    pose proof (pow2_pos (ulp_exponent q)) as He.
    assert (Hm : round_half_even (q / pow2 (ulp_exponent q)) <= 0).
    { apply round_half_even_le. change (inject_Z 0) with 0%Q.
      apply Qle_shift_div_r; [done|]. lra. }
    rewrite Zle_Qle in Hm. change (inject_Z 0) with 0%Q in Hm.
    set (m := inject_Z _) in *. clearbody m.
    assert (0 <= (- m) * pow2 (ulp_exponent q))%Q by (apply Qmult_le_0_compat; lra).
    lra.
Qed.

(** A value at or above a power of two is not rounded below it. *)
Lemma round64_ge_leading (q p : Q) :
  round64 q = Fin p → (0 < q)%Q → -1022 <= ilog2 q → (pow2 (ilog2 q) <= p)%Q.
Proof.
  intros H Hq0 Hk.
  assert (Hq : ¬ (q == 0)%Q) by lra.
  rewrite round64_nonzero in H by done.
  destruct (Qle_bool (pow2 1024) _); [by destruct (Qle_bool 0 q)|].
  injection H as <-. rewrite Qred_correct. unfold candidate.
  destruct (ilog2_spec q Hq) as [Hlo _]. rewrite Qabs_pos in Hlo by lra.
  unfold ulp_exponent. rewrite Z.max_l by lia.
  set (e := ilog2 q - 52).
  pose proof (pow2_pos e) as He.
  assert (E : (pow2 (ilog2 q) == inject_Z (2 ^ 52) * pow2 e)%Q).
  { rewrite <- pow2_Z by lia. rewrite <- pow2_add. unfold e.
    by replace (52 + (ilog2 q - 52)) with (ilog2 q) by lia. }
  rewrite E. apply Qmult_le_compat_r; [|lra].
  rewrite <- Zle_Qle. apply round_half_even_ge.
  apply Qle_shift_div_l; [done|]. lra.
Qed.

Lemma round64_ge_1 (q p : Q) : round64 q = Fin p → (1 <= q)%Q → (1 <= p)%Q.
Proof.
  intros H Hq1.
  assert (Hq : ¬ (q == 0)%Q) by lra.
  destruct (ilog2_spec q Hq) as [_ Hhi]. rewrite Qabs_pos in Hhi by lra.
  assert (Hk : 0 < ilog2 q + 1).
  { apply pow2_lt_inv. change (pow2 0) with 1%Q. lra. }
  pose proof (round64_ge_leading q p H ltac:(lra) ltac:(lia)) as Hp.
  assert (pow2 0 <= pow2 (ilog2 q))%Q by (apply pow2_le; lia).
  change (pow2 0) with 1%Q in *. lra.
Qed.

(** A value that binary64 represents is its own rounding. *)
Lemma round64_representable (p : Q) (m e : Z) :
  (p == inject_Z m * pow2 e)%Q → Z.abs m <= 2 ^ 53 → -1074 <= e →
  (Qabs p < pow2 1024)%Q →
  round64 p = Fin (Qred p).
Proof.
  intros Ep Hm He Hb. destruct (Qeq_dec p 0) as [Hp|Hp].
  - rewrite round64_zero by done. f_equal. symmetry.
    change 0%Q with (Qred 0). by apply Qred_complete.
  - rewrite round64_nonzero by done.
    destruct (ilog2_spec p Hp) as [Hlo _].
    pose proof (pow2_pos e) as Hpe.
    assert (Eabs : (Qabs p == inject_Z (Z.abs m) * pow2 e)%Q).
    { rewrite Ep, Qabs_Qmult, (Qabs_pos (pow2 e)) by lra.
      apply Qmult_comp; [|reflexivity]. by rewrite Qabs_Zabs. }
    assert (Hk : ilog2 p <= 53 + e).
    { apply pow2_le_inv. rewrite pow2_add, (pow2_Z 53) by lia.
      rewrite Eabs in Hlo.
      assert (inject_Z (Z.abs m) * pow2 e <= inject_Z (2 ^ 53) * pow2 e)%Q.
      { apply Qmult_le_compat_r; [|lra]. by rewrite <- Zle_Qle. }
      lra. }
    assert (Hcand : (candidate p == p)%Q).
    { unfold candidate. set (e' := ulp_exponent p).
      pose proof (pow2_pos e') as Hpe'.
      assert (Hint : ∃ z, (p / pow2 e' == inject_Z z)%Q).
      { destruct (decide (e' <= e)) as [Hle|Hgt].
        - exists (m * 2 ^ (e - e')).
          rewrite inject_Z_mult, <- pow2_Z by lia. rewrite Ep.
          replace e with ((e - e') + e') at 1 by lia. rewrite pow2_add. field. lra.
        - assert (He' : e' = e + 1) by (unfold e', ulp_exponent in *; lia).
          assert (Hk' : ilog2 p = 53 + e) by (unfold e', ulp_exponent in *; lia).
          assert (Hm' : 2 ^ 53 <= Z.abs m).
          { rewrite Zle_Qle. apply (Qmult_le_r _ _ (pow2 e)); [done|].
            rewrite <- Eabs, <- pow2_Z, <- pow2_add, <- Hk' by lia. done. }
          exists (m / 2).
          assert (Em : m = 2 * (m / 2)).
          { apply Z.div_exact; [lia|].
            destruct (Z.abs_spec m) as [[_ E]|[_ E]].
            - assert (m = 2 ^ 53) as -> by lia. reflexivity.
            - assert (m = - 2 ^ 53) as -> by lia. reflexivity. }
          rewrite Ep, He', pow2_add. rewrite Em at 1. rewrite inject_Z_mult.
          change (pow2 1) with 2%Q. change (inject_Z 2) with 2%Q. field. lra. }
      destruct Hint as [z Hz]. rewrite (round_half_even_Z _ z Hz), <- Hz. field. lra. }
    assert (Ht : Qle_bool (pow2 1024) (Qabs (candidate p)) = false).
    { destruct (Qle_bool _ _) eqn:E; [|done]. apply Qle_bool_iff in E.
      rewrite Hcand in E. lra. }
    rewrite Ht. f_equal. by apply Qred_complete.
Qed.

(** What [round64] returns is a value that binary64 represents. *)
Lemma round64_idempotent (q p : Q) : round64 q = Fin p → round64 p = Fin p.
Proof.
  intros H. destruct (Qeq_dec q 0) as [Hq|Hq].
  - rewrite round64_zero in H by done. injection H as <-. by apply round64_zero.
  - rewrite round64_nonzero in H by done.
    destruct (Qle_bool (pow2 1024) _) eqn:Et; [by destruct (Qle_bool 0 q)|].
    injection H as <-.
    assert (Hlt : (Qabs (candidate q) < pow2 1024)%Q).
    { apply Qnot_le_lt. intros E. apply Qle_bool_iff in E. congruence. }
    rewrite (round64_representable (Qred (candidate q))
               (round_half_even (q / pow2 (ulp_exponent q))) (ulp_exponent q)).
    + f_equal. apply Qred_complete, Qred_correct.
    + by rewrite Qred_correct.
    + destruct (ilog2_spec q Hq) as [_ Hhi].
      set (e := ulp_exponent q). pose proof (pow2_pos e) as Hpe.
      assert (Hb : (Qabs q < inject_Z (2 ^ 53) * pow2 e)%Q).
      { rewrite <- pow2_Z, <- pow2_add by lia.
        eapply Qlt_le_trans; [exact Hhi|]. apply pow2_le. unfold e, ulp_exponent. lia. }
      apply Qabs_Qlt_condition in Hb as [Hb1 Hb2].
      apply Z.abs_le. split.
      * apply round_half_even_ge. apply Qle_shift_div_l; [done|].
        rewrite inject_Z_opp. lra.
      * apply round_half_even_le. apply Qle_shift_div_r; [done|]. lra.
    + unfold ulp_exponent. lia.
    + by rewrite Qred_correct.
Qed.

(** An integer of at most 53 bits is converted exactly. *)
Lemma round64_int (z : Z) : Z.abs z <= 2 ^ 53 → round64 (inject_Z z) = Fin (inject_Z z).
Proof.
  intros Hz.
  rewrite (round64_representable (inject_Z z) z 0); [| |done|lia|].
  - f_equal. apply Qred_inject_Z.
  - change (pow2 0) with 1%Q. ring.
  - rewrite Qabs_Zabs. 
    assert (inject_Z (Z.abs z) <= inject_Z (2 ^ 53))%Q by (by rewrite <- Zle_Qle).
    assert (inject_Z (2 ^ 53) < pow2 1024)%Q by (by vm_compute).
    lra.
Qed.

(** ** The rounding error of equation (2.7) *)

Ltac literal_u := change (pow2 (-53)) with (1 # 9007199254740992)%Q in *.

Ltac unabs :=
  repeat match goal with
  | H : (Qabs _ <= _)%Q |- _ => apply Qabs_Qle_condition in H; destruct H
  | |- (Qabs _ <= _)%Q => apply Qabs_Qle_condition; split
  end.

(** The rounding error against a bound [B] on the magnitude of the exact
    result. *)
Lemma round64_within (q B : Q) :
  (Qabs q <= B)%Q → (B <= pow2 1023)%Q →
  ∃ p, round64 q = Fin p ∧
       (Qabs (p - q) <= pow2 (-53) * B + pow2 (-1075))%Q ∧
       (Qabs p <= B + (pow2 (-53) * B + pow2 (-1075)))%Q.
Proof.
  intros HB Hmax. destruct (round64_finite q) as [p Hp]; [lra|].
  exists p. split; [done|].
  pose proof (round64_error q p Hp) as He.
  assert (pow2 (-53) * Qabs q <= pow2 (-53) * B)%Q by (apply Qmult_le_l; done).
  split; [lra|].
  pose proof (Qabs_triangle (p - q) q) as T.
  assert (E : (p - q + q == p)%Q) by ring. rewrite E in T. lra.
Qed.

Lemma scale_le (n w y r : Q) :
  (0 <= n)%Q → (n <= w)%Q → (Qabs y <= r)%Q → (Qabs (n * y) <= w * r)%Q.
Proof.
  intros Hn Hw Hy. rewrite Qabs_Qmult, (Qabs_pos n) by done.
  pose proof (Qabs_nonneg y). set (ay := Qabs y) in *. clearbody ay. nra.
Qed.

Lemma div_le (w y r s : Q) :
  (1 <= w)%Q → (Qabs y <= w * r + s)%Q → (0 <= s)%Q → (Qabs (y / w) <= r + s)%Q.
Proof.
  intros Hw Hy Hs. unfold Qdiv. rewrite Qabs_Qmult, (Qabs_pos (/ w)).
  2: { apply Qinv_le_0_compat. lra. }
  apply Qle_shift_div_r; [lra|]. nra.
Qed.

Lemma div_le_exact (w y B : Q) :
  (0 < w)%Q → (Qabs y <= B)%Q → (Qabs (y / w) <= B / w)%Q.
Proof.
  intros Hw Hy. unfold Qdiv. rewrite Qabs_Qmult, (Qabs_pos (/ w)).
  2: { apply Qinv_le_0_compat. lra. }
  apply Qmult_le_compat_r; [done|]. apply Qinv_le_0_compat. lra.
Qed.

Lemma scale_div_le (n w y r s : Q) :
  (Qabs y <= r / w + s)%Q →
  (0 <= n)%Q → (n <= w)%Q → (0 < w)%Q → (0 <= r)%Q → (0 <= s)%Q →
  (Qabs (n * y) <= r + w * s)%Q.
Proof.
  intros Hy Hn Hnw Hw Hr Hs. rewrite Qabs_Qmult, (Qabs_pos n) by done.
  pose proof (Qabs_nonneg y). set (ay := Qabs y) in *. clearbody ay.
  assert (E : (r == r / w * w)%Q) by (field; lra).
  assert (0 <= r / w)%Q by (apply Qle_shift_div_l; lra).
  set (rw := (r / w)%Q) in *. clearbody rw. nra.
Qed.

(** A point of the segment from [c] to [d]. *)
Lemma interpolation (n w c d : Q) :
  (0 <= n)%Q → (n <= w)%Q → (0 < w)%Q →
  (Qmin c d <= c + n / w * (d - c))%Q ∧ (c + n / w * (d - c) <= Qmax c d)%Q.
Proof.
  intros Hn Hnw Hw.
  assert (Hf0 : (0 <= n / w)%Q) by (apply Qle_shift_div_l; lra).
  assert (Hf1 : (n / w <= 1)%Q) by (apply Qle_shift_div_r; lra).
  set (f := (n / w)%Q) in *. clearbody f.
  destruct (Q.min_spec c d) as [[? ->]|[? ->]], (Q.max_spec c d) as [[? ->]|[? ->]];
    split; nra.
Qed.

Lemma small_constants :
  (0 < pow2 (-1075))%Q ∧ (1048576 * pow2 (-1075) <= pow2 (-1050))%Q ∧
  (400000 * pow2 1002 + 1 <= pow2 1023)%Q ∧ (pow2 1002 == 4 * pow2 1000)%Q ∧
  (pow2 (-1050) <= 1 # 1000000)%Q.
Proof. by vm_compute. Qed.

(** Equation (2.7) in binary64, against the exact point of the segment:
    for a walk of at most 100000 steps and ends of magnitude at most [m],
    with [m] at most [2^1002], the entry is finite and within
    [m * 2^-50 + 2^-1050] of the exact value. *)
Lemma normalize_error (v : variant) (a b x : Z) (c d m : Q) :
  a <= x <= b → 1 <= b - a <= 100000 →
  (Qabs c <= m)%Q → (Qabs d <= m)%Q → (m <= pow2 1002)%Q →
  ∃ p, normalize v a b (Fin c) (Fin d) x = Fin p ∧
       (Qabs (p - (c + inject_Z (x - a) / inject_Z (b - a) * (d - c)))
        <= m * pow2 (-50) + pow2 (-1050))%Q.
Proof.
  intros Hx Hw Hc Hd Hm.
  destruct small_constants as (Heta & Heta2 & Hbig & _ & Htau).
  assert (Hnq : (0 <= inject_Z (x - a))%Q) by (apply inject_Z_nonneg; lia).
  assert (Hnw : (inject_Z (x - a) <= inject_Z (b - a))%Q) by (rewrite <- Zle_Qle; lia).
  assert (Hw1 : (1 <= inject_Z (b - a))%Q).
  { change 1%Q with (inject_Z 1). rewrite <- Zle_Qle. lia. }
  assert (Hw2 : (inject_Z (b - a) <= 100000)%Q).
  { change 100000%Q with (inject_Z 100000). rewrite <- Zle_Qle. lia. }
  pose proof (interpolation (inject_Z (x - a)) (inject_Z (b - a)) c d Hnq Hnw ltac:(lra))
    as [Hi1 Hi2].
  assert (Hm0 : (0 <= m)%Q) by (pose proof (Qabs_nonneg c); lra).
  assert (Ht : (Qabs (c + inject_Z (x - a) / inject_Z (b - a) * (d - c)) <= m)%Q).
  { apply Qabs_Qle_condition.
    apply Qabs_Qle_condition in Hc as [? ?]. apply Qabs_Qle_condition in Hd as [? ?].
    destruct (Q.min_spec c d) as [[? E1]|[? E1]],
      (Q.max_spec c d) as [[? E2]|[? E2]]; rewrite E1 in Hi1; rewrite E2 in Hi2; split; lra. }
  set (nq := inject_Z (x - a)) in *. set (wq := inject_Z (b - a)) in *.
  set (t := (c + nq / wq * (d - c))%Q) in *.
  assert (Hweta : (wq * pow2 (-1075) <= 100000 * pow2 (-1075))%Q) by (apply Qmult_le_compat_r; lra).
  change (pow2 (-50)) with (1 # 1125899906842624)%Q.
  unfold normalize, normalize_original, normalize_dev, of_int64.
  rewrite !round64_int by lia. fold nq wq.
  change (fsub (Fin d) (Fin c)) with (round64 (d + - c)).
  destruct (round64_within (d + - c) (2 * m)) as (D & -> & HD1 & HD2); [unabs; lra|lra|].
  literal_u.
  destruct v.
  - (* ((X - a) * (d - c)) / (b - a) + c *)
    change (fmul (Fin nq) (Fin D)) with (round64 (nq * D)).
    pose proof (scale_le nq wq D _ Hnq Hnw HD2) as HnD.
    pose proof (scale_le nq wq (D - (d + - c)) _ Hnq Hnw HD1) as HnDA.
    assert (Hwm : (wq * m <= 100000 * m)%Q) by (apply Qmult_le_compat_r; lra).
    destruct (round64_within (nq * D) _ HnD) as (P & -> & HP1 & HP2); [lra|].
    literal_u.
    unfold fdiv. rewrite fdiv_Fin_pos by lra. simpl round.
    assert (HPA : (Qabs (P - nq * (d - c))
                   <= wq * ((1 # 9007199254740992) * (2 * m + ((1 # 9007199254740992) * (2 * m) + pow2 (-1075)))
                            + ((1 # 9007199254740992) * (2 * m) + pow2 (-1075))) + pow2 (-1075))%Q).
    { assert (E : (nq * (D - (d + - c)) == nq * D - nq * (d - c))%Q) by ring.
      rewrite E in HnDA. unabs; lra. }
    pose proof (div_le wq _ _ _ Hw1 HPA ltac:(lra)) as HQA.
    assert (E : ((P - nq * (d - c)) / wq == P / wq - (t - c))%Q) by (unfold t; field; lra).
    rewrite E in HQA.
    assert (HQb : (Qabs (P / wq) <= 2 * m + (1 # 1000000000000) * m + 3 * pow2 (-1075))%Q) by (unabs; lra).
    destruct (round64_within (P / wq) _ HQb) as (Q' & -> & HQ1 & HQ2); [lra|].
    literal_u.
    change (fadd (Fin Q') (Fin c)) with (round64 (Q' + c)).
    assert (HRb : (Qabs (Q' + c) <= m + (1 # 1000000000000) * m + 5 * pow2 (-1075))%Q) by (unabs; lra).
    destruct (round64_within (Q' + c) _ HRb) as (R & -> & HR1 & HR2); [lra|].
    literal_u.
    exists R. split; [done|]. unabs; lra.
  - (* temp0 * temp1 + lb, with temp1 = (ub - lb) / (b - a) *)
    unfold fdiv. rewrite fdiv_Fin_pos by lra. simpl round.
    pose proof (div_le_exact wq D _ ltac:(lra) HD2) as HDw.
    destruct (round64_within (D / wq) _ HDw) as (E' & -> & HE1 & HE2).
    { apply Qle_shift_div_r; [lra|].
      assert (pow2 1023 * 1 <= pow2 1023 * wq)%Q by (apply Qmult_le_l; [by vm_compute|lra]).
      lra. }
    literal_u.
    change (fmul (Fin nq) (Fin E')) with (round64 (nq * E')).
    (* n * (E' - D / w) *)
    assert (HE1' : (Qabs (E' - D / wq)
                    <= ((1 # 9007199254740992) * (2 * m + ((1 # 9007199254740992) * (2 * m) + pow2 (-1075))))
                       / wq + pow2 (-1075))%Q).
    { eapply Qle_trans; [exact HE1|]. unfold Qdiv. lra. }
    pose proof (scale_div_le nq wq _ _ _ HE1' Hnq Hnw ltac:(lra) ltac:(lra) ltac:(lra)) as HnE.
    (* n * (D - A) / w *)
    pose proof (div_le_exact wq _ _ ltac:(lra) HD1) as HDA.
    assert (HDA' : (Qabs ((D - (d + - c)) / wq)
                    <= ((1 # 9007199254740992) * (2 * m) + pow2 (-1075)) / wq + 0)%Q) by lra.
    pose proof (scale_div_le nq wq _ _ _ HDA' Hnq Hnw ltac:(lra) ltac:(lra) ltac:(lra)) as HnDA.
    assert (E : (nq * E' - (t - c) == nq * (E' - D / wq) + nq * ((D - (d + - c)) / wq))%Q)
      by (unfold t; field; lra).
    assert (HnEb : (Qabs (nq * E') <= 2 * m + (1 # 1000000000000) * m + 200000 * pow2 (-1075))%Q).
    { assert (E2 : (nq * E' == (t - c) + (nq * (E' - D / wq) + nq * ((D - (d + - c)) / wq)))%Q)
        by (rewrite <- E; ring).
      rewrite E2. unabs; lra. }
    destruct (round64_within (nq * E') _ HnEb) as (P & -> & HP1 & HP2); [lra|].
    literal_u.
    change (fadd (Fin P) (Fin c)) with (round64 (P + c)).
    assert (HPt : (Qabs (P - (t - c)) <= (1 # 1000000000000) * m + 200000 * pow2 (-1075))%Q).
    { assert (E2 : (P - (t - c) == (P - nq * E') + (nq * (E' - D / wq) + nq * ((D - (d + - c)) / wq)))%Q)
        by (rewrite <- E; ring).
      rewrite E2. unabs; lra. }
    assert (HRb : (Qabs (P + c) <= m + (1 # 1000000000000) * m + 200000 * pow2 (-1075))%Q) by (unabs; lra).
    destruct (round64_within (P + c) _ HRb) as (R & -> & HR1 & HR2); [lra|].
    literal_u.
    exists R. split; [done|].
    assert (E3 : (R - t == (R - (P + c)) + ((P - nq * E') + (nq * (E' - D / wq) + nq * ((D - (d + - c)) / wq))))%Q)
      by (rewrite <- E; ring).
    rewrite E3. unabs; lra.
Qed.

(** ** The shrink ratio in binary64 *)

Lemma inject_Z_abs_le (z B : Z) : Z.abs z <= B → (Qabs (inject_Z z) <= inject_Z B)%Q.
Proof. intros H. rewrite Qabs_Zabs. by rewrite <- Zle_Qle. Qed.

Lemma big_constants :
  (inject_Z (2 ^ 1000) == pow2 1000)%Q ∧ (pow2 1001 == 2 * pow2 1000)%Q ∧
  (1000001 * pow2 1001 + 1 <= pow2 1022)%Q ∧ (2 * pow2 1022 <= pow2 1023)%Q ∧
  (1 <= pow2 1000)%Q ∧ (pow2 (-1075) <= 1 # 1000000)%Q.
Proof. by vm_compute. Qed.

(** A quotient of integers of moderate size is rounded to a finite value
    of the same sign. *)
Lemma true_div_Some (x y : Z) :
  y ≠ 0 → Z.abs x <= 2 ^ 1000 →
  ∃ q, true_div x y = Some (Fin q) ∧ (Qabs q <= pow2 1001)%Q ∧
       (0 <= x → 0 < y → (0 <= q)%Q).
Proof.
  intros Hy Hx. unfold true_div. rewrite decide_False by done.
  destruct big_constants as (E1000 & H1001 & _ & _ & Hp & Hη).
  destruct small_constants as (Heta & _ & Hbig & Hm & Htau).
  assert (Hb : (Qabs (inject_Z x / inject_Z y) <= pow2 1000)%Q).
  { rewrite <- E1000. unfold Qdiv. rewrite Qabs_Qmult, Qabs_Qinv, !Qabs_Zabs.
    assert (H1 : (1 <= inject_Z (Z.abs y))%Q).
    { change 1%Q with (inject_Z 1). rewrite <- Zle_Qle. lia. }
    apply Qle_shift_div_r; [lra|].
    assert (H2 : (inject_Z (Z.abs x) <= inject_Z (2 ^ 1000))%Q) by (by rewrite <- Zle_Qle).
    assert (H3 : (0 <= inject_Z (Z.abs x))%Q) by (apply inject_Z_nonneg; lia).
    set (X := inject_Z (2 ^ 1000)) in *. clearbody X. nra. }
  destruct (round64_within _ _ Hb) as (q & E & _ & Hq); [lra|].
  rewrite E. exists q. split; [done|]. literal_u. split; [lra|].
  intros Hx0 Hy0. eapply round64_nonneg; [exact E|].
  apply Qle_shift_div_l; [by apply inject_Z_pos|].
  pose proof (inject_Z_nonneg x Hx0). lra.
Qed.

Lemma float_of_int_Some (z : Z) :
  Z.abs z <= 2 ^ 1000 →
  ∃ q, float_of_int z = Some (Fin q) ∧ (Qabs q <= pow2 1001)%Q ∧ (0 <= z → (0 <= q)%Q).
Proof.
  intros Hz. unfold float_of_int.
  destruct big_constants as (E1000 & H1001 & _ & _ & Hp & Hη).
  destruct small_constants as (Heta & _ & Hbig & Hm & Htau).
  pose proof (inject_Z_abs_le z _ Hz) as Hb. rewrite E1000 in Hb.
  destruct (round64_within _ _ Hb) as (q & E & _ & Hq); [lra|].
  rewrite E. exists q. split; [done|]. literal_u. split; [lra|].
  intros Hz0. eapply round64_nonneg; [exact E|]. by apply inject_Z_nonneg.
Qed.

Lemma float_of_int_exact (z : Z) : Z.abs z <= 2 ^ 53 → float_of_int z = Some (Fin (inject_Z z)).
Proof. intros Hz. unfold float_of_int. by rewrite round64_int. Qed.

(** One stage of the schedule: the ratio it sets is finite, and at least 1
    when the current epoch is not negative. *)
Lemma stage_Some (K T t : Z) :
  0 <= K <= 1000000 → T ≠ 0 → Z.abs t <= 2 ^ 1000 →
  ∃ i, (r ← true_div t T; x ← int_mul K r; int_add 1 x) = Some (Fin i) ∧
       (0 <= t → 0 < T → (1 <= i)%Q).
Proof.
  intros HK HT Ht.
  destruct big_constants as (E1000 & H1001 & H1022 & H1023 & Hp & Hη).
  destruct small_constants as (Heta & _ & Hbig & Hm & Htau).
  destruct (true_div_Some t T HT Ht) as (r & -> & Hr & Hr0). simpl.
  unfold int_mul, int_add. rewrite !float_of_int_exact by lia. simpl.
  change (fmul (Fin (inject_Z K)) (Fin r)) with (round64 (inject_Z K * r)).
  assert (HK0 : (0 <= inject_Z K)%Q) by (apply inject_Z_nonneg; lia).
  assert (HK1 : (inject_Z K <= 1000000)%Q).
  { change 1000000%Q with (inject_Z 1000000). rewrite <- Zle_Qle. lia. }
  pose proof (scale_le (inject_Z K) 1000000 r _ HK0 HK1 Hr) as Hx.
  destruct (round64_within _ _ Hx) as (x & Ex & _ & Hx'); [lra|]. literal_u.
  rewrite Ex.
  change (fadd (Fin (inject_Z 1)) (Fin x)) with (round64 (inject_Z 1 + x)).
  change (inject_Z 1) with 1%Q.
  assert (Hi : (Qabs (1 + x) <= pow2 1022)%Q) by (unabs; lra).
  destruct (round64_within _ _ Hi) as (i & Ei & _ & _); [lra|].
  rewrite Ei. exists i. split; [done|].
  intros Ht0 HT0. eapply round64_ge_1; [exact Ei|].
  assert (0 <= x)%Q; [|lra].
  eapply round64_nonneg; [exact Ex|]. apply Qmult_le_0_compat; [done|]. by apply Hr0.
Qed.

Lemma int_gt_true (t : Z) (c : Q) : int_gt t (Fin c) = true → (0 <= c)%Q → 0 <= t.
Proof.
  unfold int_gt, Qgtb. intros H Hc.
  destruct (Qle_bool (inject_Z t) c) eqn:E; [done|].
  destruct (decide (0 <= t)) as [|Hn]; [done|]. exfalso.
  assert (Hle : (inject_Z t <= c)%Q).
  { assert (inject_Z t <= 0)%Q; [|lra]. change 0%Q with (inject_Z 0). rewrite <- Zle_Qle. lia. }
  apply Qle_bool_iff in Hle. congruence.
Qed.

(** A threshold of the schedule with the stage it guards. *)
Lemma guarded_stage_Some (K T t : Z) (c i0 : Q) :
  0 <= K <= 1000000 → T ≠ 0 → Z.abs t <= 2 ^ 1000 →
  ∃ i, (if int_gt t (Fin c) then r ← true_div t T; x ← int_mul K r; int_add 1 x
        else Some (Fin i0)) = Some (Fin i) ∧
       (0 < T → (0 <= c)%Q → (1 <= i0)%Q → (1 <= i)%Q).
Proof.
  intros HK HT Ht. destruct (int_gt t (Fin c)) eqn:E.
  - destruct (stage_Some K T t HK HT Ht) as (i & Ei & Hi). exists i. split; [done|].
    intros HT0 Hc _. apply Hi; [|done]. by eapply int_gt_true.
  - exists i0. split; [done|]. by intros _ _ H.
Qed.

Lemma literals : 
  true_div 3 4 = Some (Fin (3 # 4)) ∧
  (∃ l, literal 0.9 = Fin l ∧ (0 <= l)%Q ∧ (l <= 1)%Q) ∧
  (∃ l, literal 0.95 = Fin l ∧ (0 <= l)%Q ∧ (l <= 1)%Q).
Proof.
  split; [by vm_compute|]. split; eexists; (split; [vm_compute; reflexivity|by vm_compute]).
Qed.

(** [int * float] for an integer of moderate size and a float in [[0, 1]]. *)
Lemma int_mul_Some (T : Z) (l : Q) :
  Z.abs T <= 2 ^ 1000 → (0 <= l)%Q → (l <= 1)%Q →
  ∃ c, int_mul T (Fin l) = Some (Fin c) ∧ (0 <= T → (0 <= c)%Q).
Proof.
  intros HT Hl0 Hl1. unfold int_mul.
  destruct big_constants as (E1000 & H1001 & H1022 & H1023 & Hp & Hη).
  destruct small_constants as (Heta & _ & Hbig & Hm & Htau).
  destruct (float_of_int_Some T HT) as (q & -> & Hq & Hq0). simpl.
  change (fmul (Fin q) (Fin l)) with (round64 (q * l)).
  assert (Hb : (Qabs (q * l) <= pow2 1001)%Q).
  { rewrite Qabs_Qmult, (Qabs_pos l) by done. pose proof (Qabs_nonneg q).
    set (aq := Qabs q) in *. clearbody aq. nra. }
  destruct (round64_within _ _ Hb) as (c & Ec & _ & _); [lra|].
  rewrite Ec. exists c. split; [done|]. intros HT0.
  eapply round64_nonneg; [exact Ec|]. apply Qmult_le_0_compat; [by apply Hq0|done].
Qed.

(** With a maximum epoch other than zero and integers of moderate size,
    the computation of [I] returns a finite ratio; the ratio is at least 1
    when the maximum epoch is positive. *)
Lemma shrink_ratio_Some (T t : Z) :
  T ≠ 0 → Z.abs T <= 2 ^ 1000 → Z.abs t <= 2 ^ 1000 →
  ∃ i, shrink_ratio T t = Some (Fin i) ∧ (0 < T → (1 <= i)%Q).
Proof.
  intros HT0 HT Ht. unfold shrink_ratio.
  destruct literals as (E34 & (l9 & E9 & H9) & (l95 & E95 & H95)).
  destruct (true_div_Some T 10 ltac:(lia) HT) as (c1 & -> & _ & Hc1). cbn [mbind option_bind].
  destruct (guarded_stage_Some 100 T t c1 1 ltac:(lia) HT0 Ht) as (i1 & -> & Hi1). cbn [mbind option_bind].
  destruct (true_div_Some T 2 ltac:(lia) HT) as (c2 & -> & _ & Hc2). cbn [mbind option_bind].
  destruct (guarded_stage_Some 1000 T t c2 i1 ltac:(lia) HT0 Ht) as (i2 & -> & Hi2). cbn [mbind option_bind].
  rewrite E34. cbn [mbind option_bind].
  destruct (int_mul_Some T (3 # 4) HT ltac:(lra) ltac:(lra)) as (c3 & -> & Hc3). cbn [mbind option_bind].
  destruct (guarded_stage_Some 10000 T t c3 i2 ltac:(lia) HT0 Ht) as (i3 & -> & Hi3). cbn [mbind option_bind].
  rewrite E9.
  destruct (int_mul_Some T l9 HT ltac:(tauto) ltac:(tauto)) as (c4 & -> & Hc4). cbn [mbind option_bind].
  destruct (guarded_stage_Some 100000 T t c4 i3 ltac:(lia) HT0 Ht) as (i4 & -> & Hi4). cbn [mbind option_bind].
  rewrite E95.
  destruct (int_mul_Some T l95 HT ltac:(tauto) ltac:(tauto)) as (c5 & -> & Hc5). cbn [mbind option_bind].
  destruct (guarded_stage_Some 1000000 T t c5 i4 ltac:(lia) HT0 Ht) as (i5 & -> & Hi5). cbn [mbind option_bind].
  exists i5. split; [done|]. intros HTp.
  apply Hi5; [done|apply Hc5; lia|].
  apply Hi4; [done|apply Hc4; lia|].
  apply Hi3; [done|apply Hc3; lia|].
  apply Hi2; [done|apply Hc2; lia|].
  apply Hi1; [done|apply Hc1; lia|lra].
Qed.

(** ** The walk in binary64 *)

Lemma in_range_abs {G} (self : Optimizer G) (t : Z) :
  1 <= epoch self → in_range self t →
  epoch self ≠ 0 ∧ Z.abs (epoch self) <= 2 ^ 1000 ∧ Z.abs t <= 2 ^ 1000.
Proof.
  intros HT (He & _ & Ht). split; [lia|]. split; [|done].
  assert (100000 <= 2 ^ 1000) by (by vm_compute). lia.
Qed.

Section Bounds64.
Context {G : Type} (gen_random : G → Q * G).

(** With a valid configuration and sizes in range the recentring finishes
    and moves nothing but the generator; every recentred bound is the
    bound of its dimension divided by [I], with or without a change of
    sign, plus the entry of the reference solution. *)
Lemma recentred_bounds_total64 (solution : list num) (t : Z) (self : Optimizer G) :
  1 <= epoch self → in_range self t →
  length solution = n_dims (problem self) →
  length (ub (problem self)) = n_dims (problem self) →
  ∃ i lbs ubs g,
    shrink_ratio (epoch self) t = Some (Fin i) ∧ (1 <= i)%Q ∧
    recentred_bounds gen_random solution t self = Some ((lbs, ubs), set_generator g self) ∧
    length lbs = n_dims (problem self) ∧ length ubs = n_dims (problem self) ∧
    (∀ k c, lbs !! k = Some c →
       ∃ l s, lb (problem self) !! k = Some l ∧ solution !! k = Some s ∧
              (c = fadd (fdiv (Fin l) (Fin i)) s ∨
               c = fadd (fneg (fdiv (Fin l) (Fin i))) s)) ∧
    (∀ k c, ubs !! k = Some c →
       ∃ l s, ub (problem self) !! k = Some l ∧ solution !! k = Some s ∧
              (c = fadd (fdiv (Fin l) (Fin i)) s ∨
               c = fadd (fneg (fdiv (Fin l) (Fin i))) s)).
Proof.
  intros HT Hr Hsol Hub. unfold n_dims in *.
  destruct (in_range_abs self t HT Hr) as (HT0 & HTa & Hta).
  destruct (shrink_ratio_Some (epoch self) t HT0 HTa Hta) as (i & HI & Hi).
  specialize (Hi ltac:(lia)).
  destruct (random_total gen_random self) as (r1 & g1 & E1).
  destruct (random_total gen_random (set_generator g1 self)) as (r2 & g2 & E2).
  set (scale := λ x : Q, fdiv (Fin x) (Fin i)).
  set (move := λ (r : Q) (bs : list num),
         if Qltb r 0.5 then zip_with fadd bs solution
         else zip_with fadd (fneg <$> bs) solution).
  exists i, (move r1 (scale <$> lb (problem self))),
         (move r2 (scale <$> ub (problem self))), g2.
  assert (Hlen : ∀ r bs, length bs = length solution → length (move r bs) = length solution).
  { intros r bs Hbs. unfold move. destruct (Qltb r 0.5).
    - rewrite length_zip_with. lia.
    - rewrite length_zip_with, length_fmap. lia. }
  assert (Hval : ∀ r (bs : list Q) k c, move r (scale <$> bs) !! k = Some c →
            ∃ l s, bs !! k = Some l ∧ solution !! k = Some s ∧
                   (c = fadd (fdiv (Fin l) (Fin i)) s ∨
                    c = fadd (fneg (fdiv (Fin l) (Fin i))) s)).
  { intros r bs k c Hc. unfold move in Hc. destruct (Qltb r 0.5).
    - apply lookup_zip_with_Some in Hc as (x & s & -> & Hx & Hs).
      rewrite list_lookup_fmap in Hx. destruct (bs !! k) as [l|]; [|done].
      injection Hx as <-. exists l, s. split; [done|]. split; [done|by left].
    - apply lookup_zip_with_Some in Hc as (x & s & -> & Hx & Hs).
      rewrite !list_lookup_fmap in Hx. destruct (bs !! k) as [l|]; [|done].
      injection Hx as <-. exists l, s. split; [done|]. split; [done|by right]. }
  split; [done|]. split; [done|]. split; [|split; [|split; [|split]]].
  - unfold recentred_bounds, mbind, ST_bind, get, try. rewrite HI, E1.
    cbv beta iota zeta.
    assert (Hb : ∀ r (bs : list Q), length bs = length solution →
              (if Qltb r 0.5 then broadcast2 fadd (scale <$> bs) solution
               else broadcast2 fadd (fneg <$> (scale <$> bs)) solution)
              = Some (move r (scale <$> bs))).
    { intros r bs Hbs. unfold move. destruct (Qltb r 0.5).
      - apply broadcast2_same. by rewrite length_fmap.
      - apply broadcast2_same. by rewrite !length_fmap. }
    fold scale. rewrite Hb by congruence. rewrite E2. cbv beta iota.
    rewrite Hb by congruence. done.
  - rewrite Hlen; [done|]. rewrite length_fmap. congruence.
  - rewrite Hlen; [done|]. rewrite length_fmap. congruence.
  - apply Hval.
  - apply Hval.
Qed.

Lemma OriginalALO_walk_total64 (solution : list num) (t : Z) (self : Optimizer G) :
  1 <= epoch self → in_range self t →
  length solution = n_dims (problem self) →
  length (ub (problem self)) = n_dims (problem self) →
  ∃ M g lbs ubs g0,
    OriginalALO_random_walk_antlion__ gen_random solution t self
      = Some (M, set_generator g self) ∧
    recentred_bounds gen_random solution t self = Some ((lbs, ubs), set_generator g0 self) ∧
    Forall2 (walk_row OriginalALO (epoch self) lbs ubs) (seq 0 (n_dims (problem self))) M.
Proof.
  intros HT Hr Hsol Hub.
  destruct (recentred_bounds_total64 solution t self HT Hr Hsol Hub)
    as (i & lbs & ubs & g0 & _ & _ & E0 & Hl & Hu & _).
  set (n := n_dims (problem self)) in *.
  set (row_ok := λ (k : Z) (row : list num),
         ∃ i : nat, k = Z.of_nat i ∧ walk_row OriginalALO (epoch self) lbs ubs i row).
  unfold OriginalALO_random_walk_antlion__, mbind at 1, ST_bind at 1. rewrite E0.
  cbv beta iota. unfold mbind at 1, ST_bind at 1, get. cbv beta iota.
  change (problem (set_generator g0 self)) with (problem self).
  change (epoch (set_generator g0 self)) with (epoch self). fold n.
  match goal with
  | |- context [for_each ?xs ?body _ _] =>
      pose proof (for_each_total
                    (λ pre acc s, only_generator self s ∧ Forall2 row_ok pre acc)
                    xs body) as Hloop
  end.
  destruct Hloop with (pre := @nil Z) (acc := @nil (list num)) (s := set_generator g0 self)
    as (M & s' & Hrun & [g ->] & HM).
  - intros pre k temp s [[g ->] Hpre] Hk.
    apply elem_of_range in Hk.
    destruct (raw_walk_total gen_random (epoch self) (set_generator g self) ltac:(lia))
      as (rs & g' & EX & Hrs).
    destruct (np_min_is_Some (cumsum (step <$> rs))) as [a Ha];
      [apply cumsum_nonempty; lia|].
    destruct (np_max_is_Some (cumsum (step <$> rs))) as [b Hb];
      [apply cumsum_nonempty; lia|].
    assert (Hi : (Z.to_nat k < n)%nat) by lia.
    destruct (lookup_lt_is_Some_2 lbs (Z.to_nat k)) as [c Hc]; [lia|].
    destruct (lookup_lt_is_Some_2 ubs (Z.to_nat k)) as [d Hd]; [lia|].
    eexists _, _. split.
    + unfold mbind, ST_bind. rewrite EX. cbv beta iota. unfold try.
      rewrite Ha, Hb.
      replace k with (Z.of_nat (Z.to_nat k)) by lia.
      rewrite !py_getitem_nat by lia. rewrite Hc, Hd. reflexivity.
    + split; [by exists g'|].
      apply Forall2_app; [done|]. constructor; [|constructor].
      exists (Z.to_nat k). split; [lia|].
      exists rs, a, b, c, d. done.
  - split; [by exists g0|constructor].
  - exists M, g, lbs, ubs, g0. split; [exact Hrun|]. split; [done|].
    simpl in HM. unfold range in HM. rewrite Nat2Z.id in HM.
    apply Forall2_fmap_l in HM.
    eapply Forall2_impl; [exact HM|].
    intros j row (j' & Hj & Hrow). apply Nat2Z.inj in Hj. by subst.
Qed.

Lemma DevALO_walk_total64 (solution : list num) (t : Z) (self : Optimizer G) :
  1 <= epoch self → 1 <= pop_size self → in_range self t →
  n_dims (problem self) ≠ 0%nat →
  length solution = n_dims (problem self) →
  length (ub (problem self)) = n_dims (problem self) →
  ∃ M g lbs ubs g0,
    DevALO_random_walk_antlion__ gen_random solution t self
      = Some (M, set_generator g self) ∧
    recentred_bounds gen_random solution t self = Some ((lbs, ubs), set_generator g0 self) ∧
    Forall2 (walk_row DevALO (pop_size self) lbs ubs) (seq 0 (n_dims (problem self))) M.
Proof.
  intros HT HP Hr Hn Hsol Hub.
  destruct (recentred_bounds_total64 solution t self HT Hr Hsol Hub)
    as (i & lbs & ubs & g0 & _ & _ & E0 & Hl & Hu & _).
  set (n := n_dims (problem self)) in *.
  set (raw_ok := λ (k : Z) (row : list Z),
         ∃ rs : list Q, length rs = Z.to_nat (pop_size self) ∧ row = cumsum (step <$> rs)).
  unfold DevALO_random_walk_antlion__, mbind at 1, ST_bind at 1. rewrite E0.
  cbv beta iota. unfold mbind at 1, ST_bind at 1, get. cbv beta iota zeta.
  change (problem (set_generator g0 self)) with (problem self).
  change (pop_size (set_generator g0 self)) with (pop_size self). fold n.
  match goal with
  | |- context [for_each ?xs ?body _] =>
      pose proof (for_each_total
                    (λ pre acc s, only_generator self s ∧ Forall2 raw_ok pre acc)
                    xs body) as Hloop
  end.
  destruct Hloop with (pre := @nil Z) (acc := @nil (list Z)) (s := set_generator g0 self)
    as (X & s' & Hrun & [g ->] & HX).
  { intros pre k rows s [[g ->] Hpre] Hk.
    destruct (raw_walk_total gen_random (pop_size self) (set_generator g self) ltac:(lia))
      as (rs & g' & EX & Hrs).
    eexists _, _. split.
    - unfold mbind, ST_bind. rewrite EX. reflexivity.
    - split; [by exists g'|].
      apply Forall2_app; [done|]. constructor; [|constructor]. by exists rs. }
  { split; [by exists g0|constructor]. }
  simpl in HX.
  assert (HlenX : length X = n).
  { apply Forall2_length in HX. rewrite range_length, Nat2Z.id in HX. done. }
  assert (Hrows : Forall (λ row, ∃ rs : list Q,
                     length rs = Z.to_nat (pop_size self) ∧ row = cumsum (step <$> rs)) X).
  { apply Forall_forall. intros row Hrow.
    apply list_elem_of_lookup in Hrow as [j Hj].
    destruct (Forall2_lookup_r _ _ _ _ _ HX Hj) as (k & _ & Hk). exact Hk. }
  destruct (mapM_is_Some_2 np_min X) as [a Ha].
  { eapply Forall_impl; [exact Hrows|]. intros row (rs & Hrs & ->).
    apply np_min_is_Some, cumsum_nonempty. lia. }
  destruct (mapM_is_Some_2 np_max X) as [b Hb].
  { eapply Forall_impl; [exact Hrows|]. intros row (rs & Hrs & ->).
    apply np_max_is_Some, cumsum_nonempty. lia. }
  pose proof (mapM_Some_1 _ _ _ Ha) as Ha2.
  pose proof (mapM_Some_1 _ _ _ Hb) as Hb2.
  pose proof (Forall2_length _ _ _ Ha2) as Hla.
  pose proof (Forall2_length _ _ _ Hb2) as Hlb.
  set (ratio := zip_with fdiv (zip_with fsub ubs lbs) (of_int64 <$> zip_with Z.sub b a)).
  assert (Hlr : length ratio = n).
  { unfold ratio. rewrite !length_zip_with, length_fmap, length_zip_with. lia. }
  exists (zip_with (λ row '(a_k, t_k, lb_k), normalize_dev a_k t_k lb_k <$> row)
            X (zip (zip a ratio) lbs)), g, lbs, ubs, g0.
  split; [|split; [done|]].
  - rewrite (ST_bind_eq _ _ _ _ _ Hrun).
    rewrite ST_bind_require by done.
    rewrite (ST_bind_try _ _ _ _ Ha), (ST_bind_try _ _ _ _ Hb).
    rewrite (ST_bind_try _ _ _ _ (broadcast2_same fsub ubs lbs ltac:(lia))).
    erewrite ST_bind_try; cycle 1.
    { apply broadcast2_same.
      rewrite !length_zip_with, length_fmap, length_zip_with. lia. }
    fold ratio. rewrite !ST_bind_require by done. reflexivity.
  - apply Forall2_same_length_lookup_2.
    { rewrite length_seq, length_zip_with, !length_zip_with. lia. }
    intros j k row Hk Hrow. apply lookup_seq in Hk as [-> Hj]. simpl.
    apply lookup_zip_with_Some in Hrow as (raw & [[a_k t_k] lb_k] & -> & Hraw & Htup).
    apply lookup_zip_with_Some in Htup as (at_k & lb_k' & [= <- <-] & Hat & Hlbk).
    apply lookup_zip_with_Some in Hat as (a_k' & t_k' & [= <- <-] & Hak & Htk).
    unfold ratio in Htk.
    apply lookup_zip_with_Some in Htk as (w & ba & -> & Hw & Hba).
    apply lookup_zip_with_Some in Hw as (d & c & -> & Hd & Hc).
    rewrite list_lookup_fmap in Hba.
    destruct (zip_with Z.sub b a !! j) as [ba'|] eqn:Hba'; [|done].
    injection Hba as <-.
    apply lookup_zip_with_Some in Hba' as (b_k & a_k2 & -> & Hbk & Hak2).
    rewrite Hak in Hak2. injection Hak2 as <-.
    rewrite Hlbk in Hc. injection Hc as <-.
    destruct (Forall2_lookup_r _ _ _ _ _ HX Hraw) as (kz & _ & rs & Hrs & ->).
    exists rs, a_k, b_k, lb_k, d.
    split; [done|].
    split; [exact (Forall2_lookup_lr _ _ _ _ _ _ Ha2 Hraw Hak)|].
    split; [exact (Forall2_lookup_lr _ _ _ _ _ _ Hb2 Hraw Hbk)|].
    done.
Qed.

(** With a valid configuration and sizes in range, the walk of either
    class returns, moves nothing but the generator, and its rows are
    equation (2.7) applied to raw walks and the recentred bounds. *)
Lemma walk_total64 (v : variant) (solution : list num) (t : Z) (self : Optimizer G) :
  configured self → in_range self t →
  length solution = n_dims (problem self) →
  ∃ M g lbs ubs g0,
    random_walk_antlion__ gen_random v solution t self = Some (M, set_generator g self) ∧
    recentred_bounds gen_random solution t self = Some ((lbs, ubs), set_generator g0 self) ∧
    Forall2 (walk_row v (horizon v self) lbs ubs) (seq 0 (n_dims (problem self))) M.
Proof.
  intros (HT & HP & Hn & Hub) Hr Hsol. destruct v.
  - by apply OriginalALO_walk_total64.
  - by apply DevALO_walk_total64.
Qed.

End Bounds64.

(** A recentred bound is finite and of magnitude [2^1002] at most when the
    bound and the entry of the solution are of magnitude [2^1000] at
    most. *)
Lemma recentred_moderate (l i : Q) (s c : num) :
  (Qabs l <= pow2 1000)%Q → (1 <= i)%Q → moderate s →
  c = fadd (fdiv (Fin l) (Fin i)) s ∨ c = fadd (fneg (fdiv (Fin l) (Fin i))) s →
  ∃ c', c = Fin c' ∧ (Qabs c' <= pow2 1002)%Q.
Proof.
  intros Hl Hi Hs Hc. destruct s as [s| | |]; try done. unfold moderate in Hs.
  destruct big_constants as (E1000 & H1001 & H1022 & H1023 & Hp & Hη).
  destruct small_constants as (Heta & _ & Hbig & Hm & Htau).
  unfold fdiv in Hc. rewrite fdiv_Fin_pos in Hc by lra. simpl round in Hc.
  assert (Hb : (Qabs (l / i) <= pow2 1000)%Q).
  { pose proof (div_le_exact i l _ ltac:(lra) Hl) as H.
    eapply Qle_trans; [exact H|]. apply Qle_shift_div_r; [lra|]. nra. }
  destruct (round64_within _ _ Hb) as (L & EL & _ & HL); [lra|]. literal_u.
  rewrite EL in Hc.
  assert (Hsum : ∀ x, (Qabs x <= pow2 1000 + ((1 # 9007199254740992) * pow2 1000 + pow2 (-1075)))%Q →
            ∃ c', round64 (x + s) = Fin c' ∧ (Qabs c' <= pow2 1002)%Q).
  { intros x Hx.
    assert (Hxs : (Qabs (x + s) <= pow2 1001 + pow2 1000)%Q) by (unabs; lra).
    destruct (round64_within _ _ Hxs) as (c' & Ec & _ & Hc'); [lra|]. literal_u.
    exists c'. split; [done|]. lra. }
  destruct Hc as [->| ->].
  - change (fadd (Fin L) (Fin s)) with (round64 (L + s)). by apply Hsum.
  - change (fadd (fneg (Fin L)) (Fin s)) with (round64 (- L + s)). apply Hsum.
    by rewrite Qabs_opp.
Qed.

(** Rounding does not depend on how the rational is written. *)
Lemma round_half_even_proper (q q' : Q) : (q == q')%Q → round_half_even q = round_half_even q'.
Proof.
  intros E. unfold round_half_even. rewrite (Qfloor_comp _ _ E).
  assert (E' : (q - inject_Z (Qfloor q') == q' - inject_Z (Qfloor q'))%Q) by (by rewrite E).
  by rewrite (Qcompare_comp _ _ E' (1 # 2) (1 # 2) (Qeq_refl _)).
Qed.

Lemma round64_proper (q q' : Q) : (q == q')%Q → round64 q = round64 q'.
Proof.
  intros E. destruct (Qeq_dec q 0) as [Hq|Hq].
  - rewrite !round64_zero; [done|by rewrite <- E|done].
  - assert (Hq' : ¬ (q' == 0)%Q) by (by rewrite <- E).
    rewrite !round64_nonzero by done.
    assert (Ek : ilog2 q' = ilog2 q).
    { destruct (ilog2_spec q Hq) as [H1 H2]. apply ilog2_unique; by rewrite <- E. }
    assert (Ec : (candidate q == candidate q')%Q).
    { unfold candidate, ulp_exponent. rewrite Ek.
      set (e := Z.max (ilog2 q - 52) (-1074)).
      rewrite (round_half_even_proper (q / pow2 e) (q' / pow2 e)); [reflexivity|by rewrite E]. }
    rewrite <- (Qred_complete _ _ Ec).
    assert (Et : Qle_bool (pow2 1024) (Qabs (candidate q'))
                 = Qle_bool (pow2 1024) (Qabs (candidate q))).
    { destruct (Qle_bool _ (Qabs (candidate q))) eqn:E1.
      - apply Qle_bool_iff in E1. apply Qle_bool_iff. by rewrite <- Ec.
      - destruct (Qle_bool _ (Qabs (candidate q'))) eqn:E2; [|done].
        apply Qle_bool_iff in E2. rewrite <- Ec in E2. apply Qle_bool_iff in E2. congruence. }
    rewrite Et.
    assert (Es : Qle_bool 0 q' = Qle_bool 0 q).
    { destruct (Qle_bool 0 q) eqn:E1.
      - apply Qle_bool_iff in E1. apply Qle_bool_iff. by rewrite <- E.
      - destruct (Qle_bool 0 q') eqn:E2; [|done].
        apply Qle_bool_iff in E2. rewrite <- E in E2. apply Qle_bool_iff in E2. congruence. }
    by rewrite Es.
Qed.

(** With a zero range, both classes divide zero by zero or multiply zero by
    an infinity, whatever the target interval is. *)
Lemma normalize_zero_range64 (v : variant) (a : Z) (c d : num) :
  normalize v a a c d a = NaN.
Proof.
  assert (E0 : of_int64 0 = Fin 0) by reflexivity.
  assert (Ez : ∀ q, fmul (Fin 0) (Fin q) = Fin 0).
  { intros q. change (fmul (Fin 0) (Fin q)) with (round64 (0 * q)).
    apply round64_zero. ring. }
  destruct v; unfold normalize, normalize_original, normalize_dev;
    rewrite Z.sub_diag, E0.
  - destruct (fsub d c) as [q| | |]; [rewrite Ez| | |]; reflexivity.
  - unfold fsub, fdiv. 
    destruct (Numpy.fsub d c) as [q| | |]; simpl round.
    + destruct (round64_cases q) as [[p ->]|[[-> _]|[-> _]]]; simpl Numpy.fdiv.
      * destruct (Qsign p); reflexivity.
      * reflexivity.
      * reflexivity.
    + reflexivity.
    + reflexivity.
    + reflexivity.
Qed.

Lemma walk_row_zero_range64 (v : variant) (a : Z) (c d : num) (X : list Z) :
  Forall (λ x, a <= x <= a) X → Forall (λ x, x = NaN) (normalize v a a c d <$> X).
Proof.
  intros HX. apply Forall_fmap. eapply Forall_impl; [exact HX|].
  intros x Hx. cbv beta in Hx. unfold compose. assert (x = a) as -> by lia.
  apply normalize_zero_range64.
Qed.

(** A recentred bound is a value that binary64 represents. *)
Lemma recentred_representable (x s : num) (c : Q) : fadd x s = Fin c → round64 c = Fin c.
Proof.
  unfold fadd, round. destruct (Numpy.fadd x s) as [q| | |]; try done.
  apply round64_idempotent.
Qed.

Lemma horizon_in_range {G} (v : variant) (self : Optimizer G) (t : Z) :
  in_range self t → horizon v self <= 100000.
Proof. intros (He & Hp & _). by destruct v. Qed.

Section Walk64.
Context {G : Type} (gen_random : G → Q * G).

(** The walk on moderate bounds and a moderate reference solution: beside
    what [walk_total64] says, the recentred bounds are binary64 values of
    magnitude [2^1002] at most. *)
Lemma walk_moderate (v : variant) (solution : list num) (t : Z) (self : Optimizer G) :
  configured self → in_range self t →
  length solution = n_dims (problem self) →
  moderate_bounds (problem self) → Forall moderate solution →
  ∃ M g lbs ubs g0 i,
    random_walk_antlion__ gen_random v solution t self = Some (M, set_generator g self) ∧
    recentred_bounds gen_random solution t self = Some ((lbs, ubs), set_generator g0 self) ∧
    shrink_ratio (epoch self) t = Some (Fin i) ∧ (1 <= i)%Q ∧
    Forall2 (walk_row v (horizon v self) lbs ubs) (seq 0 (n_dims (problem self))) M ∧
    (∀ k c, lbs !! k = Some c →
       ∃ l s c', lb (problem self) !! k = Some l ∧ solution !! k = Some (Fin s) ∧
                 (Qabs l <= pow2 1000)%Q ∧ (Qabs s <= pow2 1000)%Q ∧
                 c = Fin c' ∧ (Qabs c' <= pow2 1002)%Q ∧ round64 c' = Fin c' ∧
                 (Fin c' = fadd (fdiv (Fin l) (Fin i)) (Fin s) ∨
                  Fin c' = fadd (fneg (fdiv (Fin l) (Fin i))) (Fin s))) ∧
    (∀ k c, ubs !! k = Some c →
       ∃ l s c', ub (problem self) !! k = Some l ∧ solution !! k = Some (Fin s) ∧
                 (Qabs l <= pow2 1000)%Q ∧ (Qabs s <= pow2 1000)%Q ∧
                 c = Fin c' ∧ (Qabs c' <= pow2 1002)%Q ∧ round64 c' = Fin c' ∧
                 (Fin c' = fadd (fdiv (Fin l) (Fin i)) (Fin s) ∨
                  Fin c' = fadd (fneg (fdiv (Fin l) (Fin i))) (Fin s))).
Proof.
  intros Hc Hr Hsol [Hmlb Hmub] Hms.
  destruct (walk_total64 gen_random v solution t self Hc Hr Hsol)
    as (M & g & lbs & ubs & g0 & EM & E0 & HM).
  destruct Hc as (HT & HP & Hn & Hub).
  destruct (recentred_bounds_total64 gen_random solution t self HT Hr Hsol Hub)
    as (i & lbs' & ubs' & g0' & HI & Hi & E0' & _ & _ & Hlv & Huv).
  rewrite E0 in E0'. injection E0' as <- <- _.
  exists M, g, lbs, ubs, g0, i. repeat (split; [done|]).
  assert (Hval : ∀ (bs : list Q) k l s c,
            Forall (λ q, moderate (Fin q)) bs → bs !! k = Some l → solution !! k = Some s →
            c = fadd (fdiv (Fin l) (Fin i)) s ∨ c = fadd (fneg (fdiv (Fin l) (Fin i))) s →
            ∃ l' s' c', bs !! k = Some l' ∧ solution !! k = Some (Fin s') ∧
                 (Qabs l' <= pow2 1000)%Q ∧ (Qabs s' <= pow2 1000)%Q ∧
                 c = Fin c' ∧ (Qabs c' <= pow2 1002)%Q ∧ round64 c' = Fin c' ∧
                 (Fin c' = fadd (fdiv (Fin l') (Fin i)) (Fin s') ∨
                  Fin c' = fadd (fneg (fdiv (Fin l') (Fin i))) (Fin s'))).
  { intros bs k l s c Hbs Hl Hs Hcase.
    pose proof (Forall_lookup_1 _ _ _ _ Hbs Hl) as Hml.
    pose proof (Forall_lookup_1 _ _ _ _ Hms Hs) as Hmsk.
    destruct (recentred_moderate l i s c Hml Hi Hmsk Hcase) as (c' & -> & Hc').
    destruct s as [s'| | |]; try done.
    exists l, s', c'. repeat (split; [done|]). split; [|done].
    destruct Hcase as [E|E]; symmetry in E; by eapply recentred_representable. }
  split.
  - intros k c Hk. destruct (Hlv k c Hk) as (l & s & Hl & Hs & Hcase). by eapply Hval.
  - intros k c Hk. destruct (Huv k c Hk) as (l & s & Hl & Hs & Hcase). by eapply Hval.
Qed.

(** An entry of a row on moderate ends: finite, and within the tolerance
    of the exact point of the segment. *)
Lemma walk_entry_error (v : variant) (rs : list Q) (h a b z : Z) (c d : Q) :
  2 <= h <= 100000 → length rs = Z.to_nat h →
  np_min (cumsum (step <$> rs)) = Some a →
  np_max (cumsum (step <$> rs)) = Some b →
  z ∈ cumsum (step <$> rs) →
  (Qabs c <= pow2 1002)%Q → (Qabs d <= pow2 1002)%Q →
  1 <= b - a <= h - 1 ∧ a <= z <= b ∧
  ∃ p, normalize v a b (Fin c) (Fin d) z = Fin p ∧
       (Qabs (p - (c + inject_Z (z - a) / inject_Z (b - a) * (d - c))) <= tolerance c d)%Q.
Proof.
  intros Hh Hrs Ha Hb Hz Hc Hd.
  pose proof (walk_span rs h a b ltac:(lia) Hrs Ha Hb) as Hspan.
  destruct (walk_extremes rs h a b ltac:(lia) Hrs Ha Hb) as (HX & _ & _).
  rewrite Forall_forall in HX. specialize (HX z Hz).
  split; [done|]. split; [done|].
  apply (normalize_error v a b z c d (Qmax (Qabs c) (Qabs d))); [done|lia| | |].
  - apply Q.le_max_l.
  - apply Q.le_max_r.
  - by apply Q.max_lub.
Qed.

(** C2 (as amended).  Neither class has a special case for a raw walk of
    zero range.  Every row of the returned matrix is equation (2.7) applied
    in binary64 to a raw walk with minimum [a] and maximum [b]; the range
    is zero exactly when the walk has one step (for [OriginalALO], when
    [self.epoch] is 1), and then every entry of the row is not-a-number,
    whatever the bounds and the reference solution are; otherwise nothing
    is divided by zero, and every entry is a finite value when the bounds
    and the reference solution are of magnitude [2^1000] at most. *)
Theorem random_walk_zero_range (v : variant) (solution : list num) (t : Z)
    (self : Optimizer G) :
  configured self →
  in_range self t →
  length solution = n_dims (problem self) →
  ∃ M g,
    random_walk_antlion__ gen_random v solution t self = Some (M, set_generator g self) ∧
    Forall (λ row,
      ∃ (rs : list Q) (a b : Z) (c d : num),
        length rs = Z.to_nat (horizon v self) ∧
        np_min (cumsum (step <$> rs)) = Some a ∧
        np_max (cumsum (step <$> rs)) = Some b ∧
        row = normalize v a b c d <$> cumsum (step <$> rs) ∧
        (a = b ↔ horizon v self = 1) ∧
        (a = b → Forall (λ x, x = NaN) row) ∧
        (a ≠ b → moderate_bounds (problem self) → Forall moderate solution →
         Forall finite row)) M.
Proof.
  intros Hc Hr Hsol.
  destruct (walk_total64 gen_random v solution t self Hc Hr Hsol)
    as (M & g & lbs & ubs & g0 & HM & E0 & Hrows).
  exists M, g. split; [done|].
  assert (Hh : 1 <= horizon v self).
  { destruct Hc as (? & ? & _). by destruct v. }
  pose proof (horizon_in_range v self t Hr) as Hh'.
  apply Forall_forall. intros row Hrow.
  apply list_elem_of_lookup in Hrow as [j Hj].
  destruct (Forall2_lookup_r _ _ _ _ _ Hrows Hj)
    as (k & Hk & rs & a & b & c & d & Hrs & Ha & Hb & Hlc & Hud & ->).
  apply lookup_seq in Hk as [-> _]. simpl in Hlc, Hud.
  destruct (walk_extremes rs _ a b Hh Hrs Ha Hb) as (HX & H1 & H2).
  exists rs, a, b, c, d. repeat (split; [done|]).
  split; [|split].
  - split; [|done]. intros ->.
    destruct (decide (horizon v self = 1)) as [|Hne]; [done|].
    specialize (H2 ltac:(lia)). lia.
  - intros ->. by apply walk_row_zero_range64.
  - intros Hab Hmb Hms.
    assert (Hh2 : 2 <= horizon v self).
    { destruct (decide (horizon v self = 1)) as [E|E]; [by specialize (H1 E)|lia]. }
    destruct (walk_moderate v solution t self Hc Hr Hsol Hmb Hms)
      as (M' & g' & lbs' & ubs' & g0' & i & _ & E0' & _ & _ & _ & Hlv & Huv).
    rewrite E0 in E0'. injection E0' as <- <- _.
    destruct (Hlv _ _ Hlc) as (_ & _ & c' & _ & _ & _ & _ & -> & Hc' & _).
    destruct (Huv _ _ Hud) as (_ & _ & d' & _ & _ & _ & _ & -> & Hd' & _).
    apply Forall_fmap, Forall_forall. intros z Hz. unfold compose.
    destruct (walk_entry_error v rs (horizon v self) a b z c' d' ltac:(lia) Hrs Ha Hb Hz Hc' Hd')
      as (_ & _ & p & -> & _).
    done.
Qed.

(** C4 (as amended).  For bounds and a reference solution of magnitude
    [2^1000] at most, any epoch in range, and walks of at least two steps,
    every entry of row [k] of the returned matrix is a finite value that
    lies between [lb'_k] and [ub'_k], the recentred shrunk bounds of that
    dimension, whichever of the two is the smaller, up to the tolerance
    [max(|lb'_k|, |ub'_k|) * 2^-50 + 2^-1050]; it lies in the interval
    from [lb'_k] to [ub'_k] as written, up to that tolerance, when
    [lb'_k <= ub'_k]. *)
Theorem random_walk_between (v : variant) (solution : list num) (t : Z)
    (self : Optimizer G) :
  configured self →
  in_range self t →
  2 <= horizon v self →
  length solution = n_dims (problem self) →
  moderate_bounds (problem self) →
  Forall moderate solution →
  ∃ M g lbs ubs g0,
    random_walk_antlion__ gen_random v solution t self = Some (M, set_generator g self) ∧
    recentred_bounds gen_random solution t self = Some ((lbs, ubs), set_generator g0 self) ∧
    ∀ (k : nat) (row : list num) (x : num),
      M !! k = Some row → x ∈ row →
      ∃ c d, lbs !! k = Some c ∧ ubs !! k = Some d ∧
             between c d x ∧ (fleb c d = true → inside c d x).
Proof.
  intros Hc Hr Hh Hsol Hmb Hms.
  destruct (walk_moderate v solution t self Hc Hr Hsol Hmb Hms)
    as (M & g & lbs & ubs & g0 & i & HM & E0 & _ & _ & Hrows & Hlv & Huv).
  pose proof (horizon_in_range v self t Hr) as Hh'.
  exists M, g, lbs, ubs, g0. split; [done|]. split; [done|].
  intros j row x Hj Hx.
  destruct (Forall2_lookup_r _ _ _ _ _ Hrows Hj)
    as (k & Hk & rs & a & b & c & d & Hrs & Ha & Hb & Hlc & Hud & ->).
  apply lookup_seq in Hk as [-> _]. simpl in Hlc, Hud.
  destruct (Hlv _ _ Hlc) as (_ & _ & c' & _ & _ & _ & _ & -> & Hc' & _).
  destruct (Huv _ _ Hud) as (_ & _ & d' & _ & _ & _ & _ & -> & Hd' & _).
  exists (Fin c'), (Fin d'). split; [done|]. split; [done|].
  apply list_elem_of_fmap in Hx as (z & -> & Hz).
  destruct (walk_entry_error v rs (horizon v self) a b z c' d' ltac:(lia) Hrs Ha Hb Hz Hc' Hd')
    as (Hspan & Hzab & p & -> & Hp).
  pose proof (interpolation (inject_Z (z - a)) (inject_Z (b - a)) c' d'
                ltac:(apply inject_Z_nonneg; lia)
                ltac:(rewrite <- Zle_Qle; lia)
                ltac:(apply inject_Z_pos; lia)) as [Hi1 Hi2].
  apply Qabs_Qle_condition in Hp as [Hp1 Hp2].
  assert (Hbt : between (Fin c') (Fin d') (Fin p)).
  { unfold between. split; lra. }
  split; [done|].
  intros Hle. unfold fleb in Hle. apply Qle_bool_iff in Hle.
  unfold between in Hbt. unfold inside.
  rewrite Q.min_l, Q.max_r in Hbt by done. done.
Qed.

End Walk64.

(** ** Further properties of the walk in binary64 *)

(** Where the raw walk is at its minimum, the entry is the recentred lower
    bound itself: zero times the width is zero, and adding zero to a
    binary64 value returns it. *)
Lemma normalize_at_min (v : variant) (a b : Z) (c d : Q) :
  1 <= b - a <= 100000 →
  (Qabs c <= pow2 1002)%Q → (Qabs d <= pow2 1002)%Q → round64 c = Fin c →
  normalize v a b (Fin c) (Fin d) a = Fin c.
Proof.
  intros Hw Hc Hd Hrep.
  destruct small_constants as (Heta & Heta2 & Hbig & Hm & Htau).
  destruct big_constants as (_ & _ & _ & _ & Hp & Hη).
  pose proof (pow2_pos 1002) as Hpos.
  assert (Hw1 : (1 <= inject_Z (b - a))%Q).
  { change 1%Q with (inject_Z 1). rewrite <- Zle_Qle. lia. }
  assert (Ez : ∀ q, fmul (Fin 0) (Fin q) = Fin 0).
  { intros q. change (fmul (Fin 0) (Fin q)) with (round64 (0 * q)).
    apply round64_zero. ring. }
  assert (Ec : fadd (Fin 0) (Fin c) = Fin c).
  { change (fadd (Fin 0) (Fin c)) with (round64 (0 + c)).
    rewrite (round64_proper (0 + c) c) by ring. done. }
  unfold normalize, normalize_original, normalize_dev, of_int64.
  rewrite Z.sub_diag. rewrite (round64_int (b - a)) by lia.
  change (round64 (inject_Z 0)) with (Fin 0).
  change (fsub (Fin d) (Fin c)) with (round64 (d + - c)).
  destruct (round64_within (d + - c) (2 * pow2 1002)) as (D & -> & _ & HD); [unabs; lra|lra|].
  destruct v.
  - rewrite Ez. unfold fdiv at 1. rewrite fdiv_Fin_pos by lra. simpl round.
    rewrite (round64_zero (0 / _)) by (field; lra). done.
  - unfold fdiv. rewrite fdiv_Fin_pos by lra. simpl round.
    literal_u.
    assert (HDw : (Qabs (D / inject_Z (b - a)) <= 3 * pow2 1002)%Q).
    { pose proof (div_le_exact (inject_Z (b - a)) D _ ltac:(lra) HD) as H.
      eapply Qle_trans; [exact H|]. apply Qle_shift_div_r; [lra|]. nra. }
    destruct (round64_within _ _ HDw) as (E' & -> & _ & _); [lra|].
    rewrite Ez. done.
Qed.

Section More64.
Context {G : Type} (gen_random : G → Q * G).

(** X11.  Both ends of the interval are reached, one exactly and one up
    to rounding: with moderate bounds and solution and walks of at least
    two steps, row [k] holds [lb'_k] itself, where the raw walk is at its
    minimum, and a value within the tolerance of [ub'_k], where the raw
    walk is at its maximum. *)
Theorem random_walk_reaches_both_ends (v : variant) (solution : list num) (t : Z)
    (self : Optimizer G) :
  configured self →
  in_range self t →
  2 <= horizon v self →
  length solution = n_dims (problem self) →
  moderate_bounds (problem self) →
  Forall moderate solution →
  ∃ M g lbs ubs g0,
    random_walk_antlion__ gen_random v solution t self = Some (M, set_generator g self) ∧
    recentred_bounds gen_random solution t self = Some ((lbs, ubs), set_generator g0 self) ∧
    ∀ (k : nat) (row : list num),
      M !! k = Some row →
      ∃ c d y, lbs !! k = Some (Fin c) ∧ ubs !! k = Some (Fin d) ∧
               Fin c ∈ row ∧ Fin y ∈ row ∧ (Qabs (y - d) <= tolerance c d)%Q.
Proof.
  intros Hc Hr Hh Hsol Hmb Hms.
  destruct (walk_moderate gen_random v solution t self Hc Hr Hsol Hmb Hms)
    as (M & g & lbs & ubs & g0 & i & HM & E0 & _ & _ & Hrows & Hlv & Huv).
  pose proof (horizon_in_range v self t Hr) as Hh'.
  exists M, g, lbs, ubs, g0. split; [done|]. split; [done|].
  intros j row Hj.
  destruct (Forall2_lookup_r _ _ _ _ _ Hrows Hj)
    as (k & Hk & rs & a & b & c & d & Hrs & Ha & Hb & Hlc & Hud & ->).
  apply lookup_seq in Hk as [-> _]. simpl in Hlc, Hud.
  destruct (Hlv _ _ Hlc) as (_ & _ & c' & _ & _ & _ & _ & -> & Hc' & Hrep & _).
  destruct (Huv _ _ Hud) as (_ & _ & d' & _ & _ & _ & _ & -> & Hd' & _).
  pose proof (np_min_spec _ _ Ha) as [Hain _].
  pose proof (np_max_spec _ _ Hb) as [Hbin _].
  destruct (walk_entry_error v rs (horizon v self) a b b c' d' ltac:(lia) Hrs Ha Hb Hbin Hc' Hd')
    as (Hspan & _ & y & Ey & Hy).
  exists c', d', y. split; [done|]. split; [done|]. split; [|split].
  - apply list_elem_of_fmap. exists a. split; [|done].
    symmetry. apply normalize_at_min; [lia|done..].
  - apply list_elem_of_fmap. exists b. by split.
  - assert (E : (c' + inject_Z (b - a) / inject_Z (b - a) * (d' - c') == d')%Q).
    { field. assert (0 < inject_Z (b - a))%Q by (apply inject_Z_pos; lia). lra. }
    by rewrite E in Hy.
Qed.

(** X18.  The steps of a normalised walk have one size, up to rounding:
    with moderate bounds and solution and walks of [h >= 2] steps, row [k]
    has a span [n] of the raw walk, from 1 to [h - 1], such that any two
    neighbouring entries differ by [(ub'_k - lb'_k) / n], up or down,
    within twice the tolerance. *)
Theorem random_walk_steps (v : variant) (solution : list num) (t : Z)
    (self : Optimizer G) :
  configured self →
  in_range self t →
  2 <= horizon v self →
  length solution = n_dims (problem self) →
  moderate_bounds (problem self) →
  Forall moderate solution →
  ∃ M g lbs ubs g0,
    random_walk_antlion__ gen_random v solution t self = Some (M, set_generator g self) ∧
    recentred_bounds gen_random solution t self = Some ((lbs, ubs), set_generator g0 self) ∧
    ∀ (k : nat) (row : list num),
      M !! k = Some row →
      ∃ (c d : Q) (n : Z),
        lbs !! k = Some (Fin c) ∧ ubs !! k = Some (Fin d) ∧
        1 <= n <= horizon v self - 1 ∧
        ∀ (j : nat) (x y : num),
          row !! j = Some x → row !! S j = Some y →
          ∃ p q, x = Fin p ∧ y = Fin q ∧
            ((Qabs (q - p - (d - c) / inject_Z n) <= 2 * tolerance c d)%Q ∨
             (Qabs (p - q - (d - c) / inject_Z n) <= 2 * tolerance c d)%Q).
Proof.
  intros Hc Hr Hh Hsol Hmb Hms.
  destruct (walk_moderate gen_random v solution t self Hc Hr Hsol Hmb Hms)
    as (M & g & lbs & ubs & g0 & i & HM & E0 & _ & _ & Hrows & Hlv & Huv).
  pose proof (horizon_in_range v self t Hr) as Hh'.
  exists M, g, lbs, ubs, g0. split; [done|]. split; [done|].
  intros k0 row Hrow.
  destruct (Forall2_lookup_r _ _ _ _ _ Hrows Hrow)
    as (k & Hk & rs & a & b & c & d & Hrs & Ha & Hb & Hlc & Hud & ->).
  apply lookup_seq in Hk as [-> _]. simpl in Hlc, Hud.
  destruct (Hlv _ _ Hlc) as (_ & _ & c' & _ & _ & _ & _ & -> & Hc' & _).
  destruct (Huv _ _ Hud) as (_ & _ & d' & _ & _ & _ & _ & -> & Hd' & _).
  pose proof (walk_span rs (horizon v self) a b Hh Hrs Ha Hb) as Hspan.
  exists c', d', (b - a). split; [done|]. split; [done|]. split; [done|].
  intros j x y Hx Hy.
  rewrite list_lookup_fmap in Hx, Hy.
  destruct (cumsum (step <$> rs) !! j) as [zx|] eqn:Ex; [|done].
  destruct (cumsum (step <$> rs) !! S j) as [zy|] eqn:Ey; [|done].
  simpl in Hx, Hy. injection Hx as <-. injection Hy as <-.
  destruct (walk_entry_error v rs (horizon v self) a b zx c' d' ltac:(lia) Hrs Ha Hb
              ltac:(by eapply list_elem_of_lookup_2) Hc' Hd') as (_ & _ & p & -> & Hp).
  destruct (walk_entry_error v rs (horizon v self) a b zy c' d' ltac:(lia) Hrs Ha Hb
              ltac:(by eapply list_elem_of_lookup_2) Hc' Hd') as (_ & _ & q & -> & Hq).
  exists p, q. split; [done|]. split; [done|].
  assert (Hsteps : Forall (λ z, z = 1 ∨ z = -1) (step <$> rs)).
  { apply Forall_fmap, Forall_forall. intros r _. apply step_cases. }
  pose proof (inject_Z_pos (b - a) ltac:(lia)) as Hw.
  unfold cumsum in Ex, Ey.
  set (tol := tolerance c' d') in *. clearbody tol.
  destruct (cumsum_from_neighbours 0 _ j zx zy Hsteps Ex Ey) as [E|E].
  - left. replace zy with (zx + 1) in Hq by lia.
    replace (zx + 1 - a) with ((zx - a) + 1) in Hq by lia. rewrite inject_Z_plus in Hq.
    change (inject_Z 1) with 1%Q in Hq.
    set (n := inject_Z (zx - a)) in *. set (w := inject_Z (b - a)) in *.
    assert (E1 : (q - p - (d' - c') / w
                  == (q - (c' + (n + 1) / w * (d' - c'))) - (p - (c' + n / w * (d' - c'))))%Q)
      by (field; lra).
    rewrite E1. unabs; lra.
  - right. replace zy with (zx + -1) in Hq by lia.
    replace (zx + -1 - a) with ((zx - a) + -1) in Hq by lia. rewrite inject_Z_plus in Hq.
    change (inject_Z (-1)) with (-1 # 1)%Q in Hq.
    set (n := inject_Z (zx - a)) in *. set (w := inject_Z (b - a)) in *.
    assert (E1 : (p - q - (d' - c') / w
                  == (p - (c' + n / w * (d' - c'))) - (q - (c' + (n + (-1 # 1)) / w * (d' - c'))))%Q)
      by (field; lra).
    rewrite E1. unabs; lra.
Qed.

(** X19.  The constructor guards the walks of [DevALO], not those of
    [OriginalALO]: on an optimizer that [__init__] has returned, for a
    problem with at least one dimension, bounds and a reference solution
    of magnitude [2^1000] at most and an epoch in range, the binary64 walk
    of [DevALO] returns a matrix of finite values, whatever the parameters
    were; the walk of [OriginalALO] does so when the maximum epoch is at
    least 2. *)
Theorem constructed_walks_finite (v : variant) (e p : Z) (base : Optimizer G) self
    (solution : list num) (t : Z) :
  ALO__init__ v e p base = Some (tt, self) →
  (v = OriginalALO → 2 <= e) →
  n_dims (problem base) ≠ 0%nat →
  length (ub (problem base)) = n_dims (problem base) →
  length solution = n_dims (problem base) →
  moderate_bounds (problem base) →
  Forall moderate solution →
  Z.abs t <= 2 ^ 1000 →
  ∃ M g,
    random_walk_antlion__ gen_random v solution t self = Some (M, set_generator g self) ∧
    Forall (Forall finite) M.
Proof.
  intros Hinit He Hn Hub Hsol Hmb Hms Ht.
  assert (Hself : self = set_sort_flag true (set_pop_size p (set_epoch e base)) ∧
                  1 <= e <= 100000 ∧ 5 <= p <= 10000).
  { assert (E : ALO__init__ v e p base = OriginalALO__init__ e p base) by by destruct v.
    rewrite E in Hinit.
    unfold OriginalALO__init__, check_int, mbind, ST_bind, try, modify in Hinit.
    destruct (decide (1 <= e <= 100000)); [|done].
    destruct (decide (5 <= p <= 10000)); [|done].
    by injection Hinit as <-. }
  destruct Hself as (-> & HeR & HpR).
  set (self := set_sort_flag true (set_pop_size p (set_epoch e base))).
  assert (Hcfg : configured self) by (unfold configured; simpl; repeat split; try lia; done).
  assert (Hr : in_range self t) by (unfold in_range; simpl; repeat split; try lia; done).
  assert (Hh : 2 <= horizon v self).
  { destruct v; simpl; [by apply He|lia]. }
  pose proof (horizon_in_range v self t Hr) as Hh'.
  destruct (walk_moderate gen_random v solution t self Hcfg Hr Hsol Hmb Hms)
    as (M & g & lbs & ubs & g0 & i & HM & E0 & _ & _ & Hrows & Hlv & Huv).
  exists M, g. split; [done|].
  apply Forall_forall. intros row Hrow.
  apply list_elem_of_lookup in Hrow as [j Hj].
  destruct (Forall2_lookup_r _ _ _ _ _ Hrows Hj)
    as (k & Hk & rs & a & b & c & d & Hrs & Ha & Hb & Hlc & Hud & ->).
  destruct (Hlv _ _ Hlc) as (_ & _ & c' & _ & _ & _ & _ & -> & Hc' & _).
  destruct (Huv _ _ Hud) as (_ & _ & d' & _ & _ & _ & _ & -> & Hd' & _).
  apply Forall_fmap, Forall_forall. intros z Hz. unfold compose.
  destruct (walk_entry_error v rs (horizon v self) a b z c' d' ltac:(lia) Hrs Ha Hb Hz Hc' Hd')
    as (_ & _ & q & -> & _).
  done.
Qed.

End More64.

Lemma tiny_constants :
  (pow2 (-50) == 8 * (1 # 9007199254740992))%Q ∧ (pow2 (-49) == 16 * (1 # 9007199254740992))%Q ∧
  (pow2 (-1049) == 2 * pow2 (-1050))%Q ∧ (0 < pow2 (-1075))%Q ∧
  (1048576 * pow2 (-1075) <= pow2 (-1050))%Q.
Proof. by vm_compute. Qed.

(** How far a recentred bound is from the entry of the reference solution:
    the shrunk bound, and the rounding of one division and one addition. *)
Lemma recentred_radius (l i s c R : Q) :
  (1 <= i)%Q → (Qabs l / i <= R)%Q → (R <= pow2 1000)%Q → (Qabs s <= pow2 1000)%Q →
  Fin c = fadd (fdiv (Fin l) (Fin i)) (Fin s) ∨
  Fin c = fadd (fneg (fdiv (Fin l) (Fin i))) (Fin s) →
  (Qabs (c - s) <= R + 3 * (1 # 9007199254740992) * (R + Qabs s) + 3 * pow2 (-1075))%Q.
Proof.
  intros Hi HR HRm Hs Hc.
  destruct big_constants as (E1000 & H1001 & H1022 & H1023 & Hp & Hη).
  destruct small_constants as (Heta & _ & Hbig & Hm & Htau).
  unfold fdiv in Hc. rewrite fdiv_Fin_pos in Hc by lra. simpl round in Hc.
  assert (Hb : (Qabs (l / i) <= R)%Q).
  { unfold Qdiv in *. rewrite Qabs_Qmult, (Qabs_pos (/ i)); [done|].
    apply Qinv_le_0_compat. lra. }
  destruct (round64_within _ _ Hb) as (L & EL & HL1 & HL2); [lra|]. literal_u.
  rewrite EL in Hc.
  pose proof (Qabs_nonneg s) as Hs0.
  assert (HR0 : (0 <= R)%Q) by (pose proof (Qabs_nonneg (l / i)); lra).
  assert (Hsum : ∀ x, (Qabs x <= R + ((1 # 9007199254740992) * R + pow2 (-1075)))%Q →
            round64 (x + s) = Fin c →
            (Qabs (c - s) <= R + 3 * (1 # 9007199254740992) * (R + Qabs s) + 3 * pow2 (-1075))%Q).
  { intros x Hx Ec.
    assert (Hxs : (Qabs (x + s)
                   <= R + ((1 # 9007199254740992) * R + pow2 (-1075)) + Qabs s)%Q).
    { eapply Qle_trans; [apply Qabs_triangle|]. lra. }
    destruct (round64_within _ _ Hxs) as (c' & Ec' & Hc1 & _); [lra|]. literal_u.
    rewrite Ec in Ec'. injection Ec' as <-.
    set (as' := Qabs s) in *. clearbody as'.
    assert (E : (c - s == (c - (x + s)) + x)%Q) by ring. rewrite E.
    unabs; lra. }
  destruct Hc as [E|E].
  - change (fadd (Fin L) (Fin s)) with (round64 (L + s)) in E. by apply (Hsum L).
  - change (fadd (fneg (Fin L)) (Fin s)) with (round64 (- L + s)) in E.
    apply (Hsum (- L)%Q); [by rewrite Qabs_opp|done].
Qed.

Section Radius64.
Context {G : Type} (gen_random : G → Q * G).

(** X12.  The walk stays around the reference solution: with moderate
    bounds and solution and walks of at least two steps, every entry of row
    [k] is within [R = max(|lb_k|, |ub_k|) / I] of entry [k] of the
    solution, up to a rounding of [(R + |solution_k|) * 2^-49 + 2^-1049];
    [I] is the ratio that the binary64 schedule computes, and it is at
    least 1. *)
Theorem random_walk_radius (v : variant) (solution : list num) (t : Z)
    (self : Optimizer G) :
  configured self →
  in_range self t →
  2 <= horizon v self →
  length solution = n_dims (problem self) →
  moderate_bounds (problem self) →
  Forall moderate solution →
  ∃ M g i,
    random_walk_antlion__ gen_random v solution t self = Some (M, set_generator g self) ∧
    shrink_ratio (epoch self) t = Some (Fin i) ∧ (1 <= i)%Q ∧
    ∀ (k : nat) (row : list num) (x : num) (l u s : Q),
      M !! k = Some row → x ∈ row →
      lb (problem self) !! k = Some l → ub (problem self) !! k = Some u →
      solution !! k = Some (Fin s) →
      ∃ p, x = Fin p ∧
           (Qabs (p - s) <= Qmax (Qabs l) (Qabs u) / i
                            + (Qmax (Qabs l) (Qabs u) / i + Qabs s) * pow2 (-49)
                            + pow2 (-1049))%Q.
Proof.
  intros Hc Hr Hh Hsol Hmb Hms.
  destruct (walk_moderate gen_random v solution t self Hc Hr Hsol Hmb Hms)
    as (M & g & lbs & ubs & g0 & i & HM & E0 & HI & Hi & Hrows & Hlv & Huv).
  pose proof (horizon_in_range v self t Hr) as Hh'.
  exists M, g, i. split; [done|]. split; [done|]. split; [done|].
  intros j row x l u s Hj Hx Hl Hu Hs.
  destruct (Forall2_lookup_r _ _ _ _ _ Hrows Hj)
    as (k & Hk & rs & a & b & c & d & Hrs & Ha & Hb & Hlc & Hud & ->).
  apply lookup_seq in Hk as [-> _]. simpl in Hlc, Hud.
  destruct (Hlv _ _ Hlc) as (l' & s1 & c' & Hl' & Hs1 & Hml & Hms1 & -> & Hc' & _ & Hcv).
  destruct (Huv _ _ Hud) as (u' & s2 & d' & Hu' & Hs2 & Hmu & _ & -> & Hd' & _ & Hdv).
  rewrite Hl in Hl'. injection Hl' as <-. rewrite Hu in Hu'. injection Hu' as <-.
  rewrite Hs in Hs1. injection Hs1 as <-. rewrite Hs in Hs2. injection Hs2 as <-.
  apply list_elem_of_fmap in Hx as (z & -> & Hz).
  destruct (walk_entry_error v rs (horizon v self) a b z c' d' ltac:(lia) Hrs Ha Hb Hz Hc' Hd')
    as (Hspan & Hzab & p & -> & Hp).
  exists p. split; [done|].
  pose proof (interpolation (inject_Z (z - a)) (inject_Z (b - a)) c' d'
                ltac:(apply inject_Z_nonneg; lia)
                ltac:(rewrite <- Zle_Qle; lia)
                ltac:(apply inject_Z_pos; lia)) as [Hi1 Hi2].
  set (pt := (c' + inject_Z (z - a) / inject_Z (b - a) * (d' - c'))%Q) in *. clearbody pt.
  set (R := (Qmax (Qabs l) (Qabs u) / i)%Q).
  assert (Hinv : (0 <= / i)%Q) by (apply Qinv_le_0_compat; lra).
  assert (HRl : (Qabs l / i <= R)%Q).
  { unfold R, Qdiv. apply Qmult_le_compat_r; [apply Q.le_max_l|done]. }
  assert (HRu : (Qabs u / i <= R)%Q).
  { unfold R, Qdiv. apply Qmult_le_compat_r; [apply Q.le_max_r|done]. }
  assert (HRm : (R <= pow2 1000)%Q).
  { unfold R. apply Qle_shift_div_r; [lra|].
    assert (Qmax (Qabs l) (Qabs u) <= pow2 1000)%Q by (by apply Q.max_lub).
    destruct big_constants as (_ & _ & _ & _ & Hp1000 & _). nra. }
  pose proof (recentred_radius l i s c' R Hi HRl HRm Hms1 Hcv) as Hcs.
  pose proof (recentred_radius u i s d' R Hi HRu HRm Hms1 Hdv) as Hds.
  clearbody R.
  destruct tiny_constants as (E50 & E49 & E1049 & Heta & Heta2).
  pose proof (Qabs_nonneg s) as Hs0.
  assert (HR0 : (0 <= R)%Q) by (pose proof (Qabs_nonneg l); assert (0 <= Qabs l / i)%Q by (apply Qle_shift_div_l; lra); lra).
  set (Bc := (Qabs s + (R + 3 * (1 # 9007199254740992) * (R + Qabs s) + 3 * pow2 (-1075)))%Q).
  assert (Hcb : (Qabs c' <= Bc)%Q).
  { assert (E : (c' == (c' - s) + s)%Q) by ring. rewrite E.
    eapply Qle_trans; [apply Qabs_triangle|]. unfold Bc. lra. }
  assert (Hdb : (Qabs d' <= Bc)%Q).
  { assert (E : (d' == (d' - s) + s)%Q) by ring. rewrite E.
    eapply Qle_trans; [apply Qabs_triangle|]. unfold Bc. lra. }
  assert (Htol : (tolerance c' d' <= Bc * pow2 (-50) + pow2 (-1050))%Q).
  { unfold tolerance. apply Qplus_le_l. apply Qmult_le_compat_r; [by apply Q.max_lub|].
    rewrite E50. lra. }
  set (tol := tolerance c' d') in *. clearbody tol.
  rewrite E50 in Htol. rewrite E49, E1049. unfold Bc in Htol.
  set (as' := Qabs s) in *. clearbody as'.
  destruct (Q.min_spec c' d') as [[? E1]|[? E1]], (Q.max_spec c' d') as [[? E2]|[? E2]];
    rewrite E1 in Hi1; rewrite E2 in Hi2; unabs; lra.
Qed.

End Radius64.

(** ** When the shrink ratio raises *)

(** X6.  For a maximum epoch and a current epoch of magnitude [2^1000] at
    most, the binary64 computation of the ratio [I] raises in exactly one
    case: a maximum epoch of zero and a positive current epoch, where the
    first stage divides by [self.epoch].  With a maximum epoch of zero and
    a current epoch that is not positive no stage fires and [I] is 1. *)
Theorem shrink_ratio_raises (T t : Z) :
  Z.abs T <= 2 ^ 1000 → Z.abs t <= 2 ^ 1000 →
  (shrink_ratio T t = None ↔ T = 0 ∧ 0 < t) ∧
  (T = 0 → t <= 0 → shrink_ratio T t = Some (Fin 1)).
Proof.
  intros HT Ht. destruct (decide (T = 0)) as [->|HT0].
  - clear HT Ht. destruct t as [|p|p].
    + split; [split|]; [by vm_compute|lia|]. intros _ _. by vm_compute.
    + split; [split|]; [done|by intros _; vm_compute|lia].
    + split; [split|]; [by vm_compute|lia|]. intros _ _. by vm_compute.
  - destruct (shrink_ratio_Some T t HT0 HT Ht) as (i & E & _). rewrite E.
    split; [|done]. split; [done|lia].
Qed.

(** Beyond the range of binary64 the computation raises as well: Python
    refuses to convert the maximum epoch or the quotient. *)
Lemma shrink_ratio_overflow :
  shrink_ratio 1 (10 ^ 400) = None ∧ shrink_ratio (10 ^ 400) 1 = None.
Proof. by vm_compute. Qed.

(** ** The binary64 walk on the concrete problem *)

Lemma optimizer_in_range (T : Z) (m : Mode) (script : list Q) (t : Z) :
  T <= 100000 → Z.abs t <= 2 ^ 1000 → in_range (Demo.optimizer T m script) t.
Proof. intros HT Ht. unfold in_range. simpl. repeat split; try lia; done. Qed.

Lemma walker_in_range (T P : Z) (script : list Q) (t : Z) :
  T <= 100000 → P <= 100000 → Z.abs t <= 2 ^ 1000 → in_range (Demo.walker T P script) t.
Proof. intros HT HP Ht. unfold in_range. simpl. repeat split; try lia; done. Qed.

Lemma small_epoch (t : Z) : Z.abs t <= 100000 → Z.abs t <= 2 ^ 1000.
Proof. intros H. assert (100000 <= 2 ^ 1000) by (by vm_compute). lia. Qed.

Lemma small_moderate (q : Q) : (Qabs q <= 10)%Q → moderate (Fin q).
Proof.
  intros H. unfold moderate. assert (10 <= pow2 1000)%Q by (by vm_compute). lra.
Qed.

Lemma box_moderate : moderate_bounds Demo.box.
Proof. split; repeat constructor; by apply small_moderate. Qed.

Lemma box3_moderate : moderate_bounds Demo.box3.
Proof. split; repeat constructor; by apply small_moderate. Qed.

Lemma solution_moderate : Forall moderate [Fin 1] ∧ Forall moderate [Fin 1; Fin 2; Fin 3].
Proof. split; repeat constructor; by apply small_moderate. Qed.

Lemma random_walk_zero_range_witness :
  configured (Demo.optimizer 1 Single Demo.inverting) ∧
  in_range (Demo.optimizer 1 Single Demo.inverting) 1 ∧
  length [Fin 1] = n_dims (problem (Demo.optimizer 1 Single Demo.inverting)) ∧
  ∃ M g,
    random_walk_antlion__ Demo.script_random OriginalALO [Fin 1] 1
      (Demo.optimizer 1 Single Demo.inverting)
    = Some (M, set_generator g (Demo.optimizer 1 Single Demo.inverting)) ∧
    Forall (λ row,
      ∃ (rs : list Q) (a b : Z) (c d : num),
        length rs = Z.to_nat (horizon OriginalALO (Demo.optimizer 1 Single Demo.inverting)) ∧
        np_min (cumsum (step <$> rs)) = Some a ∧
        np_max (cumsum (step <$> rs)) = Some b ∧
        row = normalize OriginalALO a b c d <$> cumsum (step <$> rs) ∧
        (a = b ↔ horizon OriginalALO (Demo.optimizer 1 Single Demo.inverting) = 1) ∧
        (a = b → Forall (λ x, x = NaN) row) ∧
        (a ≠ b → moderate_bounds (problem (Demo.optimizer 1 Single Demo.inverting)) →
         Forall moderate [Fin 1] → Forall finite row)) M.
Proof.
  assert (Hc : configured (Demo.optimizer 1 Single Demo.inverting))
    by (apply optimizer_configured; lia).
  assert (Hr : in_range (Demo.optimizer 1 Single Demo.inverting) 1)
    by (apply optimizer_in_range; [lia|apply small_epoch; lia]).
  split; [exact Hc|]. split; [exact Hr|]. split; [reflexivity|].
  exact (random_walk_zero_range Demo.script_random OriginalALO [Fin 1] 1
           (Demo.optimizer 1 Single Demo.inverting) Hc Hr eq_refl).
Defined.

(** C2 fails as stated: with [epoch = 1] the walk of [OriginalALO] has one
    step, its range is zero, and the matrix returned is not-a-number. *)
Lemma random_walk_zero_range_is_nan :
  ∃ s', random_walk_antlion__ Demo.script_random OriginalALO [Fin 1] 1
          (Demo.optimizer 1 Single Demo.inverting) = Some ([[NaN]], s').
Proof. eexists. vm_compute. reflexivity. Qed.

Lemma random_walk_between_witness :
  configured (Demo.optimizer 5 Single Demo.inverting) ∧
  in_range (Demo.optimizer 5 Single Demo.inverting) 1 ∧
  2 <= horizon OriginalALO (Demo.optimizer 5 Single Demo.inverting) ∧
  length [Fin 1] = n_dims (problem (Demo.optimizer 5 Single Demo.inverting)) ∧
  moderate_bounds (problem (Demo.optimizer 5 Single Demo.inverting)) ∧
  Forall moderate [Fin 1] ∧
  ∃ M g lbs ubs g0,
    random_walk_antlion__ Demo.script_random OriginalALO [Fin 1] 1
      (Demo.optimizer 5 Single Demo.inverting)
    = Some (M, set_generator g (Demo.optimizer 5 Single Demo.inverting)) ∧
    recentred_bounds Demo.script_random [Fin 1] 1 (Demo.optimizer 5 Single Demo.inverting)
    = Some ((lbs, ubs), set_generator g0 (Demo.optimizer 5 Single Demo.inverting)) ∧
    ∀ (k : nat) (row : list num) (x : num),
      M !! k = Some row → x ∈ row →
      ∃ c d, lbs !! k = Some c ∧ ubs !! k = Some d ∧
             between c d x ∧ (fleb c d = true → inside c d x).
Proof.
  assert (Hc : configured (Demo.optimizer 5 Single Demo.inverting))
    by (apply optimizer_configured; lia).
  assert (Hr : in_range (Demo.optimizer 5 Single Demo.inverting) 1)
    by (apply optimizer_in_range; [lia|apply small_epoch; lia]).
  assert (Hh : 2 <= horizon OriginalALO (Demo.optimizer 5 Single Demo.inverting))
    by (simpl; lia).
  destruct solution_moderate as [Hs _].
  split; [exact Hc|]. split; [exact Hr|]. split; [exact Hh|]. split; [reflexivity|].
  split; [exact box_moderate|]. split; [exact Hs|].
  exact (random_walk_between Demo.script_random OriginalALO [Fin 1] 1
           (Demo.optimizer 5 Single Demo.inverting) Hc Hr Hh eq_refl box_moderate Hs).
Defined.

(** C4 fails as stated, in two ways, and no tolerance helps.  With
    [epoch = 1] the only entry of the matrix is not-a-number, which lies
    between no bounds.  With [epoch = 5] the ratio [I] is 21 at epoch 1;
    draws that recentre the bounds to [lb' = 10/21 + 1] and
    [ub' = -10/21 + 1] make the first entry of the walk 1, which is not in
    the interval from [lb'] to [ub'] as written, by far more than the
    tolerance: that interval is empty. *)
Lemma random_walk_not_inside :
  (∃ s' s0 c d,
     random_walk_antlion__ Demo.script_random OriginalALO [Fin 1] 1
       (Demo.optimizer 1 Single Demo.inverting) = Some ([[NaN]], s') ∧
     recentred_bounds Demo.script_random [Fin 1] 1
       (Demo.optimizer 1 Single Demo.inverting) = Some (([c], [d]), s0) ∧
     ¬ between c d NaN ∧ ¬ inside c d NaN) ∧
  (∃ M s' s0 c d row,
     random_walk_antlion__ Demo.script_random OriginalALO [Fin 1] 1
       (Demo.optimizer 5 Single Demo.inverting) = Some (M, s') ∧
     recentred_bounds Demo.script_random [Fin 1] 1
       (Demo.optimizer 5 Single Demo.inverting) = Some (([Fin c], [Fin d]), s0) ∧
     (147 # 100 <= c)%Q ∧ (d <= 53 # 100)%Q ∧ (tolerance c d <= 1 # 1000)%Q ∧
     M !! 0%nat = Some row ∧ row !! 0%nat = Some (Fin 1) ∧
     ¬ inside (Fin c) (Fin d) (Fin 1)).
Proof.
  split.
  - eexists _, _, _, _. split; [vm_compute; reflexivity|].
    split; [vm_compute; reflexivity|]. split; intros H; by destruct H.
  - eexists _, _, _, _, _, _. split; [vm_compute; reflexivity|].
    split; [vm_compute; reflexivity|].
    split; [by vm_compute|]. split; [by vm_compute|]. split; [by vm_compute|].
    split; [reflexivity|]. split; [reflexivity|].
    intros [H1 H2]. vm_compute in H1. by apply H1.
Qed.

(** Why the tolerance: in binary64 an entry can fall outside the interval
    between the recentred bounds.  [DevALO] with [self.epoch = 10] at epoch
    2, a solution of 1 and a raw walk that ends one step below its
    maximum: the entry at the maximum is 0.52380952380952372, below
    [ub' = 0.52380952380952384], the smaller of the two bounds. *)
Lemma random_walk_rounds_outside :
  ∃ M s' s0 c d row p,
    random_walk_antlion__ Demo.script_random DevALO [Fin 1] 2
      (Demo.optimizer 10 Single Demo.climbing) = Some (M, s') ∧
    recentred_bounds Demo.script_random [Fin 1] 2
      (Demo.optimizer 10 Single Demo.climbing) = Some (([Fin c], [Fin d]), s0) ∧
    M !! 0%nat = Some row ∧ row !! 3%nat = Some (Fin p) ∧
    (52380952380952372 # 10 ^ 17 <= p)%Q ∧ (p <= 52380952380952373 # 10 ^ 17)%Q ∧
    (52380952380952383 # 10 ^ 17 <= d)%Q ∧ (d <= c)%Q ∧
    (p < Qmin c d)%Q ∧ between (Fin c) (Fin d) (Fin p).
Proof.
  eexists _, _, _, _, _, _, _. split; [vm_compute; reflexivity|].
  split; [vm_compute; reflexivity|]. split; [reflexivity|]. split; [reflexivity|].
  repeat (split; [by vm_compute|]). by vm_compute.
Qed.

(** Why the magnitudes: with bounds [-2^1023] and [2^1023], both binary64
    values, the width [ub' - lb'] overflows, and the row holds
    not-a-number and infinities for a finite reference solution. *)
Lemma random_walk_overflows :
  ∃ s', random_walk_antlion__ Demo.script_random DevALO [Fin 1] 1
          (Demo.wide_walker 10 5 Demo.keeping)
        = Some ([[NaN; PInf; PInf; PInf; PInf]], s').
Proof. eexists. vm_compute. reflexivity. Qed.

(** On these three inputs the binary64 walk returns, entry by entry, what
    the floats of the machine return for the expressions of the source. *)
Lemma walks_match_machine :
  (∃ s', random_walk_antlion__ Demo.script_random DevALO [Fin 1] 2
           (Demo.optimizer 10 Single Demo.climbing)
         = Some ([Machine.value <$> Machine.DevALO_row], s')) ∧
  (∃ s', random_walk_antlion__ Demo.script_random OriginalALO [Fin 1] 1
           (Demo.optimizer 5 Single Demo.inverting)
         = Some ([Machine.value <$> Machine.OriginalALO_row], s')) ∧
  (∃ s', random_walk_antlion__ Demo.script_random DevALO [Fin 1] 1
           (Demo.wide_walker 10 5 Demo.keeping)
         = Some ([Machine.value <$> Machine.wide_row], s')).
Proof. repeat split; eexists; vm_compute; reflexivity. Qed.

(** ** The binary64 properties on the concrete problem *)

Lemma shrink_ratio_raises_witness :
  Z.abs 0 <= 2 ^ 1000 ∧ Z.abs 3 <= 2 ^ 1000 ∧ Z.abs 50 <= 2 ^ 1000 ∧
  shrink_ratio 0 3 = None ∧ shrink_ratio 0 0 = Some (Fin 1) ∧ shrink_ratio 50 3 ≠ None.
Proof.
  assert (H0 : Z.abs 0 <= 2 ^ 1000) by (apply small_epoch; lia).
  assert (H3 : Z.abs 3 <= 2 ^ 1000) by (apply small_epoch; lia).
  assert (H50 : Z.abs 50 <= 2 ^ 1000) by (apply small_epoch; lia).
  destruct (shrink_ratio_raises 0 3 H0 H3) as [[_ H1] _].
  destruct (shrink_ratio_raises 0 0 H0 H0) as [_ H2].
  destruct (shrink_ratio_raises 50 3 H50 H3) as [[H4 _] _].
  split; [exact H0|]. split; [exact H3|]. split; [exact H50|].
  split; [apply H1; lia|]. split; [apply H2; lia|]. intros E. apply H4 in E. lia.
Defined.

Lemma random_walk_reaches_both_ends_witness :
  configured (Demo.walker 50 4 Demo.inverting) ∧
  in_range (Demo.walker 50 4 Demo.inverting) 7 ∧
  2 <= horizon DevALO (Demo.walker 50 4 Demo.inverting) ∧
  length [Fin 1; Fin 2; Fin 3] = n_dims (problem (Demo.walker 50 4 Demo.inverting)) ∧
  moderate_bounds (problem (Demo.walker 50 4 Demo.inverting)) ∧
  Forall moderate [Fin 1; Fin 2; Fin 3] ∧
  ∃ M g lbs ubs g0,
    random_walk_antlion__ Demo.script_random DevALO [Fin 1; Fin 2; Fin 3] 7
      (Demo.walker 50 4 Demo.inverting)
    = Some (M, set_generator g (Demo.walker 50 4 Demo.inverting)) ∧
    recentred_bounds Demo.script_random [Fin 1; Fin 2; Fin 3] 7
      (Demo.walker 50 4 Demo.inverting)
    = Some ((lbs, ubs), set_generator g0 (Demo.walker 50 4 Demo.inverting)) ∧
    ∀ (k : nat) (row : list num),
      M !! k = Some row →
      ∃ c d y, lbs !! k = Some (Fin c) ∧ ubs !! k = Some (Fin d) ∧
               Fin c ∈ row ∧ Fin y ∈ row ∧ (Qabs (y - d) <= tolerance c d)%Q.
Proof.
  assert (Hc : configured (Demo.walker 50 4 Demo.inverting))
    by (apply walker_configured; lia).
  assert (Hr : in_range (Demo.walker 50 4 Demo.inverting) 7)
    by (apply walker_in_range; [lia|lia|apply small_epoch; lia]).
  assert (Hh : 2 <= horizon DevALO (Demo.walker 50 4 Demo.inverting)) by (simpl; lia).
  destruct solution_moderate as [_ Hs].
  split; [exact Hc|]. split; [exact Hr|]. split; [exact Hh|]. split; [reflexivity|].
  split; [exact box3_moderate|]. split; [exact Hs|].
  exact (random_walk_reaches_both_ends Demo.script_random DevALO [Fin 1; Fin 2; Fin 3] 7
           (Demo.walker 50 4 Demo.inverting) Hc Hr Hh eq_refl box3_moderate Hs).
Defined.

Lemma random_walk_radius_witness :
  configured (Demo.walker 50 4 Demo.inverting) ∧
  in_range (Demo.walker 50 4 Demo.inverting) 30 ∧
  2 <= horizon OriginalALO (Demo.walker 50 4 Demo.inverting) ∧
  length [Fin 1; Fin 2; Fin 3] = n_dims (problem (Demo.walker 50 4 Demo.inverting)) ∧
  moderate_bounds (problem (Demo.walker 50 4 Demo.inverting)) ∧
  Forall moderate [Fin 1; Fin 2; Fin 3] ∧
  ∃ M g i,
    random_walk_antlion__ Demo.script_random OriginalALO [Fin 1; Fin 2; Fin 3] 30
      (Demo.walker 50 4 Demo.inverting)
    = Some (M, set_generator g (Demo.walker 50 4 Demo.inverting)) ∧
    shrink_ratio (epoch (Demo.walker 50 4 Demo.inverting)) 30 = Some (Fin i) ∧ (1 <= i)%Q ∧
    ∀ (k : nat) (row : list num) (x : num) (l u s : Q),
      M !! k = Some row → x ∈ row →
      lb (problem (Demo.walker 50 4 Demo.inverting)) !! k = Some l →
      ub (problem (Demo.walker 50 4 Demo.inverting)) !! k = Some u →
      [Fin 1; Fin 2; Fin 3] !! k = Some (Fin s) →
      ∃ p, x = Fin p ∧
           (Qabs (p - s) <= Qmax (Qabs l) (Qabs u) / i
                            + (Qmax (Qabs l) (Qabs u) / i + Qabs s) * pow2 (-49)
                            + pow2 (-1049))%Q.
Proof.
  assert (Hc : configured (Demo.walker 50 4 Demo.inverting))
    by (apply walker_configured; lia).
  assert (Hr : in_range (Demo.walker 50 4 Demo.inverting) 30)
    by (apply walker_in_range; [lia|lia|apply small_epoch; lia]).
  assert (Hh : 2 <= horizon OriginalALO (Demo.walker 50 4 Demo.inverting)) by (simpl; lia).
  destruct solution_moderate as [_ Hs].
  split; [exact Hc|]. split; [exact Hr|]. split; [exact Hh|]. split; [reflexivity|].
  split; [exact box3_moderate|]. split; [exact Hs|].
  exact (random_walk_radius Demo.script_random OriginalALO [Fin 1; Fin 2; Fin 3] 30
           (Demo.walker 50 4 Demo.inverting) Hc Hr Hh eq_refl box3_moderate Hs).
Defined.

Lemma random_walk_steps_witness :
  configured (Demo.walker 50 4 Demo.inverting) ∧
  in_range (Demo.walker 50 4 Demo.inverting) 7 ∧
  2 <= horizon DevALO (Demo.walker 50 4 Demo.inverting) ∧
  length [Fin 1; Fin 2; Fin 3] = n_dims (problem (Demo.walker 50 4 Demo.inverting)) ∧
  moderate_bounds (problem (Demo.walker 50 4 Demo.inverting)) ∧
  Forall moderate [Fin 1; Fin 2; Fin 3] ∧
  ∃ M g lbs ubs g0,
    random_walk_antlion__ Demo.script_random DevALO [Fin 1; Fin 2; Fin 3] 7
      (Demo.walker 50 4 Demo.inverting)
    = Some (M, set_generator g (Demo.walker 50 4 Demo.inverting)) ∧
    recentred_bounds Demo.script_random [Fin 1; Fin 2; Fin 3] 7
      (Demo.walker 50 4 Demo.inverting)
    = Some ((lbs, ubs), set_generator g0 (Demo.walker 50 4 Demo.inverting)) ∧
    ∀ (k : nat) (row : list num),
      M !! k = Some row →
      ∃ (c d : Q) (n : Z),
        lbs !! k = Some (Fin c) ∧ ubs !! k = Some (Fin d) ∧
        1 <= n <= horizon DevALO (Demo.walker 50 4 Demo.inverting) - 1 ∧
        ∀ (j : nat) (x y : num),
          row !! j = Some x → row !! S j = Some y →
          ∃ p q, x = Fin p ∧ y = Fin q ∧
            ((Qabs (q - p - (d - c) / inject_Z n) <= 2 * tolerance c d)%Q ∨
             (Qabs (p - q - (d - c) / inject_Z n) <= 2 * tolerance c d)%Q).
Proof.
  assert (Hc : configured (Demo.walker 50 4 Demo.inverting))
    by (apply walker_configured; lia).
  assert (Hr : in_range (Demo.walker 50 4 Demo.inverting) 7)
    by (apply walker_in_range; [lia|lia|apply small_epoch; lia]).
  assert (Hh : 2 <= horizon DevALO (Demo.walker 50 4 Demo.inverting)) by (simpl; lia).
  destruct solution_moderate as [_ Hs].
  split; [exact Hc|]. split; [exact Hr|]. split; [exact Hh|]. split; [reflexivity|].
  split; [exact box3_moderate|]. split; [exact Hs|].
  exact (random_walk_steps Demo.script_random DevALO [Fin 1; Fin 2; Fin 3] 7
           (Demo.walker 50 4 Demo.inverting) Hc Hr Hh eq_refl box3_moderate Hs).
Defined.

Lemma constructed_walks_finite_witness :
  ∃ self,
    ALO__init__ DevALO 1 5 (Demo.walker 0 0 Demo.inverting) = Some (tt, self) ∧
    n_dims (problem (Demo.walker 0 0 Demo.inverting)) ≠ 0%nat ∧
    length (ub (problem (Demo.walker 0 0 Demo.inverting)))
      = n_dims (problem (Demo.walker 0 0 Demo.inverting)) ∧
    length [Fin 1; Fin 2; Fin 3] = n_dims (problem (Demo.walker 0 0 Demo.inverting)) ∧
    moderate_bounds (problem (Demo.walker 0 0 Demo.inverting)) ∧
    Forall moderate [Fin 1; Fin 2; Fin 3] ∧
    Z.abs 1 <= 2 ^ 1000 ∧
    ∃ M g,
      random_walk_antlion__ Demo.script_random DevALO [Fin 1; Fin 2; Fin 3] 1 self
        = Some (M, set_generator g self) ∧
      Forall (Forall finite) M.
Proof.
  assert (E : ∃ self, ALO__init__ DevALO 1 5 (Demo.walker 0 0 Demo.inverting)
                      = Some (tt, self)) by (eexists; reflexivity).
  assert (Hn : n_dims (problem (Demo.walker 0 0 Demo.inverting)) ≠ 0%nat) by done.
  assert (Ht : Z.abs 1 <= 2 ^ 1000) by (apply small_epoch; lia).
  destruct solution_moderate as [_ Hs].
  destruct E as [self E]. exists self.
  split; [exact E|]. split; [exact Hn|]. split; [reflexivity|]. split; [reflexivity|].
  split; [exact box3_moderate|]. split; [exact Hs|]. split; [exact Ht|].
  exact (constructed_walks_finite Demo.script_random DevALO 1 5
           (Demo.walker 0 0 Demo.inverting) self [Fin 1; Fin 2; Fin 3] 1
           E ltac:(discriminate) Hn eq_refl eq_refl box3_moderate Hs Ht).
Defined.


(** On the maximisation problem the candidates of a run with
    [self.epoch = 1] survive: the corrector sends not-a-number to the lower
    bound [-10], whose fitness 100 beats every agent, so that slots 0 to 3
    of the new population hold four of the five candidates and the last
    slot holds the copy of the elite. *)
Lemma single_epoch_candidates_survive :
  ∃ self',
    evolve Demo.script_random Demo.wheel Demo.clip Demo.sum_of_squares OriginalALO 1
      (Demo.maximizer 1 Single Demo.quiet) = Some (tt, self') ∧
    pop self' = [6; 7; 8; 9; 11]%nat ∧
    Forall (λ l, heap (Demo.maximizer 1 Single Demo.quiet) !! l = None) (pop self') ∧
    Forall (λ l, heap self' !! l
                 = Some (evaluated Demo.sum_of_squares (Demo.clip Demo.box_max [NaN])))
           [6; 7; 8; 9]%nat ∧
    Demo.clip Demo.box_max [NaN] = [Fin (-10)].
Proof.
  eexists. split; [vm_compute; reflexivity|].
  split; [reflexivity|]. split; [by repeat constructor|].
  split; [by repeat constructor|reflexivity].
Qed.

Lemma OriginalALO_evolve_single_epoch_witness :
  epoch (Demo.maximizer 1 Single Demo.quiet) = 1 ∧
  ∃ self',
    evolve Demo.script_random Demo.wheel Demo.clip Demo.sum_of_squares OriginalALO 1
      (Demo.maximizer 1 Single Demo.quiet) = Some (tt, self') ∧
    (∃ l, l ∈ pop self' ∧ heap (Demo.maximizer 1 Single Demo.quiet) !! l = None ∧
          last (pop self') ≠ Some l) ∧
    ∀ l, l ∈ pop self' → heap (Demo.maximizer 1 Single Demo.quiet) !! l = None →
      last (pop self') = Some l ∨
      heap self' !! l
        = Some (evaluated Demo.sum_of_squares
                  (Demo.clip (problem (Demo.maximizer 1 Single Demo.quiet))
                     (replicate (n_dims (problem (Demo.maximizer 1 Single Demo.quiet)))
                        NaN))).
Proof.
  assert (HT : epoch (Demo.maximizer 1 Single Demo.quiet) = 1) by reflexivity.
  destruct single_epoch_candidates_survive as (self' & E & Hpop & Hnew & _).
  split; [exact HT|]. exists self'. split; [exact E|]. split.
  - exists 6%nat. rewrite Hpop in Hnew |- *. split; [by left|].
    split; [exact (Forall_inv Hnew)|discriminate].
  - exact (OriginalALO_evolve_single_epoch Demo.script_random Demo.wheel Demo.clip
             Demo.sum_of_squares 1 _ _ HT E).
Defined.
